(** * NFA to DFA to Turing-machine decider pipeline

    A shallow embedding of [Convert_NFA_to_DFA.py]: [epsilon_closure],
    [move_nfa], [nfa_to_dfa], [dfa_to_tm_decider], [format_configuration]
    and [simulate_tm], followed by the properties of the pipeline.

    Conventions of the embedding.
    - State identifiers are Python ints used as dictionary keys: [nat].
    - Symbols are Python strings: [string].  An input string is the
      sequence of its symbols: [list string].
    - A Python [dict] is a [gmap], a Python [set]/[frozenset] a [gset].
    - A [while] loop takes a [fuel] argument and answers [OutOfFuel] when it
      is exhausted; a subscript that Python would reject answers [Raise]. *)

From stdpp Require Import gmap strings list fin_maps fin_sets relations sorting pretty.
From Stdlib Require Import ZArith.

Open Scope Z_scope.
Open Scope nat_scope.

(** ** Outcomes of a Python call *)

Inductive exn := KeyError | IndexError.

Inductive outcome (A : Type) :=
  | Return (a : A)
  | Raise (e : exn)
  | OutOfFuel.
Arguments Return {A} a.
Arguments Raise {A} e.
Arguments OutOfFuel {A}.

Definition bind {A B} (m : outcome A) (k : A → outcome B) : outcome B :=
  match m with
  | Return a => k a
  | Raise e => Raise e
  | OutOfFuel => OutOfFuel
  end.

Notation "'do' x <- m ; k" := (bind m (λ x, k))
  (at level 10, x pattern, m at level 100, k at level 200).

(** [d[key]] on a dictionary and [l[i]] on a list. *)
Definition subscript `{Countable K} {V} (d : gmap K V) (key : K) : outcome V :=
  match d !! key with
  | Some v => Return v
  | None => Raise KeyError
  end.

Definition item {A} (l : list A) (i : nat) : outcome A :=
  match l !! i with
  | Some x => Return x
  | None => Raise IndexError
  end.

(** ** Data model *)

Module Nfa.
Record t := mk {
  states : list nat;
  alphabet : list string;
  start_state : nat;
  accept_states : list nat;
  transitions : gmap (nat * string) (list nat)
}.
End Nfa.

Module Dfa.
Record t := mk {
  states : list nat;
  alphabet : list string;
  start_state : nat;
  accept_states : list nat;
  transitions : gmap (nat * string) nat
}.
End Dfa.

Module Tm.
Record t := mk {
  num_states : nat;
  start_state : nat;
  blank : string;
  transitions : gmap (nat * string) (nat * string * string);
  accept_states : list nat;
  reject_states : list nat
}.
End Tm.

Definition INPUT_ALPHABET : list string := ["a"; "b"].
Definition TAPE_ALPHABET : list string := ["a"; "b"; "_"].
Definition MOVES : list string := ["L"; "R"].

(** ** epsilon_closure *)

(** The inner [for nxt in next_states] loop.  The stack is kept with its top
    at the head of the list, so [stack.append(nxt)] is a cons and
    [stack.pop()] takes the head. *)
Fixpoint closure_visit (next_states : list nat) (closure : gset nat)
    (stack : list nat) : gset nat * list nat :=
  match next_states with
  | [] => (closure, stack)
  | nxt :: rest =>
      if decide (nxt ∈ closure) then closure_visit rest closure stack
      else closure_visit rest ({[nxt]} ∪ closure) (nxt :: stack)
  end.

Fixpoint epsilon_closure_loop (fuel : nat) (nfa : Nfa.t) (closure : gset nat)
    (stack : list nat) : outcome (gset nat) :=
  match stack with
  | [] => Return closure
  | state :: stack =>
      match fuel with
      | 0 => OutOfFuel
      | S fuel =>
          match Nfa.transitions nfa !! (state, "eps") with
          | Some next_states =>
              let '(closure, stack) := closure_visit next_states closure stack in
              epsilon_closure_loop fuel nfa closure stack
          | None => epsilon_closure_loop fuel nfa closure stack
          end
      end
  end.

Definition epsilon_closure (fuel : nat) (nfa : Nfa.t) (state_set : gset nat)
    : outcome (gset nat) :=
  epsilon_closure_loop fuel nfa state_set (reverse (elements state_set)).

(** ** move_nfa *)

Definition move_nfa (nfa : Nfa.t) (state_set : gset nat) (symbol : string)
    : gset nat :=
  foldl (λ result state,
           match Nfa.transitions nfa !! (state, symbol) with
           | Some next_states =>
               foldl (λ result nxt, {[nxt]} ∪ result) result next_states
           | None => result
           end)
        ∅ (elements state_set).

(** ** nfa_to_dfa *)

(** The mutable locals of [nfa_to_dfa]. *)
Record build := mk_build {
  subset_to_index : gmap (gset nat) nat;
  subsets : list (gset nat);
  dfa_transitions : gmap (nat * string) nat;
  dfa_accept_states : gset nat
}.

(** Body of [for symbol in alphabet]. *)
Definition symbol_step (fuel : nat) (nfa : Nfa.t) (subset : gset nat)
    (current_index : nat) (b : build) (symbol : string) : outcome build :=
  let move_set := move_nfa nfa subset symbol in
  do target_closure <-
    (if decide (move_set ≠ ∅) then epsilon_closure fuel nfa move_set
     else Return ∅);
  let target_frozen := target_closure in
  let '(index_of, subsets') :=
    if decide (is_Some (subset_to_index b !! target_frozen))
    then (subset_to_index b, subsets b)
    else
      let new_index := length (subsets b) in
      (<[target_frozen := new_index]> (subset_to_index b),
       subsets b ++ [target_closure]) in
  do next_index <- subscript index_of target_frozen;
  Return {| subset_to_index := index_of;
            subsets := subsets';
            dfa_transitions :=
              <[(current_index, symbol) := next_index]> (dfa_transitions b);
            dfa_accept_states := dfa_accept_states b |}.

Fixpoint for_symbols (fuel : nat) (nfa : Nfa.t) (subset : gset nat)
    (current_index : nat) (alphabet : list string) (b : build) : outcome build :=
  match alphabet with
  | [] => Return b
  | symbol :: rest =>
      do b' <- symbol_step fuel nfa subset current_index b symbol;
      for_symbols fuel nfa subset current_index rest b'
  end.

(** [for s in subset: if s in accept_states_nfa: add; break]. *)
Fixpoint mark_accept (members : list nat) (accept_states_nfa : gset nat)
    (current_index : nat) (accepting : gset nat) : gset nat :=
  match members with
  | [] => accepting
  | s :: rest =>
      if decide (s ∈ accept_states_nfa) then {[current_index]} ∪ accepting
      else mark_accept rest accept_states_nfa current_index accepting
  end.

(** The [while index < len(subsets)] loop.  [fuel] bounds the inner
    closure loops, [n] the iterations of this loop. *)
Fixpoint nfa_to_dfa_loop (fuel n : nat) (nfa : Nfa.t) (index : nat) (b : build)
    : outcome build :=
  if decide (index < length (subsets b)) then
    match n with
    | 0 => OutOfFuel
    | S n =>
        do subset <- item (subsets b) index;
        let current_index := index in
        do b' <- for_symbols fuel nfa subset current_index (Nfa.alphabet nfa) b;
        let accepting :=
          mark_accept (elements subset) (list_to_set (Nfa.accept_states nfa))
                      current_index (dfa_accept_states b') in
        nfa_to_dfa_loop fuel n nfa (index + 1)
          {| subset_to_index := subset_to_index b';
             subsets := subsets b';
             dfa_transitions := dfa_transitions b';
             dfa_accept_states := accepting |}
    end
  else Return b.

(** Everything up to the end of the [while] loop. *)
Definition nfa_to_dfa_build (fuel : nat) (nfa : Nfa.t) : outcome build :=
  do start_closure <- epsilon_closure fuel nfa {[Nfa.start_state nfa]};
  let start_frozen := start_closure in
  nfa_to_dfa_loop fuel fuel nfa 0
    {| subset_to_index := <[start_frozen := 0]> ∅;
       subsets := [start_closure];
       dfa_transitions := ∅;
       dfa_accept_states := ∅ |}.

Definition dfa_of_build (nfa : Nfa.t) (b : build) : Dfa.t :=
  {| Dfa.states := seq 0 (length (subsets b));
     Dfa.alphabet := Nfa.alphabet nfa;
     Dfa.start_state := 0;
     Dfa.accept_states := merge_sort (≤) (elements (dfa_accept_states b));
     Dfa.transitions := dfa_transitions b |}.

Definition nfa_to_dfa (fuel : nat) (nfa : Nfa.t) : outcome Dfa.t :=
  do b <- nfa_to_dfa_build fuel nfa;
  Return (dfa_of_build nfa b).

(** ** dfa_to_tm_decider *)

Section decider.
Variable dfa : Dfa.t.

Definition decider_accept_state : nat := length (Dfa.states dfa).
Definition decider_reject_state : nat := length (Dfa.states dfa) + 1.

(** Target chosen in the body of [for symbol in INPUT_ALPHABET]. *)
Definition decider_next (state : nat) (symbol : string) : nat :=
  if decide (symbol ∈ Dfa.alphabet dfa) then
    match Dfa.transitions dfa !! (state, symbol) with
    | Some nxt_st => nxt_st
    | None => decider_reject_state
    end
  else decider_reject_state.

(** Target chosen for the blank symbol. *)
Definition decider_next_blank (state : nat) : nat :=
  if decide (state ∈@{gset nat} list_to_set (Dfa.accept_states dfa))
  then decider_accept_state
  else decider_reject_state.

(** Body of [for state in dfa_states]. *)
Definition decider_row (tm_transitions : gmap (nat * string) (nat * string * string))
    (state : nat) : gmap (nat * string) (nat * string * string) :=
  let tm_transitions :=
    foldl (λ tm_transitions symbol,
             <[(state, symbol) := (decider_next state symbol, symbol, "R")]>
               tm_transitions)
          tm_transitions INPUT_ALPHABET in
  <[(state, "_") := (decider_next_blank state, "_", "R")]> tm_transitions.

Definition dfa_to_tm_decider : Tm.t :=
  let num_dfa_states := length (Dfa.states dfa) in
  let tm_transitions := foldl decider_row ∅ (Dfa.states dfa) in
  let tm_states := seq 0 (num_dfa_states + 2) in
  {| Tm.num_states := length tm_states;
     Tm.start_state := Dfa.start_state dfa;
     Tm.blank := "_";
     Tm.transitions := tm_transitions;
     Tm.accept_states := [decider_accept_state];
     Tm.reject_states := [decider_reject_state] |}.
End decider.

(** ** format_configuration and simulate_tm *)

Definition join (parts : list string) : string :=
  foldr String.append "" parts.

Definition format_configuration (state : nat) (tape : list string)
    (head_position : Z) : string :=
  "state=" +:+ pretty state +:+ ", tape=" +:+ join tape
    +:+ ", head pos=" +:+ pretty head_position.

(** The locals of [simulate_tm] at the top of the [while True] loop. *)
Record config := mk_config {
  state : nat;
  tape : list string;
  head : Z;
  steps : nat;
  configurations : list string
}.

Inductive iteration :=
  | Continue (c : config)
  | Halt (result : nat * list string).

(** The two [Extend tape] tests of a pass: the tape and head they leave. *)
Definition extend_tape (tm : Tm.t) (c : config) : list string * Z :=
  let '(tape, head) :=
    if decide (head c < 0)%Z then (Tm.blank tm :: tape c, 0%Z)
    else (tape c, head c) in
  if decide (Z.of_nat (length tape) ≤ head)%Z then (tape ++ [Tm.blank tm], head)
  else (tape, head).

(** One pass through the body of [while True]. *)
Definition simulate_body (tm : Tm.t) (max_steps : option Z) (c : config)
    : outcome iteration :=
  let configurations :=
    configurations c ++ [format_configuration (state c) (tape c) (head c)] in
  if decide (state c ∈ Tm.accept_states tm) then
    Return (Halt (1, configurations))
  else if decide (state c ∈ Tm.reject_states tm) then
    Return (Halt (0, configurations))
  else if match max_steps with
          | Some m => bool_decide (m ≤ Z.of_nat (steps c))%Z
          | None => false
          end then
    Return (Halt (0, configurations))
  else
    let '(tape, head) := extend_tape tm c in
    do current_symbol <- item tape (Z.to_nat head);
    match Tm.transitions tm !! (state c, current_symbol) with
    | None => Return (Halt (0, configurations))
    | Some (nxt_st, tape_char, direction) =>
        let tape := <[Z.to_nat head := tape_char]> tape in
        let head :=
          if decide (direction = "R") then (head + 1)%Z else (head - 1)%Z in
        Return (Continue {| state := nxt_st;
                            tape := tape;
                            head := head;
                            steps := steps c + 1;
                            configurations := configurations |})
    end.

Fixpoint simulate_loop (fuel : nat) (tm : Tm.t) (max_steps : option Z)
    (c : config) : outcome (nat * list string) :=
  match fuel with
  | 0 => OutOfFuel
  | S fuel =>
      do it <- simulate_body tm max_steps c;
      match it with
      | Halt result => Return result
      | Continue c' => simulate_loop fuel tm max_steps c'
      end
  end.

Definition initial_config (tm : Tm.t) (input_string : list string) : config :=
  {| state := Tm.start_state tm;
     tape := input_string ++ [Tm.blank tm];
     head := 0%Z;
     steps := 0;
     configurations := [] |}.

Definition simulate_tm (fuel : nat) (tm : Tm.t) (input_string : list string)
    (max_steps : option Z) : outcome (nat * list string) :=
  simulate_loop fuel tm max_steps (initial_config tm input_string).

(** ** The example of [build_example_nfa] *)

Definition build_example_nfa : Nfa.t :=
  {| Nfa.states := [0; 1; 2];
     Nfa.alphabet := ["a"; "b"];
     Nfa.start_state := 0;
     Nfa.accept_states := [2];
     Nfa.transitions :=
       <[(1, "b") := [2]]> (<[(0, "b") := [0]]> (<[(0, "a") := [0; 1]]> ∅)) |}.


(** ** Reference semantics of a DFA

    The source has no DFA runner; acceptance is the textbook one, with the
    data model's reading of an absent entry: the word is rejected. *)

Fixpoint dfa_run (dfa : Dfa.t) (q : nat) (w : list string) : option nat :=
  match w with
  | [] => Some q
  | c :: w =>
      match Dfa.transitions dfa !! (q, c) with
      | Some q' => dfa_run dfa q' w
      | None => None
      end
  end.

Definition dfa_accepts (dfa : Dfa.t) (w : list string) : bool :=
  match dfa_run dfa (Dfa.start_state dfa) w with
  | Some q => bool_decide (q ∈ Dfa.accept_states dfa)
  | None => false
  end.

(** ** Passes of the simulation loop *)

(** The locals after [k] complete passes through the loop body, when none
    of them returned. *)
Fixpoint passes (k : nat) (tm : Tm.t) (max_steps : option Z) (c : config)
    : option config :=
  match k with
  | 0 => Some c
  | S k =>
      match simulate_body tm max_steps c with
      | Return (Continue c') => passes k tm max_steps c'
      | _ => None
      end
  end.

(** The symbol a pass reads, once the tape has been extended. *)
Definition current_symbol (tm : Tm.t) (c : config) : option string :=
  let '(tape, head) := extend_tape tm c in tape !! Z.to_nat head.

(** Whether a pass gets as far as reading the tape. *)
Definition running (tm : Tm.t) (max_steps : option Z) (c : config) : Prop :=
  (state c ∉ Tm.accept_states tm) ∧ (state c ∉ Tm.reject_states tm) ∧
  match max_steps with
  | Some m => (Z.of_nat (steps c) < m)%Z
  | None => True
  end.

Definition dfa_example : Dfa.t :=
  {| Dfa.states := [0; 1; 2];
     Dfa.alphabet := ["a"; "b"];
     Dfa.start_state := 0;
     Dfa.accept_states := [2];
     Dfa.transitions :=
       <[(2, "b") := 0]> (<[(2, "a") := 1]> (<[(1, "b") := 2]>
         (<[(1, "a") := 1]> (<[(0, "b") := 0]> (<[(0, "a") := 1]> ∅))))) |}.


(** ** Statements about the decider *)

(** The entry of the table at [(s, c)], read off the construction. *)
Definition decider_entry (dfa : Dfa.t) (known : list nat) (s : nat) (c : string)
    : option (nat * string * string) :=
  if decide (s ∈ known) then
    if decide (c = "_") then Some (decider_next_blank dfa s, "_", "R")
    else if decide (c ∈ INPUT_ALPHABET) then Some (decider_next dfa s c, c, "R")
    else None
  else None.


(** The table is total on the indices below [N] and the tape alphabet, an
    absent DFA transition is routed to the reject state, and the two sink
    states have no entry, where [N] is the number of DFA states. *)
Definition decider_table_total (dfa : Dfa.t) : Prop :=
  let tm := dfa_to_tm_decider dfa in
  let N := length (Dfa.states dfa) in
  (∀ s c, s < N → c ∈ INPUT_ALPHABET ++ [Tm.blank tm] →
          is_Some (Tm.transitions tm !! (s, c))) ∧
  (∀ s c, s < N → c ∈ INPUT_ALPHABET →
          Dfa.transitions dfa !! (s, c) = None →
          Tm.transitions tm !! (s, c) = Some (decider_reject_state dfa, c, "R")) ∧
  (∀ q c, q ∈ Tm.accept_states tm ++ Tm.reject_states tm →
          Tm.transitions tm !! (q, c) = None).

(** A DFA whose two states are numbered from 1. *)
Definition dfa_from_one : Dfa.t :=
  {| Dfa.states := [1; 2];
     Dfa.alphabet := ["a"; "b"];
     Dfa.start_state := 1;
     Dfa.accept_states := [2];
     Dfa.transitions := <[(2, "a") := 2]> (<[(1, "a") := 2]> ∅) |}.

(** [num_states] counts the inherited states only and the sinks lie beyond it. *)
Definition num_states_counts_inherited (dfa : Dfa.t) : Prop :=
  let tm := dfa_to_tm_decider dfa in
  Tm.num_states tm = length (Dfa.states dfa) ∧
  ∀ q, q ∈ Tm.accept_states tm ++ Tm.reject_states tm → Tm.num_states tm ≤ q.


(** ** Statements about the simulation *)

(** The head is at most one cell outside the tape. *)
Definition head_in_reach (c : config) : Prop :=
  (-1 ≤ head c ≤ Z.of_nat (length (tape c)))%Z.

(** The configuration string a pass appends to the trace. *)
Definition recorded (c : config) : list string :=
  configurations c ++ [format_configuration (state c) (tape c) (head c)].

(** The locals of the next pass, for the transition [(nxt_st, tape_char,
    direction)] read on the extended tape. *)
Definition apply_transition (tm : Tm.t) (c : config)
    (rule : nat * string * string) : config :=
  let '(tape, head) := extend_tape tm c in
  let '(nxt_st, tape_char, direction) := rule in
  {| state := nxt_st;
     tape := <[Z.to_nat head := tape_char]> tape;
     head := if decide (direction = "R") then (head + 1)%Z else (head - 1)%Z;
     steps := steps c + 1;
     configurations := recorded c |}.

(** The DFAs [dfa_to_tm_decider] is meant for.  The two states the decider
    adds are not states of the DFA (they never are when the states are
    [0..N-1]), the start state is a state, a transition from a state on a
    symbol of the alphabet leads to a state, and the alphabet is within the
    fixed input alphabet. *)
Definition dfa_well_formed (dfa : Dfa.t) : Prop :=
  decider_accept_state dfa ∉ Dfa.states dfa ∧
  decider_reject_state dfa ∉ Dfa.states dfa ∧
  Dfa.start_state dfa ∈ Dfa.states dfa ∧
  (∀ s c t, s ∈ Dfa.states dfa → c ∈ Dfa.alphabet dfa →
            Dfa.transitions dfa !! (s, c) = Some t → t ∈ Dfa.states dfa) ∧
  Dfa.alphabet dfa ⊆ INPUT_ALPHABET.

(** The verdict of the decider agrees with the DFA on [w]. *)
Definition decider_agrees (dfa : Dfa.t) (w : list string) : Prop :=
  ∃ fuel, ∀ extra, ∃ trace,
    simulate_tm (fuel + extra) (dfa_to_tm_decider dfa) w None
    = Return (if dfa_accepts dfa w then 1 else 0, trace).

(** A one-state DFA over the alphabet [c]. *)
Definition dfa_letter_c : Dfa.t :=
  {| Dfa.states := [0];
     Dfa.alphabet := ["c"];
     Dfa.start_state := 0;
     Dfa.accept_states := [0];
     Dfa.transitions := <[(0, "c") := 0]> ∅ |}.

(** A DFA whose start state is not one of its states. *)
Definition dfa_stray_start : Dfa.t :=
  {| Dfa.states := [0];
     Dfa.alphabet := ["a"; "b"];
     Dfa.start_state := 5;
     Dfa.accept_states := [0];
     Dfa.transitions := <[(5, "a") := 0]> ∅ |}.

(** A DFA with a transition that leaves its states. *)
Definition dfa_stray_target : Dfa.t :=
  {| Dfa.states := [0];
     Dfa.alphabet := ["a"; "b"];
     Dfa.start_state := 0;
     Dfa.accept_states := [0];
     Dfa.transitions := <[(7, "a") := 0]> (<[(0, "a") := 7]> ∅) |}.

(** A machine with an empty transition table. *)
Definition tm_no_rules : Tm.t :=
  {| Tm.num_states := 3;
     Tm.start_state := 0;
     Tm.blank := "_";
     Tm.transitions := ∅;
     Tm.accept_states := [1];
     Tm.reject_states := [2] |}.

(** The two sink states of the decider. *)
Definition decider_sink (dfa : Dfa.t) (q : nat) : Prop :=
  q = decider_accept_state dfa ∨ q = decider_reject_state dfa.

(** What holds of the locals after [k] passes of the decider on
    [input_string]. *)
Definition decider_inv (dfa : Dfa.t) (input_string : list string) (k : nat)
    (c : config) : Prop :=
  tape c = input_string ++ ["_"] ∧
  head c = Z.of_nat k ∧
  steps c = k ∧
  (k ≤ length input_string ∨ decider_sink dfa (state c)).

(** ** Reference semantics of an NFA

    The source has no NFA runner.  [nfa_reach nfa w q] says that the NFA can
    be in state [q] after reading [w] from its start state: it starts in
    the start state, may follow an [eps] entry without reading, and reads
    the next symbol [c] along an entry for [c]. *)

Definition sym_step (nfa : Nfa.t) (c : string) (p q : nat) : Prop :=
  ∃ next_states,
    Nfa.transitions nfa !! (p, c) = Some next_states ∧ q ∈ next_states.

Definition eps_step (nfa : Nfa.t) : relation nat := sym_step nfa "eps".

Inductive nfa_reach (nfa : Nfa.t) : list string → nat → Prop :=
  | reach_start : nfa_reach nfa [] (Nfa.start_state nfa)
  | reach_eps w p q :
      nfa_reach nfa w p → eps_step nfa p q → nfa_reach nfa w q
  | reach_sym w c p q :
      nfa_reach nfa w p → sym_step nfa c p q → nfa_reach nfa (w ++ [c]) q.

Definition nfa_accepts (nfa : Nfa.t) (w : list string) : Prop :=
  ∃ q, nfa_reach nfa w q ∧ q ∈ Nfa.accept_states nfa.

(** ** Statements about the subset construction *)

(** [X] is the epsilon closure of the set [S]. *)
Definition is_closure (nfa : Nfa.t) (S X : gset nat) : Prop :=
  ∀ q, q ∈ X ↔ ∃ p, p ∈ S ∧ rtc (eps_step nfa) p q.

(** [Y] is the set the NFA can be in after reading [c] from a state of [X]. *)
Definition is_successor (nfa : Nfa.t) (X : gset nat) (c : string)
    (Y : gset nat) : Prop :=
  ∀ q, q ∈ Y ↔ ∃ p p', p ∈ X ∧ sym_step nfa c p p' ∧ rtc (eps_step nfa) p' q.

(** Every state a transition of the NFA can lead to. *)
Definition nfa_targets (nfa : Nfa.t) : gset nat :=
  ⋃ (list_to_set <$> (snd <$> map_to_list (Nfa.transitions nfa))).

Definition nfa_universe (nfa : Nfa.t) : gset nat :=
  {[Nfa.start_state nfa]} ∪ nfa_targets nfa.

(** Fuel that is enough for every loop of [nfa_to_dfa]. *)
Definition enough_fuel (nfa : Nfa.t) : nat :=
  3 * size (nfa_universe nfa) + 2 ^ size (nfa_universe nfa) + 1.

(** The measure that decreases along [epsilon_closure_loop]. *)
Definition closure_measure (nfa : Nfa.t) (closure : gset nat)
    (stack : list nat) : nat :=
  length stack + 2 * size (nfa_targets nfa ∖ closure).

(** The invariant of [epsilon_closure_loop] started on [S]. *)
Definition closure_inv (nfa : Nfa.t) (S closure : gset nat)
    (stack : list nat) : Prop :=
  S ⊆ closure ∧
  (∀ q, q ∈ closure → ∃ p, p ∈ S ∧ rtc (eps_step nfa) p q) ∧
  (∀ x, x ∈ stack → x ∈ closure) ∧
  (∀ p, p ∈ closure →
        p ∈ stack ∨ ∀ q, eps_step nfa p q → q ∈ closure).

(** All the subsets of the set of elements of a list. *)
Fixpoint powerlist (xs : list nat) : list (gset nat) :=
  match xs with
  | [] => [∅]
  | x :: xs => powerlist xs ++ ((λ X, {[x]} ∪ X) <$> powerlist xs)
  end.

(** The index table and the list of subsets describe each other, the first
    subset is the closure of the start state, and every subset lies within
    the universe. *)
Definition table_ok (nfa : Nfa.t) (b : build) : Prop :=
  (∃ X0, subsets b !! 0 = Some X0 ∧
         is_closure nfa {[Nfa.start_state nfa]} X0) ∧
  (∀ X i, subset_to_index b !! X = Some i ↔ subsets b !! i = Some X) ∧
  (∀ i X, subsets b !! i = Some X → X ⊆ nfa_universe nfa).

(** The DFA edge recorded for [(i, c)] leads to the successor subset. *)
Definition edge_ok (nfa : Nfa.t) (b : build) (i : nat) (c : string) : Prop :=
  ∃ X j Y,
    subsets b !! i = Some X ∧
    dfa_transitions b !! (i, c) = Some j ∧
    subsets b !! j = Some Y ∧
    is_successor nfa X c Y.

(** The indices marked accepting are the processed ones whose subset holds
    an accept state of the NFA. *)
Definition accept_ok (nfa : Nfa.t) (b : build) (index : nat) : Prop :=
  ∀ i, i ∈ dfa_accept_states b ↔
       i < index ∧
       ∃ X q, subsets b !! i = Some X ∧ q ∈ X ∧ q ∈ Nfa.accept_states nfa.

(** The invariant of the [while] loop of [nfa_to_dfa]. *)
Definition loop_inv (nfa : Nfa.t) (index : nat) (b : build) : Prop :=
  table_ok nfa b ∧
  index ≤ length (subsets b) ∧
  (∀ i c, i < index → c ∈ Nfa.alphabet nfa → edge_ok nfa b i c) ∧
  accept_ok nfa b index.

(** ** Statements about the produced DFA *)

(** Every state has, on every symbol of the alphabet, one target, which is
    a state again. *)
Definition dfa_total (dfa : Dfa.t) : Prop :=
  ∀ s c, s ∈ Dfa.states dfa → c ∈ Dfa.alphabet dfa →
         ∃ t, Dfa.transitions dfa !! (s, c) = Some t ∧ t ∈ Dfa.states dfa.

(** [nfa_to_dfa] validates its input: it raises exactly when the start state
    is not among the states. *)
Definition determinize_validates (nfa : Nfa.t) : Prop :=
  (∃ fuel e, nfa_to_dfa fuel nfa = Raise e) ↔
  (Nfa.start_state nfa ∉ Nfa.states nfa).

(** An NFA whose start state is not one of its states. *)
Definition nfa_stray_start : Nfa.t :=
  {| Nfa.states := [0];
     Nfa.alphabet := ["a"];
     Nfa.start_state := 5;
     Nfa.accept_states := [0];
     Nfa.transitions := <[(0, "a") := [0]]> ∅ |}.

(** An NFA with no transition at all: its DFA has a dead state. *)
Definition nfa_no_moves : Nfa.t :=
  {| Nfa.states := [0];
     Nfa.alphabet := ["a"; "b"];
     Nfa.start_state := 0;
     Nfa.accept_states := [0];
     Nfa.transitions := ∅ |}.

(** The table [nfa_to_dfa] ends with on [nfa_no_moves]. *)
Definition build_no_moves : build :=
  {| subset_to_index := <[∅ := 1]> (<[{[0]} := 0]> ∅);
     subsets := [{[0]}; ∅];
     dfa_transitions :=
       <[(1, "b") := 1]> (<[(1, "a") := 1]>
         (<[(0, "b") := 1]> (<[(0, "a") := 1]> ∅)));
     dfa_accept_states := {[0]} |}.

(** * Definitions for the further properties *)

(** A DFA that declares only the symbol [a] but carries an entry for [b]. *)
Definition dfa_undeclared_b : Dfa.t :=
  {| Dfa.states := [0];
     Dfa.alphabet := ["a"];
     Dfa.start_state := 0;
     Dfa.accept_states := [0];
     Dfa.transitions := <[(0, "b") := 0]> (<[(0, "a") := 0]> ∅) |}.

(** An NFA whose only [eps] entry leaves state 0. *)
Definition nfa_one_eps : Nfa.t :=
  {| Nfa.states := [0; 1; 2];
     Nfa.alphabet := ["a"];
     Nfa.start_state := 0;
     Nfa.accept_states := [2];
     Nfa.transitions := <[(1, "a") := [2]]> (<[(0, "eps") := [1]]> ∅) |}.

(** The subset [symbol_step] computes for [subset] and [symbol]. *)
Definition target_closure (fuel : nat) (nfa : Nfa.t) (subset : gset nat)
    (symbol : string) : outcome (gset nat) :=
  if decide (move_nfa nfa subset symbol ≠ ∅)
  then epsilon_closure fuel nfa (move_nfa nfa subset symbol)
  else Return ∅.

(** The state a transition mapping leads to from [q] on the word [w]. *)
Fixpoint table_run (transitions : gmap (nat * string) nat) (q : nat)
    (w : list string) : option nat :=
  match w with
  | [] => Some q
  | c :: w =>
      match transitions !! (q, c) with
      | Some q' => table_run transitions q' w
      | None => None
      end
  end.

(** What every assignment of [nfa_to_dfa] keeps true of its locals: there
    is a first subset; an index recorded for a subset holds that subset;
    an edge was computed from the subset of its source and leads to the
    index of the computed subset; every index is reached from index 0. *)
Definition build_stable (fuel : nat) (nfa : Nfa.t) (b : build) : Prop :=
  0 < length (subsets b) ∧
  (∀ X j, subset_to_index b !! X = Some j → subsets b !! j = Some X) ∧
  (∀ i c j, dfa_transitions b !! (i, c) = Some j →
     c ∈ Nfa.alphabet nfa ∧
     ∃ X Y, subsets b !! i = Some X ∧
            target_closure fuel nfa X c = Return Y ∧
            subset_to_index b !! Y = Some j) ∧
  (∀ j, j < length (subsets b) →
     ∃ w, Forall (λ c, c ∈ Nfa.alphabet nfa) w ∧
          table_run (dfa_transitions b) 0 w = Some j).

(** * CFG_Recog_Empty_Lang.py

    A grammar is the dictionary of the source: the list of nonterminals,
    the list of terminals, the start symbol and the productions, which map
    a nonterminal to the list of its right sides; a right side is a list
    of symbols. *)

Module Cfg.
Record t := mk {
  nonterminals : list string;
  terminals : list string;
  start_symbol : string;
  productions : gmap string (list (list string))
}.
End Cfg.

Definition EPSILON : string := "eps".

(** The [for sym in right_side] loop: [all_symbols_good] at its end. *)
Fixpoint all_symbols_good (cfg : Cfg.t) (generating : gset string)
    (right_side : list string) : bool :=
  match right_side with
  | [] => true
  | sym :: rest =>
      if decide (sym ∈ Cfg.nonterminals cfg) then
        if decide (sym ∈ generating) then all_symbols_good cfg generating rest
        else false
      else all_symbols_good cfg generating rest
  end.

(** The [for right_side in right_side_list] loop: whether it reaches one of
    its two [generating.add(non_term)]. *)
Fixpoint some_right_side (cfg : Cfg.t) (generating : gset string)
    (right_side_list : list (list string)) : bool :=
  match right_side_list with
  | [] => false
  | right_side :: rest =>
      if bool_decide (length right_side = 1)
         && bool_decide (right_side !! 0 = Some EPSILON)
      then true
      else if all_symbols_good cfg generating right_side then true
      else some_right_side cfg generating rest
  end.

(** The [for non_term in nonterminals] loop, on the rest of the list. *)
Fixpoint sweep (cfg : Cfg.t) (nonterminals : list string)
    (generating : gset string) (changed : bool) : gset string * bool :=
  match nonterminals with
  | [] => (generating, changed)
  | non_term :: rest =>
      if decide (non_term ∈ generating) then sweep cfg rest generating changed
      else
        match Cfg.productions cfg !! non_term with
        | None => sweep cfg rest generating changed
        | Some right_side_list =>
            if some_right_side cfg generating right_side_list
            then sweep cfg rest ({[non_term]} ∪ generating) true
            else sweep cfg rest generating changed
        end
  end.

(** The [while changed] loop, entered with [changed = True]. *)
Fixpoint generating_loop (fuel : nat) (cfg : Cfg.t) (generating : gset string)
    : outcome (gset string) :=
  match fuel with
  | 0 => OutOfFuel
  | S fuel =>
      let '(generating, changed) :=
        sweep cfg (Cfg.nonterminals cfg) generating false in
      if changed then generating_loop fuel cfg generating
      else Return generating
  end.

Definition compute_generating_nonterminals (fuel : nat) (cfg : Cfg.t)
    : outcome (gset string) :=
  generating_loop fuel cfg ∅.

Definition cfg_language_is_empty (fuel : nat) (cfg : Cfg.t) : outcome nat :=
  do generating <- compute_generating_nonterminals fuel cfg;
  if decide (Cfg.start_symbol cfg ∈ generating) then Return 0 else Return 1.

Definition build_example_cfg_empty : Cfg.t :=
  {| Cfg.nonterminals := ["S"; "A"];
     Cfg.terminals := ["a"; "b"];
     Cfg.start_symbol := "S";
     Cfg.productions := <["S" := [["A"]]]> ∅ |}.

Definition build_example_cfg_nonempty : Cfg.t :=
  {| Cfg.nonterminals := ["S"; "A"];
     Cfg.terminals := ["a"; "b"];
     Cfg.start_symbol := "S";
     Cfg.productions :=
       <["A" := [["a"; "A"]; ["a"]]]> (<["S" := [["A"]; [EPSILON]]]> ∅) |}.

(** ** Reference semantics of a grammar

    The source has no derivation engine.  A symbol is a nonterminal when it
    is in the list of nonterminals and a terminal otherwise.
    [derives cfg form w] says that the sentential form [form] derives the
    terminal word [w]: a terminal derives itself, and a nonterminal derives
    what one of its right sides derives, the right side [[EPSILON]]
    deriving the empty word. *)

Inductive derives (cfg : Cfg.t) : list string → list string → Prop :=
  | derives_nil : derives cfg [] []
  | derives_terminal sym rest w :
      sym ∉ Cfg.nonterminals cfg →
      derives cfg rest w →
      derives cfg (sym :: rest) (sym :: w)
  | derives_eps non_term right_side_list rest w :
      non_term ∈ Cfg.nonterminals cfg →
      Cfg.productions cfg !! non_term = Some right_side_list →
      [EPSILON] ∈ right_side_list →
      derives cfg rest w →
      derives cfg (non_term :: rest) w
  | derives_rule non_term right_side_list right_side rest w1 w2 :
      non_term ∈ Cfg.nonterminals cfg →
      Cfg.productions cfg !! non_term = Some right_side_list →
      right_side ∈ right_side_list →
      right_side ≠ [EPSILON] →
      derives cfg right_side w1 →
      derives cfg rest w2 →
      derives cfg (non_term :: rest) (w1 ++ w2).

(** The nonterminals that derive some terminal word. *)
Definition productive (cfg : Cfg.t) (non_term : string) : Prop :=
  non_term ∈ Cfg.nonterminals cfg ∧ ∃ w, derives cfg [non_term] w.

(** The textbook closure: a nonterminal generates when one of its right
    sides is [[EPSILON]] or holds only terminals and generating
    nonterminals. *)
Inductive generates (cfg : Cfg.t) : string → Prop :=
  | generates_eps non_term right_side_list :
      non_term ∈ Cfg.nonterminals cfg →
      Cfg.productions cfg !! non_term = Some right_side_list →
      [EPSILON] ∈ right_side_list →
      generates cfg non_term
  | generates_rule non_term right_side_list right_side :
      non_term ∈ Cfg.nonterminals cfg →
      Cfg.productions cfg !! non_term = Some right_side_list →
      right_side ∈ right_side_list →
      (∀ sym, sym ∈ right_side → sym ∈ Cfg.nonterminals cfg →
              generates cfg sym) →
      generates cfg non_term.

(** * ValidateTM.py

    The machines of type [Machine.t] are the dictionaries of the shape
    [enumerate_tms] yields: [num_states] and [start_state] are ints,
    [blank] is a string, and [transitions] maps a pair (state, symbol) to a
    triple (next state, written symbol, move), where the next state is an
    int or the string [HALT].  The dictionary of transitions is kept as the
    list of its items in insertion order, because
    [make_invalid_missing_transition] removes the first key.

    [validate_tm] itself takes any dictionary.  It is embedded twice: as
    [validate_tm] on [Machine.t], where the four [not in tm] tests and the
    [isinstance] and [len] tests cannot fire and are left out, and as
    [Py.validate_tm] further down, on dictionaries of Python values, with
    every test of the source.  [to_dict] takes a machine to its dictionary,
    and the two embeddings agree on it. *)

Inductive target := Goto (q : Z) | HALT.

Global Instance target_eq_dec : EqDecision target.
Proof. solve_decision. Defined.

Module Machine.
Record t := mk {
  num_states : Z;
  start_state : Z;
  blank : string;
  transitions : list ((Z * string) * (target * string * string))
}.
End Machine.

(** What a call returns: a value, or the [NameError] for an unbound name. *)
Inductive answer (A : Type) :=
  | Returned (a : A)
  | NameError (name : string).
Arguments Returned {A} a.
Arguments NameError {A} name.

(** [list(range(n))]. *)
Definition py_range (n : Z) : list Z := Z.of_nat <$> seq 0 (Z.to_nat n).

(** [d[key] = value] on the list of items of a dictionary. *)
Fixpoint dict_set {K V} `{EqDecision K} (d : list (K * V)) (key : K)
    (value : V) : list (K * V) :=
  match d with
  | [] => [(key, value)]
  | (k, v) :: rest =>
      if decide (k = key) then (k, value) :: rest
      else (k, v) :: dict_set rest key value
  end.

(** [del d[key]]. *)
Definition dict_del {K V} `{EqDecision K} (d : list (K * V)) (key : K)
    : list (K * V) :=
  filter (λ item, item.1 ≠ key) d.

(** [d[key]], where [key in d] has been tested. *)
Fixpoint dict_get {K V} `{EqDecision K} (d : list (K * V)) (key : K)
    : option V :=
  match d with
  | [] => None
  | (k, v) :: rest => if decide (k = key) then Some v else dict_get rest key
  end.

(** [key in d]. *)
Definition dict_has {K V} `{EqDecision K} (d : list (K * V)) (key : K) : bool :=
  bool_decide (key ∈ d.*1).

Definition build_trans_table (states : list Z) : list (Z * string) :=
  s ← states; (λ sym, (s, sym)) <$> TAPE_ALPHABET.

Definition establish_rules (valid_next_states : list target)
    : list (target * string * string) :=
  nxt_st ← valid_next_states;
  tape_char ← TAPE_ALPHABET;
  (λ direction, (nxt_st, tape_char, direction)) <$> MOVES.

(** [itertools.product(pool, repeat=n)], in the order it yields. *)
Fixpoint product {A} (pool : list A) (repeat : nat) : list (list A) :=
  match repeat with
  | 0 => [[]]
  | S n => x ← pool; (λ rest, x :: rest) <$> product pool n
  end.

(** The machines [enumerate_tms] yields during one pass of its
    [while True] loop, in order. *)
Definition machines_with (num_states : Z) : list Machine.t :=
  let states := py_range num_states in
  let valid_next_states := (Goto <$> states) ++ [HALT] in
  let trans_table := build_trans_table states in
  let rules := establish_rules valid_next_states in
  (λ combo,
     let transitions :=
       foldl (λ transitions '(pos, rule), dict_set transitions pos rule)
             [] (zip trans_table combo) in
     {| Machine.num_states := num_states;
        Machine.start_state := 0;
        Machine.blank := "_";
        Machine.transitions := transitions |})
  <$> product rules (length trans_table).

(** The machines [enumerate_tms] yields during the first [passes] passes of
    its [while True] loop: those with 1 state, then those with 2, ... *)
Definition enumerate_tms (passes : nat) : list Machine.t :=
  i ← seq 1 passes; machines_with (Z.of_nat i).

(** The first [for key in transitions] loop: [false] when it returns 0. *)
Fixpoint keys_valid (states : list Z) (keys : list (Z * string)) : bool :=
  match keys with
  | [] => true
  | (state, sym) :: rest =>
      if decide (state ∉ states) then false
      else if decide (sym ∉ TAPE_ALPHABET) then false
      else keys_valid states rest
  end.

(** The [for s in states: for sym in TAPE_ALPHABET] loop: [false] when it
    returns 0. *)
Definition pairs_present (states : list Z)
    (transitions : list ((Z * string) * (target * string * string))) : bool :=
  forallb (λ s, forallb (λ sym, dict_has transitions (s, sym)) TAPE_ALPHABET)
          states.

(** [validate_tm] on a machine of type [Machine.t].  The tests of the
    source that the types decide are left out: the four [not in tm] tests,
    [isinstance(num_states, int)], [isinstance(transitions, dict)],
    [isinstance(key, tuple)] and [len(key) != 2] in the first loop, and
    [isinstance(value, tuple)] and [len(value) != 3] in the last one.  Each
    of them returns 0 in the source; [Py.validate_tm] has them all. *)
Definition validate_tm (tm : Machine.t) : answer nat :=
  let num_states := Machine.num_states tm in
  let start_state := Machine.start_state tm in
  let blank := Machine.blank tm in
  let transitions := Machine.transitions tm in
  if decide (num_states ≤ 0)%Z then Returned 0 else
  let states := py_range num_states in
  if decide (start_state ∉ states) then Returned 0 else
  if decide (blank ∉ TAPE_ALPHABET) then Returned 0 else
  if negb (keys_valid states transitions.*1) then Returned 0 else
  if negb (pairs_present states transitions) then Returned 0 else
  (* for key in transitions: the first pass reaches the unbound [vaue] *)
  match transitions with
  | [] => Returned 1
  | (key, value) :: _ => NameError "vaue"
  end.

Definition make_invalid_missing_transition (tm : Machine.t) : Machine.t :=
  let invalid_transitions := Machine.transitions tm in
  let keys := invalid_transitions.*1 in
  let invalid_transitions :=
    match keys with
    | first_key :: _ => dict_del invalid_transitions first_key
    | [] => invalid_transitions
    end in
  {| Machine.num_states := Machine.num_states tm;
     Machine.start_state := Machine.start_state tm;
     Machine.blank := Machine.blank tm;
     Machine.transitions := invalid_transitions |}.

Definition make_invalid_blank_symbol (tm : Machine.t) : Machine.t :=
  {| Machine.num_states := Machine.num_states tm;
     Machine.start_state := Machine.start_state tm;
     Machine.blank := "x";
     Machine.transitions := Machine.transitions tm |}.

(** The tests of [validate_tm] that come before its last loop. *)
Definition passes_checks (tm : Machine.t) : Prop :=
  (0 < Machine.num_states tm)%Z ∧
  (0 ≤ Machine.start_state tm < Machine.num_states tm)%Z ∧
  Machine.blank tm ∈ TAPE_ALPHABET ∧
  (∀ state sym, (state, sym) ∈ (Machine.transitions tm).*1 ↔
     (0 ≤ state < Machine.num_states tm)%Z ∧ sym ∈ TAPE_ALPHABET).

(** The first machine [enumerate_tms] yields. *)
Definition machine_example : Machine.t :=
  {| Machine.num_states := 1;
     Machine.start_state := 0;
     Machine.blank := "_";
     Machine.transitions :=
       [(0%Z, "a", (Goto 0, "a", "L"));
        (0%Z, "b", (Goto 0, "a", "L"));
        (0%Z, "_", (Goto 0, "a", "L"))] |}.

(** ** validate_tm on dictionaries of Python values

    The values are ints, strings, [None], tuples and lists of these, and
    dictionaries from such keys to such values.  (Lists cannot be keys of a
    Python dictionary; a list key only makes [validate_tm] return 0 here.)
    Bools and floats, which [==] and [in] identify with ints, are not among
    the values. *)

Module Py.

Inductive scalar :=
  | Int (z : Z)
  | Str (s : string)
  | NoneVal.

Inductive flat :=
  | Scalar (x : scalar)
  | Tuple (items : list scalar)
  | List (items : list scalar).

Inductive object :=
  | Flat (v : flat)
  | Dict (items : list (flat * flat)).

Global Instance scalar_eq_dec : EqDecision scalar.
Proof. solve_decision. Defined.

Global Instance flat_eq_dec : EqDecision flat.
Proof. solve_decision. Defined.

(** [x in states], for a list of ints. *)
Definition in_ints (x : scalar) (states : list Z) : bool :=
  match x with
  | Int z => bool_decide (z ∈ states)
  | _ => false
  end.

(** [x in alphabet], for a list of strings. *)
Definition in_strs (x : scalar) (alphabet : list string) : bool :=
  match x with
  | Str s => bool_decide (s ∈ alphabet)
  | _ => false
  end.

(** The same two tests on a value of any kind. *)
Definition object_in_ints (x : object) (states : list Z) : bool :=
  match x with
  | Flat (Scalar x) => in_ints x states
  | _ => false
  end.

Definition object_in_strs (x : object) (alphabet : list string) : bool :=
  match x with
  | Flat (Scalar x) => in_strs x alphabet
  | _ => false
  end.

(** The first [for key in transitions] loop: [false] when it returns 0. *)
Fixpoint keys_valid (states : list Z) (keys : list flat) : bool :=
  match keys with
  | [] => true
  | key :: rest =>
      match key with
      | Tuple [state; sym] =>
          if negb (in_ints state states) then false
          else if negb (in_strs sym TAPE_ALPHABET) then false
          else keys_valid states rest
      | _ => false (* not a tuple, or not of length 2 *)
      end
  end.

(** The [for s in states: for sym in TAPE_ALPHABET] loop: [false] when it
    returns 0. *)
Definition pairs_present (states : list Z) (transitions : list (flat * flat))
    : bool :=
  forallb (λ s, forallb (λ sym, dict_has transitions (Tuple [Int s; Str sym]))
                        TAPE_ALPHABET)
          states.

(** The last [for key in transitions] loop.  Its first pass ends the call:
    it returns 0 when the value of the first key is not a tuple of length
    3, and else it reaches the unbound name [vaue]. *)
Definition values_valid (transitions : list (flat * flat)) : answer nat :=
  match transitions with
  | [] => Returned 1
  | (key, value) :: _ =>
      match value with
      | Tuple value =>
          if decide (length value ≠ 3) then Returned 0
          else NameError "vaue"
      | _ => Returned 0 (* not isinstance(value, tuple) *)
      end
  end.

Definition validate_tm (tm : list (string * object)) : answer nat :=
  if negb (dict_has tm "num_states") then Returned 0 else
  if negb (dict_has tm "start_state") then Returned 0 else
  if negb (dict_has tm "blank") then Returned 0 else
  if negb (dict_has tm "transitions") then Returned 0 else
  match dict_get tm "num_states", dict_get tm "start_state",
        dict_get tm "blank", dict_get tm "transitions" with
  | Some num_states, Some start_state, Some blank, Some transitions =>
      match num_states with
      | Flat (Scalar (Int num_states)) =>
          if decide (num_states ≤ 0)%Z then Returned 0 else
          let states := py_range num_states in
          if negb (object_in_ints start_state states) then Returned 0 else
          if negb (object_in_strs blank TAPE_ALPHABET) then Returned 0 else
          match transitions with
          | Dict transitions =>
              if negb (keys_valid states transitions.*1) then Returned 0 else
              if negb (pairs_present states transitions) then Returned 0 else
              values_valid transitions
          | _ => Returned 0 (* not isinstance(transitions, dict) *)
          end
      | _ => Returned 0 (* not isinstance(num_states, int) *)
      end
  | _, _, _, _ => Returned 0 (* not reached: the four keys are in tm *)
  end.

(** The dictionaries that get to the unbound name: the four entries are
    there, [num_states] is a positive int, [start_state] an int below it,
    [blank] a string of the tape alphabet, [transitions] a dictionary whose
    keys are exactly the pairs of a state and a tape symbol, and the value
    of its first key is a tuple of length 3. *)
Definition passes_checks (tm : list (string * object)) : Prop :=
  ∃ num_states start_state blank transitions,
    dict_get tm "num_states" = Some (Flat (Scalar (Int num_states))) ∧
    dict_get tm "start_state" = Some (Flat (Scalar (Int start_state))) ∧
    dict_get tm "blank" = Some (Flat (Scalar (Str blank))) ∧
    dict_get tm "transitions" = Some (Dict transitions) ∧
    (0 < num_states)%Z ∧
    (0 ≤ start_state < num_states)%Z ∧
    blank ∈ TAPE_ALPHABET ∧
    (∀ key, key ∈ transitions.*1 ↔
       ∃ state sym, key = Tuple [Int state; Str sym] ∧
                    (0 ≤ state < num_states)%Z ∧ sym ∈ TAPE_ALPHABET) ∧
    (∃ key nxt_st tape_char direction rest,
       transitions = (key, Tuple [nxt_st; tape_char; direction]) :: rest).

Definition target_value (nxt_st : target) : scalar :=
  match nxt_st with
  | Goto q => Int q
  | HALT => Str "HALT"
  end.

Definition key_value (key : Z * string) : flat :=
  Tuple [Int key.1; Str key.2].

Definition rule_value (rule : target * string * string) : flat :=
  let '(nxt_st, tape_char, direction) := rule in
  Tuple [target_value nxt_st; Str tape_char; Str direction].

(** The dictionary [enumerate_tms] builds for a machine. *)
Definition to_dict (tm : Machine.t) : list (string * object) :=
  [("num_states", Flat (Scalar (Int (Machine.num_states tm))));
   ("start_state", Flat (Scalar (Int (Machine.start_state tm))));
   ("blank", Flat (Scalar (Str (Machine.blank tm))));
   ("transitions",
    Dict (prod_map key_value rule_value <$> Machine.transitions tm))].

(** The first machine of [enumerate_tms] with the rule of its first key cut
    down to a pair, and with a list in its place. *)
Definition machine_pair_rule : list (string * object) :=
  [("num_states", Flat (Scalar (Int 1)));
   ("start_state", Flat (Scalar (Int 0)));
   ("blank", Flat (Scalar (Str "_")));
   ("transitions",
    Dict [(Tuple [Int 0; Str "a"], Tuple [Int 0; Str "a"]);
          (Tuple [Int 0; Str "b"], Tuple [Int 0; Str "a"; Str "L"]);
          (Tuple [Int 0; Str "_"], Tuple [Int 0; Str "a"; Str "L"])])].

Definition machine_list_rule : list (string * object) :=
  [("num_states", Flat (Scalar (Int 1)));
   ("start_state", Flat (Scalar (Int 0)));
   ("blank", Flat (Scalar (Str "_")));
   ("transitions",
    Dict [(Tuple [Int 0; Str "a"], List [Int 0; Str "a"; Str "L"]);
          (Tuple [Int 0; Str "b"], Tuple [Int 0; Str "a"; Str "L"]);
          (Tuple [Int 0; Str "_"], Tuple [Int 0; Str "a"; Str "L"])])].

End Py.

(** * Properties *)

(** ** The transition table of the decider *)

Section decider_table.
Variable dfa : Dfa.t.

Lemma decider_row_lookup tr x s c :
  decider_row dfa tr x !! (s, c) =
    if decide (s = x ∧ (c = "_" ∨ c ∈ INPUT_ALPHABET))
    then decider_entry dfa [x] s c
    else tr !! (s, c).
Proof.
  unfold decider_row, decider_entry, INPUT_ALPHABET. simpl.
  rewrite !lookup_insert.
  repeat destruct (decide _); simplify_eq; try done;
    set_solver.
Qed.

Lemma decider_rows_lookup known s c :
  foldl (decider_row dfa) ∅ known !! (s, c) = decider_entry dfa known s c.
Proof.
  induction known as [|x known IH] using rev_ind.
  - simpl. unfold decider_entry. rewrite lookup_empty.
    case_decide; [set_solver | done].
  - rewrite foldl_snoc, decider_row_lookup, IH.
    unfold decider_entry.
    repeat destruct (decide _); simplify_eq; try done; set_solver.
Qed.

Lemma decider_lookup s c :
  Tm.transitions (dfa_to_tm_decider dfa) !! (s, c) =
    decider_entry dfa (Dfa.states dfa) s c.
Proof. apply decider_rows_lookup. Qed.

(** Every entry writes back the symbol it read and moves right. *)
Lemma decider_entry_shape s c n w d :
  Tm.transitions (dfa_to_tm_decider dfa) !! (s, c) = Some (n, w, d) →
  w = c ∧ d = "R" ∧ s ∈ Dfa.states dfa ∧
  (c = "_" → n = decider_accept_state dfa ∨ n = decider_reject_state dfa).
Proof.
  rewrite decider_lookup. unfold decider_entry, decider_next_blank.
  repeat destruct (decide _); intros; simplify_eq; split_and!; auto; done.
Qed.
End decider_table.

(** ** Shape of the decider (C4, C6) *)

(** C4: for every DFA whose states are the indices [0..N-1], the table of
    the decider is total on those indices and the input alphabet with the
    blank, a pair for which the DFA has no transition is routed to the
    reject state, and the accept and reject states have no entry.  This
    holds whatever the alphabet of the DFA is. *)
Theorem decider_table_total_indexed (dfa : Dfa.t) :
  (∀ s, s ∈ Dfa.states dfa ↔ s < length (Dfa.states dfa)) →
  decider_table_total dfa.
Proof.
  intros Hidx. unfold decider_table_total. simpl. split_and!.
  - intros s c Hs Hc. rewrite decider_rows_lookup. unfold decider_entry.
    apply Hidx in Hs. rewrite decide_True by done.
    destruct (decide (c = "_")); [eauto |].
    rewrite decide_True; [eauto |]. set_solver.
  - intros s c Hs Hc Hnone. rewrite decider_rows_lookup. unfold decider_entry.
    apply Hidx in Hs. rewrite decide_True by done.
    rewrite decide_False by (intros ->; vm_compute in Hc; set_solver).
    rewrite decide_True by done.
    unfold decider_next. rewrite Hnone. by destruct (decide _).
  - intros q c Hq. rewrite decider_rows_lookup. unfold decider_entry.
    rewrite decide_False; [done |].
    rewrite Hidx. unfold decider_accept_state, decider_reject_state in Hq.
    set_solver by lia.
Qed.

Lemma decider_table_total_indexed_witness :
  (∀ s, s ∈ Dfa.states dfa_example ↔ s < length (Dfa.states dfa_example)) ∧
  decider_table_total dfa_example.
Proof.
  assert (H : ∀ s, s ∈ Dfa.states dfa_example ↔ s < length (Dfa.states dfa_example)).
  { intros s. simpl. rewrite !elem_of_cons, elem_of_nil. lia. }
  split; [exact H | exact (decider_table_total_indexed dfa_example H)].
Defined.

(** The table is laid out for states numbered from 0: the rows are those of
    the states of the DFA as given, and the two added states are numbered
    from the count of the states.  In [dfa_from_one], whose states are 1
    and 2, index 0 has no row and the accept state 2 has one. *)
Lemma decider_table_from_one :
  Tm.transitions (dfa_to_tm_decider dfa_from_one) !! (0, "a") = None ∧
  Tm.accept_states (dfa_to_tm_decider dfa_from_one) = [2] ∧
  Tm.transitions (dfa_to_tm_decider dfa_from_one) !! (2, "a")
    = Some (2, "a", "R").
Proof. split_and!; by vm_compute. Qed.

(** C6, as stated, fails: the decider of the three-state example has
    [num_states = 5]. *)
Lemma num_states_counterexample : ¬ num_states_counts_inherited dfa_example.
Proof. intros [H _]. vm_compute in H. discriminate. Qed.

(** C6, amended: [num_states] is the number of DFA states plus two; it
    counts the inherited states [0..N-1] and the two sinks, which are the
    accept state [num_states - 2] and the reject state [num_states - 1]. *)
Theorem num_states_counts_sinks (dfa : Dfa.t) :
  let tm := dfa_to_tm_decider dfa in
  Tm.num_states tm = length (Dfa.states dfa) + 2 ∧
  Tm.accept_states tm = [Tm.num_states tm - 2] ∧
  Tm.reject_states tm = [Tm.num_states tm - 1].
Proof.
  simpl. rewrite length_seq.
  unfold decider_accept_state, decider_reject_state.
  split_and!; [done | f_equal; lia | f_equal; lia].
Qed.

(** ** One pass of the simulation loop *)

Lemma simulate_body_accept tm ms c :
  state c ∈ Tm.accept_states tm →
  simulate_body tm ms c = Return (Halt (1, recorded c)).
Proof. intros H. unfold simulate_body. by rewrite decide_True. Qed.

Lemma simulate_body_reject tm ms c :
  state c ∉ Tm.accept_states tm →
  state c ∈ Tm.reject_states tm →
  simulate_body tm ms c = Return (Halt (0, recorded c)).
Proof.
  intros H1 H2. unfold simulate_body.
  by rewrite decide_False, decide_True.
Qed.

Lemma simulate_body_running tm ms c :
  running tm ms c →
  simulate_body tm ms c =
    match current_symbol tm c with
    | None => Raise IndexError
    | Some symbol =>
        match Tm.transitions tm !! (state c, symbol) with
        | None => Return (Halt (0, recorded c))
        | Some rule => Return (Continue (apply_transition tm c rule))
        end
    end.
Proof.
  intros (Hacc & Hrej & Hms).
  unfold simulate_body, current_symbol, apply_transition, recorded.
  rewrite decide_False by done. rewrite decide_False by done.
  assert (match ms with
          | Some m => bool_decide (m ≤ Z.of_nat (steps c))%Z
          | None => false
          end = false) as ->.
  { destruct ms; [|done]. apply bool_decide_eq_false. lia. }
  destruct (extend_tape tm c) as [t h]. unfold item. simpl.
  destruct (t !! Z.to_nat h) as [sym|]; [|done]. simpl.
  destruct (Tm.transitions tm !! (state c, sym)) as [[[n w] d]|]; done.
Qed.

Lemma simulate_body_cases tm ms c :
  running tm ms c ∨ ∃ v, simulate_body tm ms c = Return (Halt (v, recorded c)).
Proof.
  destruct (decide (state c ∈ Tm.accept_states tm)) as [Ha|Ha].
  { right. eauto using simulate_body_accept. }
  destruct (decide (state c ∈ Tm.reject_states tm)) as [Hr|Hr].
  { right. eauto using simulate_body_reject. }
  destruct ms as [m|].
  - destruct (decide (m ≤ Z.of_nat (steps c))%Z) as [Hm|Hm].
    + right. exists 0. unfold simulate_body, recorded.
      rewrite decide_False by done. rewrite decide_False by done.
      by rewrite bool_decide_eq_true_2.
    + left. split_and!; [done..|]. lia.
  - left. by split_and!.
Qed.

(** The read of a pass succeeds whenever the head is in reach. *)
Lemma current_symbol_is_Some tm c :
  head_in_reach c → is_Some (current_symbol tm c).
Proof.
  unfold head_in_reach, current_symbol, extend_tape. intros H.
  repeat destruct (decide _); try (simpl in *; lia);
    apply lookup_lt_is_Some; simpl; rewrite ?length_app; simpl; lia.
Qed.

Lemma apply_transition_in_reach tm c rule :
  head_in_reach c → head_in_reach (apply_transition tm c rule).
Proof.
  unfold head_in_reach, apply_transition, extend_tape. intros H.
  destruct rule as [[n w] d].
  repeat destruct (decide _); simpl in *;
    rewrite ?length_insert, ?length_app; simpl; lia.
Qed.

Lemma simulate_body_in_reach tm ms c c' :
  head_in_reach c →
  simulate_body tm ms c = Return (Continue c') →
  head_in_reach c'.
Proof.
  intros Hc Hbody.
  destruct (simulate_body_cases tm ms c) as [Hrun|[v Hv]]; [|congruence].
  rewrite simulate_body_running in Hbody by done.
  destruct (current_symbol tm c); [|done].
  destruct (Tm.transitions tm !! _); simplify_eq.
  by apply apply_transition_in_reach.
Qed.

Lemma simulate_body_never_raises tm ms c e :
  head_in_reach c → simulate_body tm ms c ≠ Raise e.
Proof.
  intros Hc Hbody.
  destruct (simulate_body_cases tm ms c) as [Hrun|[v Hv]]; [|congruence].
  rewrite simulate_body_running in Hbody by done.
  destruct (current_symbol_is_Some tm c Hc) as [sym Hsym].
  rewrite Hsym in Hbody.
  by destruct (Tm.transitions tm !! _).
Qed.

(** ** Several passes *)

Lemma passes_snoc k tm ms c c'' :
  passes (S k) tm ms c = Some c'' ↔
  ∃ c', passes k tm ms c = Some c' ∧
        simulate_body tm ms c' = Return (Continue c'').
Proof.
  revert c. induction k as [|k IH]; intros c.
  - simpl. split.
    + destruct (simulate_body tm ms c) as [[c0|]| |] eqn:E; try done.
      intros [= ->]. eauto.
    + intros (c' & [= <-] & ->). done.
  - change (passes (S (S k)) tm ms c) with
      (match simulate_body tm ms c with
       | Return (Continue c') => passes (S k) tm ms c'
       | _ => None
       end).
    change (passes (S k) tm ms c) with
      (match simulate_body tm ms c with
       | Return (Continue c') => passes k tm ms c'
       | _ => None
       end).
    destruct (simulate_body tm ms c) as [[c0|]| |]; try apply IH;
      split; try done; by intros (? & ? & ?).
Qed.

Lemma simulate_loop_passes k fuel tm ms c c' :
  passes k tm ms c = Some c' →
  simulate_loop (k + fuel) tm ms c = simulate_loop fuel tm ms c'.
Proof.
  revert c. induction k as [|k IH]; intros c; simpl.
  - by intros [= ->].
  - destruct (simulate_body tm ms c) as [[c0|]| |]; try done. simpl. apply IH.
Qed.

Lemma initial_config_in_reach tm input_string :
  head_in_reach (initial_config tm input_string).
Proof. unfold head_in_reach. simpl. lia. Qed.

Lemma passes_in_reach k tm ms c c' :
  head_in_reach c → passes k tm ms c = Some c' → head_in_reach c'.
Proof.
  revert c'. induction k as [|k IH]; intros c' Hc.
  - simpl. by intros [= <-].
  - rewrite passes_snoc. intros (c1 & Hk & Hbody).
    eapply simulate_body_in_reach; [|exact Hbody]. by apply IH.
Qed.

(** The simulator never lets a subscript escape: no run raises. *)
Lemma simulate_loop_never_raises fuel tm ms c e :
  head_in_reach c → simulate_loop fuel tm ms c ≠ Raise e.
Proof.
  revert c. induction fuel as [|fuel IH]; intros c Hc; [done|]. simpl.
  destruct (simulate_body tm ms c) as [[c'|r]|e'|] eqn:E; simpl; try done.
  - apply IH. eapply simulate_body_in_reach; eauto.
  - by apply simulate_body_never_raises in E.
Qed.

(** ** Lookup gaps (C9) *)

(** C9: when, after [k] passes of [simulate_tm], the machine is still
    running and the pair (current state, symbol under the head) has no entry
    in the transition mapping, [simulate_tm] returns the reject verdict 0
    together with the configurations recorded so far, the current one
    included; it does not raise. *)
Theorem simulate_tm_missing_transition (tm : Tm.t) (input_string : list string)
    (max_steps : option Z) (k fuel : nat) (c : config) :
  passes k tm max_steps (initial_config tm input_string) = Some c →
  running tm max_steps c →
  (∀ symbol, current_symbol tm c = Some symbol →
             Tm.transitions tm !! (state c, symbol) = None) →
  k < fuel →
  simulate_tm fuel tm input_string max_steps
  = Return (0, configurations c ++
               [format_configuration (state c) (tape c) (head c)]).
Proof.
  intros Hk Hrun Hgap Hfuel. unfold simulate_tm.
  replace fuel with (k + S (fuel - S k)) by lia.
  rewrite (simulate_loop_passes _ _ _ _ _ _ Hk). simpl.
  rewrite simulate_body_running by done.
  assert (Hreach : head_in_reach c).
  { eapply passes_in_reach; eauto using initial_config_in_reach. }
  destruct (current_symbol_is_Some tm c Hreach) as [sym Hsym].
  rewrite Hsym, (Hgap _ Hsym). done.
Qed.

Lemma simulate_tm_missing_transition_witness :
  simulate_tm 1 tm_no_rules ["a"] None
  = Return (0, ["state=0, tape=a_, head pos=0"]).
Proof.
  apply (simulate_tm_missing_transition tm_no_rules ["a"] None 0 1
           (initial_config tm_no_rules ["a"])).
  - reflexivity.
  - unfold running. simpl. split_and!; [set_solver | set_solver | done].
  - intros symbol _. apply lookup_empty.
  - lia.
Defined.

(** ** Fuel *)

Lemma simulate_loop_S fuel tm ms c :
  simulate_loop (S fuel) tm ms c =
    do it <- simulate_body tm ms c;
    match it with
    | Halt result => Return result
    | Continue c' => simulate_loop fuel tm ms c'
    end.
Proof. done. Qed.

Lemma simulate_loop_mono fuel extra tm ms c r :
  simulate_loop fuel tm ms c = Return r →
  simulate_loop (fuel + extra) tm ms c = Return r.
Proof.
  revert c. induction fuel as [|fuel IH]; intros c; [done|]. simpl.
  destruct (simulate_body tm ms c) as [[c'|r']| |]; simpl; try done.
  apply IH.
Qed.

Lemma simulate_loop_verdict fuel tm ms c v trace :
  simulate_loop fuel tm ms c = Return (v, trace) → v = 1 ∨ v = 0.
Proof.
  revert c. induction fuel as [|fuel IH]; intros c; [done|]. simpl.
  destruct (simulate_body tm ms c) as [[c'|r']| |] eqn:E; simpl; try done.
  - apply IH.
  - intros [= ->]. unfold simulate_body in E.
    repeat (destruct (decide _) in E || destruct ms in E
            || destruct (bool_decide _) in E); simplify_eq; auto;
    destruct (extend_tape tm c) as [t h]; unfold item in E;
    destruct (t !! Z.to_nat h); simpl in E; try done;
    destruct (Tm.transitions tm !! _) as [[[? ?] ?]|]; simplify_eq; auto.
Qed.

(** ** The decider at work *)

Section decider_run.
Variable dfa : Dfa.t.
Variable input_string : list string.
Local Notation tm := (dfa_to_tm_decider dfa).

Lemma decider_sink_halts q :
  decider_sink dfa q → q ∈ Tm.accept_states tm ∨ q ∈ Tm.reject_states tm.
Proof. intros [-> | ->]; [left | right]; simpl; set_solver. Qed.

(** A pass of the decider that reads cell [k] of the untouched tape. *)
Lemma decider_body_read ms c k :
  tape c = input_string ++ ["_"] →
  head c = Z.of_nat k →
  k ≤ length input_string →
  running tm ms c →
  ∃ symbol,
    (input_string ++ ["_"]) !! k = Some symbol ∧
    simulate_body tm ms c =
      match decider_entry dfa (Dfa.states dfa) (state c) symbol with
      | None => Return (Halt (0, recorded c))
      | Some (nxt_st, _, _) =>
          Return (Continue {| state := nxt_st;
                              tape := tape c;
                              head := Z.of_nat (S k);
                              steps := steps c + 1;
                              configurations := recorded c |})
      end.
Proof.
  intros Htape Hhead Hk Hrun.
  destruct (lookup_lt_is_Some_2 (input_string ++ ["_"]) k) as [sym Hsym].
  { rewrite length_app. simpl. lia. }
  exists sym. split; [done|].
  rewrite simulate_body_running by done.
  assert (Hext : extend_tape tm c = (tape c, head c)).
  { unfold extend_tape. rewrite decide_False by lia.
    rewrite decide_False; [done|]. rewrite Htape, length_app. simpl. lia. }
  unfold current_symbol, apply_transition. rewrite Hext.
  rewrite Hhead, Nat2Z.id, Htape, Hsym.
  rewrite decider_lookup.
  destruct (decider_entry dfa (Dfa.states dfa) (state c) sym)
    as [[[n w] d]|] eqn:E; [|done].
  assert (w = sym ∧ d = "R") as [-> ->].
  { unfold decider_entry in E.
    repeat destruct (decide _) in E; by simplify_eq. }
  rewrite decide_True by done.
  rewrite list_insert_id by done.
  do 3 f_equal. lia.
Qed.

Lemma decider_inv_initial :
  decider_inv dfa input_string 0 (initial_config tm input_string).
Proof. unfold decider_inv. simpl. split_and!; auto with lia. Qed.

Lemma decider_inv_running ms k c :
  decider_inv dfa input_string k c → running tm ms c →
  k ≤ length input_string.
Proof.
  intros (_ & _ & _ & [Hk | Hsink]) (Ha & Hr & _); [done|].
  apply decider_sink_halts in Hsink as [? | ?]; done.
Qed.

Lemma decider_inv_step ms k c c' :
  decider_inv dfa input_string k c →
  simulate_body tm ms c = Return (Continue c') →
  decider_inv dfa input_string (S k) c'.
Proof.
  intros Hinv Hbody.
  destruct (simulate_body_cases tm ms c) as [Hrun|[v Hv]]; [|congruence].
  pose proof (decider_inv_running _ _ _ Hinv Hrun) as Hk.
  destruct Hinv as (Htape & Hhead & Hsteps & _).
  destruct (decider_body_read ms c k Htape Hhead Hk Hrun)
    as (sym & Hsym & Heq).
  rewrite Heq in Hbody.
  destruct (decider_entry dfa (Dfa.states dfa) (state c) sym)
    as [[[n w] d]|] eqn:E; [|done].
  injection Hbody as <-.
  unfold decider_inv. simpl. split_and!; [done | done | lia |].
  destruct (decide (k < length input_string)) as [Hlt|Hge]; [left; lia|].
  right.
  assert (k = length input_string) as -> by lia.
  rewrite lookup_app_r, Nat.sub_diag in Hsym by lia. simplify_eq/=.
  unfold decider_entry, decider_next_blank in E.
  repeat destruct (decide _) in E; simplify_eq; (by left) || (by right).
Qed.

Lemma decider_inv_passes ms k c :
  passes k tm ms (initial_config tm input_string) = Some c →
  decider_inv dfa input_string k c.
Proof.
  revert c. induction k as [|k IH]; intros c.
  - simpl. intros [= <-]. apply decider_inv_initial.
  - rewrite passes_snoc. intros (c1 & Hk & Hbody).
    eapply decider_inv_step; [|exact Hbody]. by apply IH.
Qed.

(** From a configuration [m] cells before the end, [m + 1] passes suffice. *)
Lemma decider_halts_within m : ∀ k c extra,
  decider_inv dfa input_string k c →
  k + m = length input_string + 1 →
  ∃ r, simulate_loop (S m + extra) tm None c = Return r.
Proof.
  induction m as [|m IH]; intros k c extra Hinv Hm.
  - destruct (simulate_body_cases tm None c) as [Hrun|[v Hv]].
    + pose proof (decider_inv_running _ _ _ Hinv Hrun). lia.
    + simpl. rewrite Hv. simpl. eauto.
  - change (simulate_loop (S (S m) + extra) tm None c) with
      (do it <- simulate_body tm None c;
       match it with
       | Halt result => Return result
       | Continue c' => simulate_loop (S m + extra) tm None c'
       end).
    destruct (simulate_body_cases tm None c) as [Hrun|[v Hv]].
    + pose proof (decider_inv_running _ _ _ Hinv Hrun) as Hk.
      pose proof Hinv as (Htape & Hhead & _).
      destruct (decider_body_read None c k Htape Hhead Hk Hrun)
        as (sym & Hsym & Heq).
      destruct (decider_entry dfa (Dfa.states dfa) (state c) sym)
        as [[[n w] d]|] eqn:E.
      * pose proof (decider_inv_step _ _ _ _ Hinv Heq) as Hinv'.
        rewrite Heq. simpl. apply (IH (S k)); [done | lia].
      * rewrite Heq. simpl. eauto.
    + rewrite Hv. simpl. eauto.
Qed.
End decider_run.

(** ** Termination of the decider (C3) *)

(** C3: for every DFA and every input string, [simulate_tm] on the decider
    built from the DFA, with no step budget, returns a verdict (1 or 0)
    within [len(input) + 2] passes of its loop. *)
Theorem decider_always_halts (dfa : Dfa.t) (input_string : list string)
    (extra : nat) :
  ∃ verdict trace,
    simulate_tm (length input_string + 2 + extra) (dfa_to_tm_decider dfa)
                input_string None
    = Return (verdict, trace) ∧ (verdict = 1 ∨ verdict = 0).
Proof.
  destruct (decider_halts_within dfa input_string (length input_string + 1) 0
              (initial_config (dfa_to_tm_decider dfa) input_string) extra)
    as [[v trace] Hr].
  - apply decider_inv_initial.
  - lia.
  - exists v, trace. unfold simulate_tm.
    replace (length input_string + 2 + extra)
      with (S (length input_string + 1) + extra) by lia.
    split; [done|]. eapply simulate_loop_verdict, Hr.
Qed.

(** ** The head of the decider (C10) *)

(** C10: after [k] passes of [simulate_tm] on a decider built by
    [dfa_to_tm_decider], the head is at cell [k], so it has moved right at
    every step and is never negative, and the tape is still the input
    followed by one blank: nothing was inserted at its left end. *)
Theorem decider_head_only_moves_right (dfa : Dfa.t) (input_string : list string)
    (max_steps : option Z) (k : nat) (c : config) :
  passes k (dfa_to_tm_decider dfa) max_steps
         (initial_config (dfa_to_tm_decider dfa) input_string) = Some c →
  head c = Z.of_nat k ∧ (0 ≤ head c)%Z ∧
  steps c = k ∧
  tape c = input_string ++ [Tm.blank (dfa_to_tm_decider dfa)].
Proof.
  intros Hk. apply decider_inv_passes in Hk as (Htape & Hhead & Hsteps & _).
  split_and!; [done | lia | done | done].
Qed.

Lemma decider_head_only_moves_right_witness :
  let c := {| state := 1; tape := ["a"; "a"; "b"; "_"]; head := 2; steps := 2;
              configurations := ["state=0, tape=aab_, head pos=0";
                                 "state=1, tape=aab_, head pos=1"] |} in
  head c = 2%Z ∧ (0 ≤ head c)%Z ∧ steps c = 2 ∧ tape c = ["a"; "a"; "b"; "_"].
Proof.
  intros c.
  apply (decider_head_only_moves_right dfa_example ["a"; "a"; "b"] None 2 c).
  vm_compute. reflexivity.
Defined.

(** ** Fidelity of the decider (C1) *)

Section decider_fidelity.
Variable dfa : Dfa.t.
Hypothesis Hwf : dfa_well_formed dfa.
Local Notation tm := (dfa_to_tm_decider dfa).

Lemma dfa_state_running q st t h confs :
  q ∈ Dfa.states dfa →
  running tm None {| state := q; tape := t; head := h; steps := st;
                     configurations := confs |}.
Proof.
  intros Hq. destruct Hwf as (Hacc & Hrej & _).
  unfold running. simpl.
  split_and!; [| | done]; intros ->%list_elem_of_singleton; done.
Qed.

Lemma sink_verdict n st t h confs extra :
  simulate_loop (S extra) tm None
    {| state := n; tape := t; head := h; steps := st; configurations := confs |}
  = (if decide (n = decider_accept_state dfa) then
       Return (1, confs ++ [format_configuration n t h])
     else if decide (n = decider_reject_state dfa) then
       Return (0, confs ++ [format_configuration n t h])
     else simulate_loop (S extra) tm None
         {| state := n; tape := t; head := h; steps := st;
            configurations := confs |}).
Proof.
  repeat destruct (decide _); try done; subst.
  - simpl. rewrite simulate_body_accept; [done | simpl; set_solver].
  - simpl. rewrite simulate_body_reject; [done | simpl | simpl; set_solver].
    unfold decider_accept_state, decider_reject_state. set_solver by lia.
Qed.

Lemma decider_tracks rest : ∀ pre q st confs extra,
  q ∈ Dfa.states dfa →
  Forall (λ c, c ∈ Dfa.alphabet dfa) rest →
  ∃ trace,
    simulate_loop (length rest + 2 + extra) tm None
      {| state := q; tape := (pre ++ rest) ++ ["_"];
         head := Z.of_nat (length pre); steps := st;
         configurations := confs |}
    = Return (if match dfa_run dfa q rest with
                 | Some q' => bool_decide (q' ∈ Dfa.accept_states dfa)
                 | None => false
                 end then 1 else 0, trace).
Proof.
  induction rest as [|c rest IH]; intros pre q st confs extra Hq Hrest.
  - pose proof (dfa_state_running q st ((pre ++ []) ++ ["_"])
                  (Z.of_nat (length pre)) confs Hq) as Hrun.
    destruct (decider_body_read dfa (pre ++ []) None
                (mk_config q ((pre ++ []) ++ ["_"]) (Z.of_nat (length pre))
                           st confs)
                (length pre) eq_refl eq_refl) as (sym & Hsym & Heq);
      [rewrite length_app; simpl; lia | exact Hrun |].
    cbn [state tape head steps] in Heq.
    rewrite app_nil_r in Hsym.
    rewrite lookup_app_r, Nat.sub_diag in Hsym by lia.
    injection Hsym as <-.
    unfold decider_entry in Heq. rewrite decide_True in Heq by done.
    rewrite decide_True in Heq by done.
    change (length [] + 2 + extra) with (S (S extra)).
    rewrite simulate_loop_S, Heq. cbn [bind].
    rewrite sink_verdict. unfold decider_next_blank. simpl.
    destruct (decide (q ∈ list_to_set (Dfa.accept_states dfa))) as [Ha|Ha].
    + rewrite decide_True by done.
      rewrite bool_decide_eq_true_2 by set_solver. eauto.
    + rewrite decide_False
        by (unfold decider_accept_state, decider_reject_state; lia).
      rewrite decide_True by done.
      rewrite bool_decide_eq_false_2 by set_solver. eauto.
  - apply Forall_cons in Hrest as [Hc Hrest].
    pose proof (dfa_state_running q st ((pre ++ c :: rest) ++ ["_"])
                  (Z.of_nat (length pre)) confs Hq) as Hrun.
    destruct (decider_body_read dfa (pre ++ c :: rest) None
                (mk_config q ((pre ++ c :: rest) ++ ["_"])
                           (Z.of_nat (length pre)) st confs)
                (length pre) eq_refl eq_refl) as (sym & Hsym & Heq);
      [rewrite length_app; simpl; lia | exact Hrun |].
    cbn [state tape head steps] in Heq.
    rewrite <- app_assoc in Hsym.
    rewrite lookup_app_r, Nat.sub_diag in Hsym by lia.
    injection Hsym as <-.
    destruct Hwf as (_ & _ & _ & Htargets & Halpha).
    assert (Hin : c ∈ INPUT_ALPHABET) by set_solver.
    unfold decider_entry in Heq. rewrite decide_True in Heq by done.
    rewrite decide_False in Heq
      by (intros ->; vm_compute in Hin; set_solver).
    rewrite decide_True in Heq by done.
    change (length (c :: rest) + 2 + extra)
      with (S (length rest + 2 + extra)).
    rewrite simulate_loop_S, Heq. cbn [bind].
    unfold decider_next. rewrite decide_True by done.
    cbn [dfa_run].
    destruct (Dfa.transitions dfa !! (q, c)) as [q'|] eqn:Hstep.
    + apply (Htargets q c q' Hq Hc) in Hstep.
      assert (Hpre : pre ++ c :: rest = (pre ++ [c]) ++ rest)
        by (by rewrite <- app_assoc).
      assert (Hlen : Z.of_nat (S (length pre)) = Z.of_nat (length (pre ++ [c])))
        by (rewrite length_app; simpl; lia).
      cbn [tape state head steps configurations].
      rewrite Hpre, Hlen. by apply IH.
    + replace (length rest + 2 + extra) with (S (length rest + 1 + extra))
        by lia.
      rewrite sink_verdict.
      rewrite decide_False
        by (unfold decider_accept_state, decider_reject_state; lia).
      rewrite decide_True by done. eauto.
Qed.
End decider_fidelity.

(** C1: for every DFA and every string over its alphabet, the empty one
    included, [simulate_tm] on the decider of the DFA and the string returns
    the accept verdict 1 when the DFA accepts the string and the reject
    verdict 0 when it does not.  The DFA is one of the data model
    ([dfa_well_formed]): its start state and the targets of its transitions
    are states, its alphabet lies within the fixed input alphabet, and the
    two states the decider adds are not among its states, as is the case
    when the states are [0..N-1]. *)
Theorem decider_agrees_with_dfa (dfa : Dfa.t) (w : list string) :
  dfa_well_formed dfa →
  Forall (λ c, c ∈ Dfa.alphabet dfa) w →
  decider_agrees dfa w.
Proof.
  intros Hwf Hw. exists (length w + 2). intros extra.
  pose proof Hwf as (_ & _ & Hstart & _).
  destruct (decider_tracks dfa Hwf w [] (Dfa.start_state dfa) 0 [] extra
              Hstart Hw) as [trace Htrace].
  exists trace. exact Htrace.
Qed.

Lemma dfa_example_well_formed : dfa_well_formed dfa_example.
Proof.
  unfold dfa_well_formed. split_and!.
  - unfold decider_accept_state, decider_reject_state. simpl.
    rewrite !elem_of_cons, elem_of_nil. lia.
  - unfold decider_accept_state, decider_reject_state. simpl.
    rewrite !elem_of_cons, elem_of_nil. lia.
  - simpl. set_solver.
  - intros s c t _ _. simpl. rewrite !lookup_insert.
    repeat destruct (decide _); intros; simplify_eq; set_solver.
  - done.
Defined.

Lemma decider_agrees_with_dfa_witness :
  decider_agrees dfa_example ["a"; "a"; "b"] ∧
  decider_agrees dfa_example [].
Proof.
  split.
  - apply (decider_agrees_with_dfa dfa_example ["a"; "a"; "b"]
             dfa_example_well_formed).
    repeat constructor; simpl; set_solver.
  - apply (decider_agrees_with_dfa dfa_example [] dfa_example_well_formed).
    constructor.
Defined.

(** *** Outside the data model

    Each condition of [dfa_well_formed] is used: a DFA that breaks one of
    them, and keeps the others, has a decider that disagrees with it on a
    word over its alphabet. *)

Lemma disagrees_from_run dfa w fuel trace :
  simulate_tm fuel (dfa_to_tm_decider dfa) w None
    = Return (if dfa_accepts dfa w then 0 else 1, trace) →
  ¬ decider_agrees dfa w.
Proof.
  intros Hrun (fuel' & Hagree). destruct (Hagree fuel) as [trace' Htrace].
  unfold simulate_tm in *.
  apply (simulate_loop_mono _ fuel') in Hrun.
  rewrite (Nat.add_comm fuel' fuel), Hrun in Htrace.
  destruct (dfa_accepts dfa w); discriminate.
Qed.

(** The alphabet: the one-state DFA over the alphabet [c] accepts the word
    [c], and the decider rejects it, because the table is only filled for
    the symbols of [INPUT_ALPHABET]. *)
Lemma decider_needs_input_alphabet :
  decider_accept_state dfa_letter_c ∉ Dfa.states dfa_letter_c ∧
  decider_reject_state dfa_letter_c ∉ Dfa.states dfa_letter_c ∧
  Dfa.start_state dfa_letter_c ∈ Dfa.states dfa_letter_c ∧
  (∀ s c t, s ∈ Dfa.states dfa_letter_c → c ∈ Dfa.alphabet dfa_letter_c →
            Dfa.transitions dfa_letter_c !! (s, c) = Some t →
            t ∈ Dfa.states dfa_letter_c) ∧
  Forall (λ c, c ∈ Dfa.alphabet dfa_letter_c) ["c"] ∧
  dfa_accepts dfa_letter_c ["c"] = true ∧
  ¬ decider_agrees dfa_letter_c ["c"].
Proof.
  split_and!.
  - unfold decider_accept_state, decider_reject_state. simpl.
    rewrite !elem_of_cons, elem_of_nil. lia.
  - unfold decider_accept_state, decider_reject_state. simpl.
    rewrite !elem_of_cons, elem_of_nil. lia.
  - simpl. set_solver.
  - intros s c t _ _. simpl. rewrite !lookup_insert.
    repeat destruct (decide _); intros; simplify_eq; set_solver.
  - repeat constructor.
  - by vm_compute.
  - apply (disagrees_from_run _ _ 1 ["state=0, tape=c_, head pos=0"]).
    vm_compute. reflexivity.
Qed.

(** The added states: in [dfa_from_one] the state 2 is also the accept
    state of the decider, so the decider accepts [ab] as soon as it enters
    state 2, while the DFA rejects it. *)
Lemma decider_needs_numbering :
  Dfa.start_state dfa_from_one ∈ Dfa.states dfa_from_one ∧
  (∀ s c t, s ∈ Dfa.states dfa_from_one → c ∈ Dfa.alphabet dfa_from_one →
            Dfa.transitions dfa_from_one !! (s, c) = Some t →
            t ∈ Dfa.states dfa_from_one) ∧
  Dfa.alphabet dfa_from_one ⊆ INPUT_ALPHABET ∧
  Forall (λ c, c ∈ Dfa.alphabet dfa_from_one) ["a"; "b"] ∧
  dfa_accepts dfa_from_one ["a"; "b"] = false ∧
  ¬ decider_agrees dfa_from_one ["a"; "b"].
Proof.
  split_and!.
  - simpl. set_solver.
  - intros s c t _ _. simpl. rewrite !lookup_insert.
    repeat destruct (decide _); intros; simplify_eq; set_solver.
  - done.
  - repeat constructor; simpl; set_solver.
  - by vm_compute.
  - apply (disagrees_from_run _ _ 2 ["state=1, tape=ab_, head pos=0";
                                     "state=2, tape=ab_, head pos=1"]).
    vm_compute. reflexivity.
Qed.

(** The start state: [dfa_stray_start] starts in a state that is not one
    of its states; it accepts [a], and the decider has no row for the
    start state and rejects. *)
Lemma decider_needs_start_state :
  decider_accept_state dfa_stray_start ∉ Dfa.states dfa_stray_start ∧
  decider_reject_state dfa_stray_start ∉ Dfa.states dfa_stray_start ∧
  (∀ s c t, s ∈ Dfa.states dfa_stray_start →
            c ∈ Dfa.alphabet dfa_stray_start →
            Dfa.transitions dfa_stray_start !! (s, c) = Some t →
            t ∈ Dfa.states dfa_stray_start) ∧
  Dfa.alphabet dfa_stray_start ⊆ INPUT_ALPHABET ∧
  Forall (λ c, c ∈ Dfa.alphabet dfa_stray_start) ["a"] ∧
  dfa_accepts dfa_stray_start ["a"] = true ∧
  ¬ decider_agrees dfa_stray_start ["a"].
Proof.
  split_and!.
  - unfold decider_accept_state, decider_reject_state. simpl.
    rewrite !elem_of_cons, elem_of_nil. lia.
  - unfold decider_accept_state, decider_reject_state. simpl.
    rewrite !elem_of_cons, elem_of_nil. lia.
  - intros s c t _ _. simpl. rewrite !lookup_insert.
    repeat destruct (decide _); intros; simplify_eq; set_solver.
  - done.
  - repeat constructor; simpl; set_solver.
  - by vm_compute.
  - apply (disagrees_from_run _ _ 1 ["state=5, tape=a_, head pos=0"]).
    vm_compute. reflexivity.
Qed.

(** The targets: [dfa_stray_target] leaves its states on [a] and comes
    back on the next [a]; it accepts [aa], and the decider has no row for
    the state in between and rejects. *)
Lemma decider_needs_targets :
  decider_accept_state dfa_stray_target ∉ Dfa.states dfa_stray_target ∧
  decider_reject_state dfa_stray_target ∉ Dfa.states dfa_stray_target ∧
  Dfa.start_state dfa_stray_target ∈ Dfa.states dfa_stray_target ∧
  Dfa.alphabet dfa_stray_target ⊆ INPUT_ALPHABET ∧
  Forall (λ c, c ∈ Dfa.alphabet dfa_stray_target) ["a"; "a"] ∧
  dfa_accepts dfa_stray_target ["a"; "a"] = true ∧
  ¬ decider_agrees dfa_stray_target ["a"; "a"].
Proof.
  split_and!.
  - unfold decider_accept_state, decider_reject_state. simpl.
    rewrite !elem_of_cons, elem_of_nil. lia.
  - unfold decider_accept_state, decider_reject_state. simpl.
    rewrite !elem_of_cons, elem_of_nil. lia.
  - simpl. set_solver.
  - done.
  - repeat constructor; simpl; set_solver.
  - by vm_compute.
  - apply (disagrees_from_run _ _ 2 ["state=0, tape=aa_, head pos=0";
                                     "state=7, tape=aa_, head pos=1"]).
    vm_compute. reflexivity.
Qed.


Section closure.
Variable nfa : Nfa.t.

Lemma sym_step_target c p q : sym_step nfa c p q → q ∈ nfa_targets nfa.
Proof.
  intros (ns & Hns & Hq). unfold nfa_targets.
  apply elem_of_union_list. exists (list_to_set ns). split.
  - apply list_elem_of_fmap. exists ns. split; [done|].
    apply list_elem_of_fmap. exists ((p, c), ns). split; [done|].
    by apply elem_of_map_to_list.
  - by apply elem_of_list_to_set.
Qed.

Lemma closure_visit_spec next_states : ∀ closure stack closure' stack',
  closure_visit next_states closure stack = (closure', stack') →
  closure' = closure ∪ list_to_set next_states ∧
  (∀ x, x ∈ stack' ↔ x ∈ stack ∨ (x ∈ next_states ∧ x ∉ closure)).
Proof.
  induction next_states as [|nxt rest IH]; intros cl st cl' st'; simpl.
  - intros [= <- <-]. split; [set_solver|].
    intros x. rewrite elem_of_nil. tauto.
  - destruct (decide (nxt ∈ cl)) as [Hin|Hout]; intros Hv;
      apply IH in Hv as [-> Hst].
    + split; [set_solver|].
      intros x. rewrite Hst, elem_of_cons.
      split; [tauto|]. intros [?|[[->|?] ?]]; tauto.
    + split; [set_solver|].
      intros x. rewrite Hst, !elem_of_cons, elem_of_union, elem_of_singleton.
      destruct (decide (x = nxt)) as [->|]; tauto.
Qed.

Lemma closure_visit_measure next_states : ∀ closure stack closure' stack',
  (∀ x, x ∈ next_states → x ∈ nfa_targets nfa) →
  closure_visit next_states closure stack = (closure', stack') →
  closure_measure nfa closure' stack' ≤ closure_measure nfa closure stack.
Proof.
  unfold closure_measure.
  induction next_states as [|nxt rest IH]; intros cl st cl' st' Hsub; simpl.
  - by intros [= <- <-].
  - assert (Hrest : ∀ x, x ∈ rest → x ∈ nfa_targets nfa).
    { intros x Hx. apply Hsub. by right. }
    assert (Hnxt : nxt ∈ nfa_targets nfa) by (apply Hsub; by left).
    destruct (decide (nxt ∈ cl)) as [Hin|Hout]; intros Hv.
    + by apply IH in Hv.
    + apply IH in Hv; [|done]. simpl in Hv.
      assert (Hsize : size (nfa_targets nfa ∖ cl)
                      = S (size (nfa_targets nfa ∖ ({[nxt]} ∪ cl)))).
      { pose proof (size_union (C:=gset nat) {[nxt]}
                      (nfa_targets nfa ∖ ({[nxt]} ∪ cl))) as Hu.
        rewrite size_singleton in Hu.
        change (1 + ?n) with (S n) in Hu. rewrite <- Hu by set_solver.
        f_equal. apply set_eq. intros x.
        destruct (decide (x = nxt)); set_solver. }
      lia.
Qed.

(** Termination: the loop returns as soon as the fuel covers the measure. *)
Lemma epsilon_closure_loop_returns fuel : ∀ closure stack,
  closure_measure nfa closure stack ≤ fuel →
  ∃ X, epsilon_closure_loop fuel nfa closure stack = Return X.
Proof.
  induction fuel as [|fuel IH]; intros cl st Hfuel.
  - destruct st as [|s st]; [simpl; eauto|].
    unfold closure_measure in Hfuel. simpl in Hfuel. lia.
  - destruct st as [|s st]; [simpl; eauto|]. simpl.
    destruct (Nfa.transitions nfa !! (s, "eps")) as [ns|] eqn:Hns.
    + destruct (closure_visit ns cl st) as [cl' st'] eqn:Hv.
      apply IH. apply closure_visit_measure in Hv.
      * unfold closure_measure in *. simpl in Hfuel. lia.
      * intros x Hx. apply (sym_step_target "eps" s). by exists ns.
    + apply IH. unfold closure_measure in *. simpl in Hfuel. lia.
Qed.

Lemma closure_inv_done S closure :
  closure_inv nfa S closure [] → is_closure nfa S closure.
Proof.
  intros (Hsub & Hsound & _ & Hdone) q. split; [apply Hsound|].
  intros (p & Hp & Hpq). apply Hsub in Hp.
  induction Hpq as [|p p' q Hstep _ IHq]; [done|].
  apply IHq. destruct (Hdone p Hp) as [Hin|Hall]; [|eauto].
  by apply elem_of_nil in Hin.
Qed.

(** Partial correctness: what the loop returns is the closure. *)
Lemma epsilon_closure_loop_correct S fuel : ∀ closure stack X,
  closure_inv nfa S closure stack →
  epsilon_closure_loop fuel nfa closure stack = Return X →
  is_closure nfa S X.
Proof.
  induction fuel as [|fuel IH]; intros cl st X Hinv.
  - destruct st; [|done]. simpl. intros [= <-]. by apply closure_inv_done.
  - destruct st as [|s st].
    { simpl. intros [= <-]. by apply closure_inv_done. }
    destruct Hinv as (Hsub & Hsound & Hstack & Hdone). simpl.
    assert (Hs : s ∈ cl) by (apply Hstack; by left).
    destruct (Nfa.transitions nfa !! (s, "eps")) as [ns|] eqn:Hns.
    + destruct (closure_visit ns cl st) as [cl' st'] eqn:Hv.
      apply closure_visit_spec in Hv as [-> Hst].
      apply IH. split_and!.
      * set_solver.
      * intros q [Hq|Hq%elem_of_list_to_set]%elem_of_union;
          [by apply Hsound|].
        destruct (Hsound s Hs) as (p & Hp & Hps).
        exists p. split; [done|].
        eapply rtc_r; [exact Hps|]. by exists ns.
      * intros x [Hx|[Hx _]]%Hst; apply elem_of_union.
        -- left. apply Hstack. by right.
        -- right. by apply elem_of_list_to_set.
      * assert (Hsucc : ∀ q, eps_step nfa s q → q ∈ cl ∪ list_to_set ns).
        { intros q (ns' & Hns' & Hq). simplify_eq.
          apply elem_of_union. right. by apply elem_of_list_to_set. }
        intros p [Hp|Hp%elem_of_list_to_set]%elem_of_union.
        -- destruct (Hdone p Hp) as [[->|Hin]%elem_of_cons|Hall].
           ++ by right.
           ++ left. apply Hst. by left.
           ++ right. intros q Hq. apply elem_of_union. left. by apply Hall.
        -- destruct (decide (p ∈ cl)) as [Hcl|Hcl].
           ++ destruct (Hdone p Hcl) as [[->|Hin]%elem_of_cons|Hall].
              ** by right.
              ** left. apply Hst. by left.
              ** right. intros q Hq. apply elem_of_union. left. by apply Hall.
           ++ left. apply Hst. by right.
    + apply IH. split_and!; [done | done | |].
      * intros x Hx. apply Hstack. by right.
      * intros p Hp. destruct (Hdone p Hp) as [[->|Hin]%elem_of_cons|Hall].
        -- right. intros q (ns' & Hns' & Hq). congruence.
        -- by left.
        -- by right.
Qed.

Lemma epsilon_closure_correct fuel S X :
  epsilon_closure fuel nfa S = Return X → is_closure nfa S X.
Proof.
  apply epsilon_closure_loop_correct. split_and!.
  - done.
  - intros q Hq. by exists q.
  - intros x Hx. by rewrite elem_of_reverse, elem_of_elements in Hx.
  - intros p Hp. left. by rewrite elem_of_reverse, elem_of_elements.
Qed.

Lemma epsilon_closure_returns fuel S :
  size S + 2 * size (nfa_targets nfa) ≤ fuel →
  ∃ X, epsilon_closure fuel nfa S = Return X.
Proof.
  intros Hfuel. apply epsilon_closure_loop_returns.
  unfold closure_measure. rewrite length_reverse.
  change (length (elements S)) with (size S).
  assert (size (nfa_targets nfa ∖ S) ≤ size (nfa_targets nfa))
    by (apply subseteq_size; set_solver).
  lia.
Qed.

(** ** move_nfa *)

Lemma elem_of_move_nfa S c q :
  q ∈ move_nfa nfa S c ↔ ∃ p, p ∈ S ∧ sym_step nfa c p q.
Proof.
  unfold move_nfa.
  assert (Hinner : ∀ ns (acc : gset nat),
            q ∈ foldl (λ result nxt, {[nxt]} ∪ result) acc ns
            ↔ q ∈ acc ∨ q ∈ ns).
  { induction ns as [|n ns IH]; intros acc; simpl.
    - rewrite elem_of_nil. tauto.
    - rewrite IH, elem_of_cons, elem_of_union, elem_of_singleton. tauto. }
  assert (Houter : ∀ l (acc : gset nat),
            q ∈ foldl (λ result state,
                         match Nfa.transitions nfa !! (state, c) with
                         | Some next_states =>
                             foldl (λ result nxt, {[nxt]} ∪ result)
                                   result next_states
                         | None => result
                         end) acc l
            ↔ q ∈ acc ∨ ∃ p, p ∈ l ∧ sym_step nfa c p q).
  { induction l as [|s l IH]; intros acc; simpl.
    - split; [tauto|]. intros [?|(p & []%elem_of_nil & _)]. done.
    - rewrite IH. unfold sym_step.
      destruct (Nfa.transitions nfa !! (s, c)) as [ns|] eqn:Hns.
      + rewrite Hinner. split.
        * intros [[?|?]|(p & ? & ?)]; [by left | |].
          -- right. exists s. split; [by left|]. by exists ns.
          -- right. exists p. split; [by right | done].
        * intros [?|(p & [->|?]%elem_of_cons & ns' & Hns' & ?)].
          -- by left; left.
          -- simplify_eq. by left; right.
          -- right. exists p. split; [done|]. by exists ns'.
      + split.
        * intros [?|(p & ? & ?)]; [by left|].
          right. exists p. split; [by right | done].
        * intros [?|(p & [->|?]%elem_of_cons & ns' & Hns' & ?)].
          -- by left.
          -- congruence.
          -- right. exists p. split; [done|]. by exists ns'. }
  rewrite Houter. split.
  - intros [[]%elem_of_empty|(p & Hp%elem_of_elements & ?)]. eauto.
  - intros (p & Hp & ?). right. exists p. by rewrite elem_of_elements.
Qed.

Lemma move_nfa_targets S c : move_nfa nfa S c ⊆ nfa_targets nfa.
Proof.
  intros q (p & _ & Hstep)%elem_of_move_nfa. by eapply sym_step_target.
Qed.
End closure.
(** ** Counting subsets *)

Lemma elem_of_powerlist xs : ∀ X : gset nat,
  X ⊆ list_to_set xs → X ∈ powerlist xs.
Proof.
  induction xs as [|x xs IH]; intros X HX; simpl in *.
  - assert (X = ∅) as -> by set_solver. by left.
  - apply elem_of_app. destruct (decide (x ∈ X)) as [Hx|Hx].
    + right. apply list_elem_of_fmap. exists (X ∖ {[x]}). split.
      * apply set_eq. intros y. destruct (decide (y = x)); set_solver.
      * apply IH. set_solver.
    + left. apply IH. set_solver.
Qed.

Lemma length_powerlist xs : length (powerlist xs) = 2 ^ length xs.
Proof.
  induction xs as [|x xs IH]; [done|].
  simpl. rewrite length_app, length_fmap, IH. lia.
Qed.

Lemma distinct_subsets_bound (l : list (gset nat)) (U : gset nat) :
  NoDup l → (∀ X, X ∈ l → X ⊆ U) → length l ≤ 2 ^ size U.
Proof.
  intros Hnodup Hsub.
  unfold size, set_size. simpl. rewrite <- length_powerlist.
  apply submseteq_length, NoDup_submseteq; [done|].
  intros X HX. apply elem_of_powerlist.
  intros y Hy. apply elem_of_list_to_set, elem_of_elements. by apply (Hsub X).
Qed.

Section construction.
Variable nfa : Nfa.t.

Lemma table_ok_length b :
  table_ok nfa b → length (subsets b) ≤ 2 ^ size (nfa_universe nfa).
Proof.
  intros (_ & Hbij & Huniv). apply distinct_subsets_bound.
  - apply NoDup_alt. intros i j X Hi Hj.
    apply Hbij in Hi, Hj. congruence.
  - intros X (i & Hi)%list_elem_of_lookup. by eapply Huniv.
Qed.

Lemma closure_in_universe S X :
  is_closure nfa S X → S ⊆ nfa_universe nfa → X ⊆ nfa_universe nfa.
Proof.
  intros Hcl HS q (p & Hp & Hpq)%Hcl.
  apply HS in Hp. destruct (rtc_inv_r _ _ Hpq) as [->|(p' & _ & Hstep)].
  - done.
  - apply elem_of_union. right. by eapply sym_step_target.
Qed.

Lemma closure_successor X c Y :
  is_closure nfa (move_nfa nfa X c) Y → is_successor nfa X c Y.
Proof.
  intros Hcl q. rewrite (Hcl q). split.
  - intros (p' & (p & Hp & Hstep)%elem_of_move_nfa & Hrtc). eauto.
  - intros (p & p' & Hp & Hstep & Hrtc). exists p'. split; [|done].
    apply elem_of_move_nfa. eauto.
Qed.

Lemma closure_of_empty S : S = ∅ → is_closure nfa S ∅.
Proof. intros -> q. split; [set_solver|]. intros (p & Hp & _). set_solver. Qed.

Lemma mark_accept_spec members A idx acc i :
  i ∈ mark_accept members A idx acc ↔
  i ∈ acc ∨ (i = idx ∧ ∃ s, s ∈ members ∧ s ∈ A).
Proof.
  induction members as [|s members IH]; simpl.
  - split; [tauto|]. intros [?|(_ & s & []%elem_of_nil & _)]. done.
  - destruct (decide (s ∈ A)) as [Hs|Hs].
    + rewrite elem_of_union, elem_of_singleton. split.
      * intros [->|?]; [|tauto]. right. split; [done|]. exists s.
        split; [by left | done].
      * tauto.
    + rewrite IH. split.
      * intros [?|(-> & s' & ? & ?)]; [tauto|]. right. split; [done|].
        exists s'. split; [by right | done].
      * intros [?|(-> & s' & [->|?]%elem_of_cons & ?)]; [tauto | done |].
        right. eauto.
Qed.

Lemma edge_ok_mono b b' i c :
  edge_ok nfa b i c →
  subsets b `prefix_of` subsets b' →
  dfa_transitions b' !! (i, c) = dfa_transitions b !! (i, c) →
  edge_ok nfa b' i c.
Proof.
  intros (X & j & Y & HX & Hj & HY & Hsucc) [k Hk] Htr.
  exists X, j, Y. rewrite Hk, Htr.
  split_and!; [by apply lookup_app_l_Some | done
              | by apply lookup_app_l_Some | done].
Qed.

Section with_fuel.
Variable fuel : nat.
Hypothesis Hfuel : 3 * size (nfa_universe nfa) ≤ fuel.

Lemma target_closure_ok X c :
  ∃ Y,
    (if decide (move_nfa nfa X c ≠ ∅)
     then epsilon_closure fuel nfa (move_nfa nfa X c)
     else Return ∅) = Return Y ∧
    is_successor nfa X c Y ∧ Y ⊆ nfa_universe nfa.
Proof.
  pose proof (move_nfa_targets nfa X c) as Hmove.
  assert (Huniv : nfa_targets nfa ⊆ nfa_universe nfa)
    by (unfold nfa_universe; set_solver).
  destruct (decide (move_nfa nfa X c ≠ ∅)) as [Hne|Heq].
  - destruct (epsilon_closure_returns nfa fuel (move_nfa nfa X c))
      as [Y HY].
    { apply subseteq_size in Hmove, Huniv. lia. }
    exists Y. split; [done|]. apply epsilon_closure_correct in HY.
    split; [by apply closure_successor|].
    eapply closure_in_universe; [done|]. set_solver.
  - exists ∅. apply dec_stable in Heq. split; [done|].
    split; [|set_solver]. by apply closure_successor, closure_of_empty.
Qed.

Lemma symbol_step_ok X i b c (P : nat → string → Prop) :
  table_ok nfa b →
  subsets b !! i = Some X →
  (∀ i' c', P i' c' → edge_ok nfa b i' c') →
  ∃ b', symbol_step fuel nfa X i b c = Return b' ∧
        table_ok nfa b' ∧
        subsets b `prefix_of` subsets b' ∧
        (∀ i' c', P i' c' ∨ (i' = i ∧ c' = c) → edge_ok nfa b' i' c') ∧
        dfa_accept_states b' = dfa_accept_states b.
Proof.
  intros (Hstart & Hbij & Huniv) HX Hedges. unfold symbol_step.
  destruct (target_closure_ok X c) as (Y & -> & Hsucc & HY). cbn [bind].
  destruct (decide (is_Some (subset_to_index b !! Y))) as [[j Hj]|Hnew].
  - unfold subscript. rewrite Hj. cbn [bind].
    eexists. split; [done|]. split_and!; [by split_and! | done | | done].
    intros i' c' [HP|[-> ->]].
    + destruct (decide ((i, c) = (i', c'))) as [[= <- <-]|Hne].
      * exists X, j, Y. simpl. rewrite lookup_insert_eq.
        split_and!; [done | done | by apply Hbij | done].
      * eapply edge_ok_mono; [by apply Hedges | done |].
        simpl. by rewrite lookup_insert_ne.
    + exists X, j, Y. simpl. rewrite lookup_insert_eq.
      split_and!; [done | done | by apply Hbij | done].
  - unfold subscript. rewrite lookup_insert_eq. cbn [bind].
    assert (Hfresh : ∀ i', subsets b !! i' ≠ Some Y).
    { intros i' Hi'. apply Hbij in Hi'. apply Hnew. by exists i'. }
    assert (Hlast : (subsets b ++ [Y]) !! length (subsets b) = Some Y).
    { rewrite lookup_app_r, Nat.sub_diag by lia. done. }
    assert (Hpre : subsets b `prefix_of` subsets b ++ [Y])
      by (by exists [Y]).
    eexists. split; [done|]. split_and!; [| done | | done].
    + split_and!; simpl.
      * destruct Hstart as (X0 & HX0 & Hcl). exists X0.
        split; [by apply lookup_app_l_Some | done].
      * intros X' i'. destruct (decide (Y = X')) as [<-|Hne].
        -- rewrite lookup_insert_eq. split.
           ++ by intros [= <-].
           ++ intros Hi'. f_equal.
              destruct (decide (i' < length (subsets b))) as [Hlt|Hge].
              ** rewrite lookup_app_l in Hi' by done. by apply Hfresh in Hi'.
              ** apply lookup_lt_Some in Hi'.
                 rewrite length_app in Hi'. simpl in Hi'. lia.
        -- rewrite lookup_insert_ne by done. rewrite Hbij. split.
           ++ by apply lookup_app_l_Some.
           ++ intros Hi'.
              destruct (decide (i' < length (subsets b))) as [Hlt|Hge].
              ** by rewrite lookup_app_l in Hi'.
              ** pose proof (lookup_lt_Some _ _ _ Hi') as Hlen.
                 rewrite length_app in Hlen. simpl in Hlen.
                 assert (i' = length (subsets b)) as -> by lia.
                 rewrite Hlast in Hi'. by injection Hi'.
      * intros i' X' Hi'.
        destruct (decide (i' < length (subsets b))) as [Hlt|Hge].
        -- rewrite lookup_app_l in Hi' by done. by eapply Huniv.
        -- pose proof (lookup_lt_Some _ _ _ Hi') as Hlen.
           rewrite length_app in Hlen. simpl in Hlen.
           assert (i' = length (subsets b)) as -> by lia.
           rewrite Hlast in Hi'. by injection Hi' as <-.
    + assert (Hnew_edge : edge_ok nfa
                {| subset_to_index := <[Y:=length (subsets b)]> (subset_to_index b);
                   subsets := subsets b ++ [Y];
                   dfa_transitions :=
                     <[(i, c):=length (subsets b)]> (dfa_transitions b);
                   dfa_accept_states := dfa_accept_states b |} i c).
      { exists X, (length (subsets b)), Y. simpl. rewrite lookup_insert_eq.
        split_and!; [by apply lookup_app_l_Some | done | done | done]. }
      intros i' c' [HP|[-> ->]]; [|done].
      destruct (decide ((i, c) = (i', c'))) as [[= <- <-]|Hne]; [done|].
      eapply edge_ok_mono; [by apply Hedges | done |].
      simpl. by rewrite lookup_insert_ne.
Qed.

Lemma for_symbols_ok X i syms : ∀ b (P : nat → string → Prop),
  table_ok nfa b →
  subsets b !! i = Some X →
  (∀ i' c', P i' c' → edge_ok nfa b i' c') →
  ∃ b', for_symbols fuel nfa X i syms b = Return b' ∧
        table_ok nfa b' ∧
        subsets b `prefix_of` subsets b' ∧
        (∀ i' c', P i' c' ∨ (i' = i ∧ c' ∈ syms) → edge_ok nfa b' i' c') ∧
        dfa_accept_states b' = dfa_accept_states b.
Proof.
  induction syms as [|c syms IH]; intros b P Htable HX Hedges; simpl.
  - exists b. split_and!; [done | done | done | | done].
    intros i' c' [HP|[_ []%elem_of_nil]]. by apply Hedges.
  - destruct (symbol_step_ok X i b c P Htable HX Hedges)
      as (b1 & -> & Htable1 & Hpre1 & Hedges1 & Hacc1). cbn [bind].
    destruct (IH b1 (λ i' c', P i' c' ∨ (i' = i ∧ c' = c)) Htable1)
      as (b2 & -> & Htable2 & Hpre2 & Hedges2 & Hacc2).
    { destruct Hpre1 as [k ->]. by apply lookup_app_l_Some. }
    { done. }
    exists b2. split_and!; [done | done | by etrans | | congruence].
    intros i' c' [HP|[-> [->|Hc']%elem_of_cons]]; apply Hedges2; auto.
Qed.
End with_fuel.
End construction.
(** ** The while loop of nfa_to_dfa *)

Section loop.
Variable nfa : Nfa.t.
Variable fuel : nat.
Hypothesis Hfuel : 3 * size (nfa_universe nfa) ≤ fuel.

Lemma loop_inv_next index b b' X :
  loop_inv nfa index b →
  subsets b !! index = Some X →
  table_ok nfa b' →
  subsets b `prefix_of` subsets b' →
  (∀ i c, (i < index ∧ c ∈ Nfa.alphabet nfa) ∨
          (i = index ∧ c ∈ Nfa.alphabet nfa) → edge_ok nfa b' i c) →
  dfa_accept_states b' = dfa_accept_states b →
  loop_inv nfa (index + 1)
    {| subset_to_index := subset_to_index b';
       subsets := subsets b';
       dfa_transitions := dfa_transitions b';
       dfa_accept_states :=
         mark_accept (elements X) (list_to_set (Nfa.accept_states nfa))
                     index (dfa_accept_states b') |}.
Proof.
  intros (Htable & Hle & Hedges & Hacc) HX Htable' Hpre Hedges' Hacc'.
  pose proof (lookup_lt_Some _ _ _ HX) as Hlt.
  pose proof (prefix_length _ _ Hpre) as Hlen.
  assert (Hold : ∀ i, i < length (subsets b) →
                      subsets b' !! i = subsets b !! i).
  { intros i Hi. destruct Hpre as [k ->]. by apply lookup_app_l. }
  split_and!.
  - done.
  - simpl. lia.
  - intros i c Hi Hc.
    destruct (Hedges' i c) as (X1 & j & Y & ? & ? & ? & ?).
    { destruct (decide (i = index)); [right | left]; split; done || lia. }
    by exists X1, j, Y.
  - intros i. simpl. rewrite mark_accept_spec, Hacc', (Hacc i). split.
    + intros [(Hi & X1 & q & HX1 & Hq)|(-> & s & Hs & Hsa)].
      * split; [lia|]. exists X1, q. by rewrite Hold by lia.
      * split; [lia|]. exists X, s. rewrite Hold by lia.
        split_and!; [done | by apply elem_of_elements
                    | by apply elem_of_list_to_set in Hsa].
    + intros (Hi & X1 & q & HX1 & Hq & Hqa).
      destruct (decide (i = index)) as [->|Hne].
      * right. split; [done|]. rewrite Hold in HX1 by lia.
        assert (X1 = X) as -> by congruence.
        exists q. split; [by apply elem_of_elements
                         | by apply elem_of_list_to_set].
      * left. split; [lia|]. exists X1, q. by rewrite <- Hold by lia.
Qed.

Lemma nfa_to_dfa_loop_ok n : ∀ index b,
  loop_inv nfa index b →
  2 ^ size (nfa_universe nfa) - index < n →
  ∃ b', nfa_to_dfa_loop fuel n nfa index b = Return b' ∧
        loop_inv nfa (length (subsets b')) b'.
Proof.
  induction n as [|n IH]; intros index b Hinv Hn; [lia|].
  pose proof Hinv as (Htable & Hle & Hedges & Hacc).
  simpl. destruct (decide (index < length (subsets b))) as [Hlt|Hge].
  - pose proof (table_ok_length nfa b Htable) as Hlen.
    destruct (lookup_lt_is_Some_2 (subsets b) index Hlt) as [X HX].
    unfold item. rewrite HX. cbn [bind].
    destruct (for_symbols_ok nfa fuel Hfuel X index (Nfa.alphabet nfa) b
                (λ i c, i < index ∧ c ∈ Nfa.alphabet nfa) Htable HX)
      as (b' & -> & Htable' & Hpre & Hedges' & Hacc').
    { intros i' c' [? ?]. by apply Hedges. }
    cbn [bind]. apply IH; [|lia].
    by apply (loop_inv_next index b b' X).
  - exists b. split; [done|].
    assert (index = length (subsets b)) as <- by lia. done.
Qed.
End loop.

Lemma enough_fuel_bounds (nfa : Nfa.t) (extra : nat) :
  3 * size (nfa_universe nfa) ≤ enough_fuel nfa + extra ∧
  2 ^ size (nfa_universe nfa) - 0 < enough_fuel nfa + extra ∧
  1 + 2 * size (nfa_targets nfa) ≤ enough_fuel nfa + extra.
Proof.
  unfold enough_fuel.
  assert (HU : 1 ≤ size (nfa_universe nfa)).
  { assert ({[Nfa.start_state nfa]} ⊆ nfa_universe nfa) as Hs
      by (unfold nfa_universe; set_solver).
    apply subseteq_size in Hs. by rewrite size_singleton in Hs. }
  assert (HT : size (nfa_targets nfa) ≤ size (nfa_universe nfa)).
  { apply subseteq_size. unfold nfa_universe. set_solver. }
  generalize (2 ^ size (nfa_universe nfa)). intros p. lia.
Qed.

Lemma nfa_to_dfa_build_ok (nfa : Nfa.t) (extra : nat) :
  ∃ b, nfa_to_dfa_build (enough_fuel nfa + extra) nfa = Return b ∧
       loop_inv nfa (length (subsets b)) b.
Proof.
  destruct (enough_fuel_bounds nfa extra) as (Hclosure & Hloop & Hstart).
  unfold nfa_to_dfa_build.
  destruct (epsilon_closure_returns nfa (enough_fuel nfa + extra)
              {[Nfa.start_state nfa]}) as [X0 HX0].
  { by rewrite size_singleton. }
  rewrite HX0. cbn [bind].
  apply epsilon_closure_correct in HX0.
  apply nfa_to_dfa_loop_ok; [done | | done].
  split_and!.
  - split_and!; simpl.
    + by exists X0.
    + intros X i. destruct (decide (X0 = X)) as [<-|Hne].
      * rewrite lookup_insert_eq. split.
        -- by intros [= <-].
        -- intros Hi. f_equal. apply lookup_lt_Some in Hi. simpl in Hi. lia.
      * rewrite lookup_insert_ne, lookup_empty by done. split; [done|].
        intros Hi. pose proof (lookup_lt_Some _ _ _ Hi) as Hlen.
        simpl in Hlen. assert (i = 0) as -> by lia. simpl in Hi. congruence.
    + intros i X Hi. pose proof (lookup_lt_Some _ _ _ Hi) as Hlen.
      simpl in Hlen. assert (i = 0) as -> by lia. simpl in Hi.
      injection Hi as <-. eapply closure_in_universe; [done|].
      unfold nfa_universe. set_solver.
  - simpl. lia.
  - intros i c Hi. lia.
  - intros i. simpl. split; [set_solver|]. intros [Hi _]. lia.
Qed.

(** ** No subscript of nfa_to_dfa fails *)

Lemma epsilon_closure_loop_never_raises fuel nfa : ∀ closure stack e,
  epsilon_closure_loop fuel nfa closure stack ≠ Raise e.
Proof.
  induction fuel as [|fuel IH]; intros cl [|s st] e; simpl; try done.
  destruct (Nfa.transitions nfa !! (s, "eps")) as [ns|]; [|apply IH].
  destruct (closure_visit ns cl st). apply IH.
Qed.

Lemma symbol_step_never_raises fuel nfa subset current_index b symbol e :
  symbol_step fuel nfa subset current_index b symbol ≠ Raise e.
Proof.
  unfold symbol_step.
  destruct (decide (move_nfa nfa subset symbol ≠ ∅)) as [Hne|Heq].
  - unfold epsilon_closure.
    destruct (epsilon_closure_loop fuel nfa _ _) as [Y|e'|] eqn:E;
      cbn [bind]; [| by apply epsilon_closure_loop_never_raises in E | done].
    destruct (decide (is_Some (subset_to_index b !! Y))) as [[j Hj]|Hnew];
      unfold subscript.
    + by rewrite Hj.
    + by rewrite lookup_insert_eq.
  - cbn [bind].
    destruct (decide (is_Some (subset_to_index b !! ∅))) as [[j Hj]|Hnew];
      unfold subscript.
    + by rewrite Hj.
    + by rewrite lookup_insert_eq.
Qed.

Lemma for_symbols_never_raises fuel nfa subset current_index alphabet :
  ∀ b e, for_symbols fuel nfa subset current_index alphabet b ≠ Raise e.
Proof.
  induction alphabet as [|c alphabet IH]; intros b e; simpl; [done|].
  destruct (symbol_step fuel nfa subset current_index b c) as [b'|e'|] eqn:E;
    cbn [bind]; [apply IH | by apply symbol_step_never_raises in E | done].
Qed.

Lemma nfa_to_dfa_loop_never_raises fuel n nfa : ∀ index b e,
  nfa_to_dfa_loop fuel n nfa index b ≠ Raise e.
Proof.
  induction n as [|n IH]; intros index b e; simpl;
    destruct (decide (index < length (subsets b))) as [Hlt|Hge]; try done.
  destruct (lookup_lt_is_Some_2 (subsets b) index Hlt) as [X HX].
  unfold item. rewrite HX. cbn [bind].
  destruct (for_symbols fuel nfa X index (Nfa.alphabet nfa) b)
    as [b'|e'|] eqn:E; cbn [bind];
    [apply IH | by apply for_symbols_never_raises in E | done].
Qed.

Lemma nfa_to_dfa_never_raises fuel nfa e : nfa_to_dfa fuel nfa ≠ Raise e.
Proof.
  unfold nfa_to_dfa, nfa_to_dfa_build, epsilon_closure.
  destruct (epsilon_closure_loop fuel nfa _ _) as [X0|e'|] eqn:E0;
    cbn [bind]; [| by apply epsilon_closure_loop_never_raises in E0 | done].
  destruct (nfa_to_dfa_loop fuel fuel nfa 0 _) as [b|e'|] eqn:E;
    cbn [bind]; [done | by apply nfa_to_dfa_loop_never_raises in E | done].
Qed.
(** ** The NFA semantics, one symbol at a time *)

Section reach.
Variable nfa : Nfa.t.

Lemma nfa_reach_rtc w p q :
  nfa_reach nfa w p → rtc (eps_step nfa) p q → nfa_reach nfa w q.
Proof.
  intros Hp Hpq. induction Hpq as [|p p' q Hstep _ IH]; [done|].
  apply IH. by eapply reach_eps.
Qed.

Lemma nfa_reach_nil q :
  nfa_reach nfa [] q ↔ rtc (eps_step nfa) (Nfa.start_state nfa) q.
Proof.
  split.
  - intros H. remember [] as w eqn:Hw.
    induction H as [|w p q Hp IH Hstep|w c p q Hp IH Hstep].
    + done.
    + eapply rtc_r; [by apply IH | done].
    + by destruct w.
  - intros H. eapply nfa_reach_rtc; [constructor | done].
Qed.

Lemma nfa_reach_snoc w c q :
  nfa_reach nfa (w ++ [c]) q ↔
  ∃ p p', nfa_reach nfa w p ∧ sym_step nfa c p p' ∧
          rtc (eps_step nfa) p' q.
Proof.
  split.
  - intros H. remember (w ++ [c]) as w' eqn:Hw.
    induction H as [|w' p q Hp IH Hstep|w0 c0 p q Hp IH Hstep].
    + by destruct w.
    + destruct (IH Hw) as (p0 & p1 & H0 & H1 & H2).
      exists p0, p1. split_and!; [done | done |]. by eapply rtc_r.
    + apply app_inj_tail in Hw as [-> ->]. by exists p, q.
  - intros (p & p' & Hp & Hstep & Hrtc).
    eapply nfa_reach_rtc; [|done]. by eapply reach_sym.
Qed.
End reach.

Lemma dfa_run_snoc dfa w : ∀ q c,
  dfa_run dfa q (w ++ [c]) =
    match dfa_run dfa q w with
    | Some q' => Dfa.transitions dfa !! (q', c)
    | None => None
    end.
Proof.
  induction w as [|a w IH]; intros q c; simpl.
  - by destruct (Dfa.transitions dfa !! (q, c)).
  - destruct (Dfa.transitions dfa !! (q, a)); [apply IH | done].
Qed.

(** ** The DFA built from a finished table *)

Section finished.
Variable nfa : Nfa.t.
Variable b : build.
Hypothesis Hinv : loop_inv nfa (length (subsets b)) b.

Lemma finished_total : dfa_total (dfa_of_build nfa b).
Proof.
  destruct Hinv as (_ & _ & Hedges & _).
  intros s c Hs Hc. simpl in *.
  apply elem_of_seq in Hs.
  destruct (Hedges s c) as (X & j & Y & _ & Hj & HY & _); [lia | done |].
  exists j. split; [done|]. apply elem_of_seq.
  apply lookup_lt_Some in HY. lia.
Qed.

Lemma finished_tracks w :
  Forall (λ c, c ∈ Nfa.alphabet nfa) w →
  ∃ j X, dfa_run (dfa_of_build nfa b) 0 w = Some j ∧
         subsets b !! j = Some X ∧
         ∀ q, q ∈ X ↔ nfa_reach nfa w q.
Proof.
  destruct Hinv as ((Hstart & _ & _) & _ & Hedges & _).
  induction w as [|c w IH] using rev_ind; intros Hw.
  - destruct Hstart as (X0 & HX0 & Hcl). exists 0, X0.
    split_and!; [done | done |].
    intros q. rewrite nfa_reach_nil, (Hcl q). split.
    + intros (p & ->%elem_of_singleton & Hrtc). done.
    + intros Hrtc. exists (Nfa.start_state nfa).
      split; [by apply elem_of_singleton | done].
  - apply Forall_app in Hw as [Hw Hc].
    rewrite Forall_singleton in Hc.
    destruct (IH Hw) as (j & X & Hrun & HX & Hreach).
    destruct (Hedges j c) as (X' & j' & Y & HX' & Hj' & HY & Hsucc);
      [by eapply lookup_lt_Some | exact Hc |].
    assert (X' = X) as -> by congruence.
    exists j', Y. rewrite dfa_run_snoc, Hrun.
    split_and!; [done | done |].
    intros q. rewrite nfa_reach_snoc, (Hsucc q).
    split; intros (p & p' & Hp & Hstep & Hrtc); exists p, p';
      (split_and!; [by apply Hreach | done | done]).
Qed.

Lemma finished_language w :
  Forall (λ c, c ∈ Nfa.alphabet nfa) w →
  dfa_accepts (dfa_of_build nfa b) w = true ↔ nfa_accepts nfa w.
Proof.
  intros Hw. destruct (finished_tracks w Hw) as (j & X & Hrun & HX & Hreach).
  destruct Hinv as (_ & _ & _ & Hacc).
  unfold dfa_accepts, nfa_accepts.
  change (Dfa.start_state (dfa_of_build nfa b)) with 0. rewrite Hrun.
  rewrite bool_decide_eq_true. simpl.
  rewrite merge_sort_Permutation, elem_of_elements, (Hacc j). split.
  - intros (_ & X' & q & HX' & Hq & Hqa).
    assert (X' = X) as -> by congruence.
    exists q. split; [by apply Hreach | done].
  - intros (q & Hq & Hqa). split; [by eapply lookup_lt_Some|].
    exists X, q. split_and!; [done | by apply Hreach | done].
Qed.

Lemma finished_dead_state i :
  subsets b !! i = Some ∅ →
  (∀ j, subsets b !! j = Some ∅ → j = i) ∧
  i ∉ Dfa.accept_states (dfa_of_build nfa b) ∧
  ∀ c, c ∈ Nfa.alphabet nfa →
       Dfa.transitions (dfa_of_build nfa b) !! (i, c) = Some i.
Proof.
  intros Hi. destruct Hinv as ((_ & Hbij & _) & _ & Hedges & Hacc).
  assert (Huniq : ∀ j, subsets b !! j = Some ∅ → j = i).
  { intros j Hj. apply Hbij in Hi, Hj. congruence. }
  split_and!; [done | |].
  - simpl. rewrite merge_sort_Permutation, elem_of_elements, (Hacc i).
    intros (_ & X & q & HX & Hq & _).
    assert (X = ∅) as -> by congruence. set_solver.
  - intros c Hc. simpl.
    destruct (Hedges i c) as (X & j & Y & HX & Hj & HY & Hsucc);
      [by eapply lookup_lt_Some | done |].
    assert (X = ∅) as -> by congruence.
    assert (Y = ∅) as ->.
    { apply set_eq. intros q. rewrite (Hsucc q). split; [|set_solver].
      intros (p & _ & Hp & _). set_solver. }
    by rewrite Hj, (Huniq j HY).
Qed.
End finished.
Lemma nfa_to_dfa_returns (nfa : Nfa.t) (extra : nat) :
  ∃ b, nfa_to_dfa_build (enough_fuel nfa + extra) nfa = Return b ∧
       nfa_to_dfa (enough_fuel nfa + extra) nfa = Return (dfa_of_build nfa b) ∧
       loop_inv nfa (length (subsets b)) b.
Proof.
  destruct (nfa_to_dfa_build_ok nfa extra) as (b & Hb & Hinv).
  exists b. unfold nfa_to_dfa. rewrite Hb. done.
Qed.

(** ** Language equivalence (C2) *)

(** C2: for every NFA, [nfa_to_dfa] returns a DFA that accepts a string
    over the NFA's alphabet iff the NFA accepts it. *)
Theorem nfa_to_dfa_language (nfa : Nfa.t) (extra : nat) :
  ∃ dfa,
    nfa_to_dfa (enough_fuel nfa + extra) nfa = Return dfa ∧
    ∀ w, Forall (λ c, c ∈ Nfa.alphabet nfa) w →
         dfa_accepts dfa w = true ↔ nfa_accepts nfa w.
Proof.
  destruct (nfa_to_dfa_returns nfa extra) as (b & _ & Hdfa & Hinv).
  exists (dfa_of_build nfa b). split; [done|].
  intros w Hw. by apply finished_language.
Qed.

Lemma nfa_to_dfa_language_witness :
  ∃ dfa,
    nfa_to_dfa (enough_fuel build_example_nfa + 0) build_example_nfa
    = Return dfa ∧
    (dfa_accepts dfa ["a"; "a"; "b"] = true
     ↔ nfa_accepts build_example_nfa ["a"; "a"; "b"]).
Proof.
  destruct (nfa_to_dfa_language build_example_nfa 0) as (dfa & Hdfa & Hlang).
  exists dfa. split; [exact Hdfa|]. apply Hlang.
  repeat constructor; simpl; set_solver.
Defined.

(** ** Totality of the produced DFA (C5) *)

(** C5: for every NFA, [nfa_to_dfa] returns a DFA whose transition mapping
    has, for every state of the DFA and every symbol of the alphabet, one
    target, itself a state of the DFA. *)
Theorem nfa_to_dfa_total (nfa : Nfa.t) (extra : nat) :
  ∃ dfa,
    nfa_to_dfa (enough_fuel nfa + extra) nfa = Return dfa ∧
    ∀ s c, s ∈ Dfa.states dfa → c ∈ Dfa.alphabet dfa →
           ∃ t, Dfa.transitions dfa !! (s, c) = Some t ∧
                t ∈ Dfa.states dfa ∧
                ∀ t', Dfa.transitions dfa !! (s, c) = Some t' → t' = t.
Proof.
  destruct (nfa_to_dfa_returns nfa extra) as (b & _ & Hdfa & Hinv).
  exists (dfa_of_build nfa b). split; [done|].
  intros s c Hs Hc.
  destruct (finished_total nfa b Hinv s c Hs Hc) as (t & Ht & Hstate).
  exists t. split_and!; [done | done | congruence].
Qed.

Lemma nfa_to_dfa_example :
  nfa_to_dfa (enough_fuel build_example_nfa + 0) build_example_nfa
  = Return dfa_example.
Proof. vm_compute. reflexivity. Qed.

Lemma nfa_to_dfa_total_witness :
  ∃ dfa,
    nfa_to_dfa (enough_fuel build_example_nfa + 0) build_example_nfa
    = Return dfa ∧
    ∃ t, Dfa.transitions dfa !! (0, "a") = Some t ∧ t ∈ Dfa.states dfa ∧
         ∀ t', Dfa.transitions dfa !! (0, "a") = Some t' → t' = t.
Proof.
  destruct (nfa_to_dfa_total build_example_nfa 0) as (dfa & Hdfa & Htotal).
  exists dfa. split; [exact Hdfa|]. apply Htotal.
  - pose proof Hdfa as Hrun. rewrite nfa_to_dfa_example in Hrun.
    injection Hrun as <-. by apply (list_elem_of_lookup_2 _ 0).
  - pose proof Hdfa as Hrun. rewrite nfa_to_dfa_example in Hrun.
    injection Hrun as <-. by apply (list_elem_of_lookup_2 _ 0).
Defined.

(** ** Input validation (C7) *)

(** C7, as stated, fails: the start state 5 of [nfa_stray_start] is not
    among its states, and [nfa_to_dfa] returns a DFA for it. *)
Lemma determinize_validates_counterexample :
  Nfa.start_state nfa_stray_start ∉ Nfa.states nfa_stray_start ∧
  (∃ dfa, nfa_to_dfa 3 nfa_stray_start = Return dfa) ∧
  ¬ determinize_validates nfa_stray_start.
Proof.
  assert (Hstray : Nfa.start_state nfa_stray_start ∉ Nfa.states nfa_stray_start).
  { simpl. rewrite elem_of_cons, elem_of_nil. intros [?|[]]. done. }
  split_and!; [done | |].
  - eexists. vm_compute. reflexivity.
  - intros [_ Hraise]. destruct (Hraise Hstray) as (fuel & e & He).
    by apply nfa_to_dfa_never_raises in He.
Qed.

(** C7, amended: [nfa_to_dfa] does not validate its input and does not
    fail; for every NFA, whether or not its start state is among its
    states, it returns a DFA and never raises. *)
Theorem nfa_to_dfa_never_fails (nfa : Nfa.t) (extra : nat) :
  (∃ dfa, nfa_to_dfa (enough_fuel nfa + extra) nfa = Return dfa) ∧
  ∀ fuel e, nfa_to_dfa fuel nfa ≠ Raise e.
Proof.
  split.
  - destruct (nfa_to_dfa_returns nfa extra) as (b & _ & Hdfa & _). eauto.
  - intros fuel e. apply nfa_to_dfa_never_raises.
Qed.

(** ** The dead state (C8) *)

(** C8: in the table [nfa_to_dfa] ends with, an index whose subset is the
    empty set is the only such index, is not an accept state of the DFA,
    and the DFA maps it to itself on every symbol of the alphabet. *)
Theorem nfa_to_dfa_dead_state (nfa : Nfa.t) (extra : nat) :
  ∃ b,
    nfa_to_dfa_build (enough_fuel nfa + extra) nfa = Return b ∧
    nfa_to_dfa (enough_fuel nfa + extra) nfa = Return (dfa_of_build nfa b) ∧
    ∀ i, subsets b !! i = Some ∅ →
         (∀ j, subsets b !! j = Some ∅ → j = i) ∧
         i ∉ Dfa.accept_states (dfa_of_build nfa b) ∧
         ∀ c, c ∈ Dfa.alphabet (dfa_of_build nfa b) →
              Dfa.transitions (dfa_of_build nfa b) !! (i, c) = Some i.
Proof.
  destruct (nfa_to_dfa_returns nfa extra) as (b & Hb & Hdfa & Hinv).
  exists b. split_and!; [done | done |].
  intros i Hi. by apply finished_dead_state.
Qed.

Lemma nfa_to_dfa_build_no_moves :
  nfa_to_dfa_build (enough_fuel nfa_no_moves + 0) nfa_no_moves
  = Return build_no_moves.
Proof. vm_compute. reflexivity. Qed.

Lemma nfa_to_dfa_dead_state_witness :
  ∃ b,
    nfa_to_dfa_build (enough_fuel nfa_no_moves + 0) nfa_no_moves = Return b ∧
    subsets b !! 1 = Some ∅ ∧
    1 ∉ Dfa.accept_states (dfa_of_build nfa_no_moves b) ∧
    Dfa.transitions (dfa_of_build nfa_no_moves b) !! (1, "b") = Some 1.
Proof.
  destruct (nfa_to_dfa_dead_state nfa_no_moves 0) as (b & Hb & _ & Hdead).
  exists b. split; [exact Hb|].
  assert (Hsub : subsets b !! 1 = Some ∅).
  { pose proof Hb as Hrun. rewrite nfa_to_dfa_build_no_moves in Hrun.
    by injection Hrun as <-. }
  destruct (Hdead 1 Hsub) as (_ & Hacc & Hloop).
  split_and!; [done | done |]. apply Hloop.
  by apply (list_elem_of_lookup_2 _ 1).
Defined.
(** * Further properties *)

(** ** simulate_tm on arbitrary machines *)

(** A run of the loop that returns has made some passes and then halted. *)
Lemma simulate_loop_returns fuel tm ms : ∀ c r,
  simulate_loop fuel tm ms c = Return r →
  ∃ k c', k < fuel ∧ passes k tm ms c = Some c' ∧
          simulate_body tm ms c' = Return (Halt r).
Proof.
  induction fuel as [|fuel IH]; intros c r; [done|].
  rewrite simulate_loop_S.
  destruct (simulate_body tm ms c) as [[c1|r1]|e|] eqn:E; cbn [bind]; try done.
  - intros (k & c' & Hk & Hpasses & Hhalt)%IH.
    exists (S k), c'. split_and!; [lia | | done]. simpl. by rewrite E.
  - intros [= ->]. exists 0, c. split_and!; [lia | done | done].
Qed.

Lemma simulate_body_halt tm ms c v trace :
  simulate_body tm ms c = Return (Halt (v, trace)) →
  trace = recorded c ∧
  (v = 1 ∨ v = 0) ∧
  (v = 1 ↔ state c ∈ Tm.accept_states tm).
Proof.
  unfold simulate_body, recorded.
  destruct (decide (state c ∈ Tm.accept_states tm)) as [Ha|Ha].
  { intros [= <- <-]. tauto. }
  assert (Hzero : 0 = 1 ↔ state c ∈ Tm.accept_states tm) by (split; done).
  destruct (decide (state c ∈ Tm.reject_states tm)) as [Hr|Hr].
  { intros [= <- <-]. tauto. }
  destruct (match ms with
            | Some m => bool_decide (m ≤ Z.of_nat (steps c))%Z
            | None => false
            end).
  { intros [= <- <-]. tauto. }
  destruct (extend_tape tm c) as [t h]. unfold item.
  destruct (t !! Z.to_nat h); simpl; [|done].
  destruct (Tm.transitions tm !! _) as [[[? ?] ?]|]; [done|].
  intros [= <- <-]. tauto.
Qed.

Lemma passes_counts k tm ms : ∀ c c',
  passes k tm ms c = Some c' →
  steps c' = steps c + k ∧
  length (configurations c') = length (configurations c) + k ∧
  (0 < k → recorded c `prefix_of` configurations c').
Proof.
  induction k as [|k IH]; intros c c'.
  - simpl. intros [= <-]. split_and!; [lia | lia | lia].
  - rewrite passes_snoc. intros (c1 & Hk & Hbody).
    destruct (IH _ _ Hk) as (Hsteps & Hlen & Hpre).
    destruct (simulate_body_cases tm ms c1) as [Hrun|[v Hv]]; [|congruence].
    rewrite simulate_body_running in Hbody by done.
    destruct (current_symbol tm c1); [|done].
    destruct (Tm.transitions tm !! _) as [[[n w] d]|]; [|done].
    injection Hbody as <-. unfold apply_transition.
    destruct (extend_tape tm c1) as [t h]. simpl. unfold recorded at 1 2.
    rewrite length_app. simpl. split_and!; [lia | lia |].
    intros _. destruct k as [|k].
    + simpl in Hk. by injection Hk as <-.
    + etrans; [apply Hpre; lia|]. by apply prefix_app_r.
Qed.

(** A pass that goes on has not used up the budget. *)
Lemma passes_within_budget k tm m c c' :
  passes (S k) tm (Some m) c = Some c' → (Z.of_nat (steps c + k) < m)%Z.
Proof.
  rewrite passes_snoc. intros (c1 & Hk & Hbody).
  apply passes_counts in Hk as (Hsteps & _).
  destruct (simulate_body_cases tm (Some m) c1) as [Hrun|[v Hv]]; [|congruence].
  destruct Hrun as (_ & _ & Hm). lia.
Qed.

Lemma simulate_body_returns tm ms c :
  head_in_reach c → ∃ it, simulate_body tm ms c = Return it.
Proof.
  intros Hreach.
  destruct (simulate_body_cases tm ms c) as [Hrun|[v Hv]]; [|eauto].
  rewrite simulate_body_running by done.
  destruct (current_symbol_is_Some tm c Hreach) as [sym ->].
  destruct (Tm.transitions tm !! _); eauto.
Qed.

Lemma simulate_loop_budget tm m r : ∀ c extra,
  head_in_reach c →
  Z.to_nat m - steps c ≤ r →
  ∃ res, simulate_loop (S (r + extra)) tm (Some m) c = Return res.
Proof.
  induction r as [|r IH]; intros c extra Hreach Hr;
    rewrite simulate_loop_S.
  - destruct (simulate_body_cases tm (Some m) c) as [Hrun|[v Hv]].
    + destruct Hrun as (_ & _ & Hm). lia.
    + rewrite Hv. cbn [bind]. eauto.
  - destruct (simulate_body_returns tm (Some m) c Hreach) as [[c1|r1] E];
      rewrite E; cbn [bind]; [|eauto].
    apply IH; [by eapply simulate_body_in_reach|].
    assert (Hc : passes 1 tm (Some m) c = Some c1) by (simpl; by rewrite E).
    apply passes_counts in Hc as (Hsteps & _). lia.
Qed.

(** X1: With a step budget [simulate_tm] returns, for every machine and input,
    after at most [max_steps] transitions; the trace it returns has at most
    [max_steps + 1] entries. *)
Theorem simulate_tm_budget_halts (tm : Tm.t) (input_string : list string)
    (m : Z) (extra : nat) :
  ∃ verdict trace,
    simulate_tm (Z.to_nat m + 1 + extra) tm input_string (Some m)
    = Return (verdict, trace) ∧
    length trace ≤ Z.to_nat m + 1.
Proof.
  destruct (simulate_loop_budget tm m (Z.to_nat m)
              (initial_config tm input_string) extra) as [[v trace] Hres].
  { apply initial_config_in_reach. }
  { simpl. lia. }
  exists v, trace. unfold simulate_tm.
  replace (Z.to_nat m + 1 + extra) with (S (Z.to_nat m + extra)) by lia.
  split; [done|].
  apply simulate_loop_returns in Hres as (k & c & _ & Hk & Hhalt).
  apply simulate_body_halt in Hhalt as (-> & _).
  pose proof (passes_counts _ _ _ _ _ Hk) as (_ & Hlen & _).
  unfold recorded. rewrite length_app, Hlen. simpl.
  destruct k as [|k]; [lia|].
  apply passes_within_budget in Hk. simpl in Hk. lia.
Qed.

(** X2: No run of [simulate_tm] raises, whatever the machine, the input, the
    budget and the fuel: the tape subscript is always in range. *)
Theorem simulate_tm_never_raises (fuel : nat) (tm : Tm.t)
    (input_string : list string) (max_steps : option Z) (e : exn) :
  simulate_tm fuel tm input_string max_steps ≠ Raise e.
Proof. apply simulate_loop_never_raises, initial_config_in_reach. Qed.

(** X3: What [simulate_tm] returns: the verdict is 1 exactly when the run
    stopped in an accept state and 0 otherwise, and the trace holds one
    configuration per pass of the loop, the first being the initial
    configuration. *)
Theorem simulate_tm_result (fuel : nat) (tm : Tm.t)
    (input_string : list string) (max_steps : option Z)
    (verdict : nat) (trace : list string) :
  simulate_tm fuel tm input_string max_steps = Return (verdict, trace) →
  ∃ k c,
    k < fuel ∧
    passes k tm max_steps (initial_config tm input_string) = Some c ∧
    trace = configurations c ++
            [format_configuration (state c) (tape c) (head c)] ∧
    length trace = k + 1 ∧
    (verdict = 1 ∨ verdict = 0) ∧
    (verdict = 1 ↔ state c ∈ Tm.accept_states tm) ∧
    trace !! 0 = Some (format_configuration (Tm.start_state tm)
                         (input_string ++ [Tm.blank tm]) 0).
Proof.
  unfold simulate_tm.
  intros (k & c & Hlt & Hk & Hhalt)%simulate_loop_returns.
  apply simulate_body_halt in Hhalt as (-> & Hv & Hacc).
  pose proof (passes_counts _ _ _ _ _ Hk) as (_ & Hlen & Hpre).
  exists k, c. split_and!; [done | done | done | | done | done |].
  - unfold recorded. rewrite length_app, Hlen. simpl. lia.
  - destruct k as [|k].
    + simpl in Hk. by injection Hk as <-.
    + destruct Hpre as [rest Hrest]; [lia|].
      unfold recorded at 1. rewrite Hrest. done.
Qed.

Lemma simulate_tm_result_witness :
  ∃ k c,
    k < 5 ∧
    passes k (dfa_to_tm_decider dfa_example) None
           (initial_config (dfa_to_tm_decider dfa_example) ["a"; "a"; "b"])
    = Some c ∧
    state c ∈ Tm.accept_states (dfa_to_tm_decider dfa_example).
Proof.
  destruct (simulate_tm_result 5 (dfa_to_tm_decider dfa_example)
              ["a"; "a"; "b"] None 1
              ["state=0, tape=aab_, head pos=0";
               "state=1, tape=aab_, head pos=1";
               "state=1, tape=aab_, head pos=2";
               "state=2, tape=aab_, head pos=3";
               "state=3, tape=aab_, head pos=4"])
    as (k & c & Hk & Hpasses & _ & _ & _ & Hacc & _).
  { vm_compute. reflexivity. }
  exists k, c. split_and!; [done | done | by apply Hacc].
Defined.

(** X4: After [k] passes on any machine the step counter is [k], the head has
    moved at most [k] cells from cell 0 and is at most one cell outside the
    tape, and the tape, which never shrinks, has grown by at most [k]
    cells. *)
Theorem simulate_tm_tape_bounds (tm : Tm.t) (input_string : list string)
    (max_steps : option Z) (k : nat) (c : config) :
  passes k tm max_steps (initial_config tm input_string) = Some c →
  steps c = k ∧
  (- Z.of_nat k ≤ head c ≤ Z.of_nat k)%Z ∧
  (-1 ≤ head c ≤ Z.of_nat (length (tape c)))%Z ∧
  length input_string + 1 ≤ length (tape c) ≤ length input_string + 1 + k.
Proof.
  revert c. induction k as [|k IH]; intros c.
  - simpl. intros [= <-]. simpl. rewrite length_app. simpl. lia.
  - intros Hk. pose proof Hk as Hreach.
    apply passes_in_reach in Hreach; [|apply initial_config_in_reach].
    apply passes_snoc in Hk as (c1 & Hk & Hbody).
    destruct (IH _ Hk) as (Hsteps & Hhead & Hreach1 & Hlen).
    destruct (simulate_body_cases tm max_steps c1) as [Hrun|[v Hv]];
      [|congruence].
    rewrite simulate_body_running in Hbody by done.
    destruct (current_symbol tm c1); [|done].
    destruct (Tm.transitions tm !! _) as [[[n w] d]|]; [|done].
    injection Hbody as <-. unfold head_in_reach in Hreach.
    revert Hreach. unfold apply_transition, extend_tape.
    repeat destruct (decide _); simpl in *;
      rewrite ?length_insert, ?length_app; simpl; lia.
Qed.

Lemma simulate_tm_tape_bounds_witness :
  let c := {| state := 1; tape := ["a"; "a"; "b"; "_"]; head := 2; steps := 2;
              configurations := ["state=0, tape=aab_, head pos=0";
                                 "state=1, tape=aab_, head pos=1"] |} in
  steps c = 2 ∧ (- 2 ≤ head c ≤ 2)%Z ∧
  (-1 ≤ head c ≤ Z.of_nat (length (tape c)))%Z ∧
  3 + 1 ≤ length (tape c) ≤ 3 + 1 + 2.
Proof.
  intros c.
  apply (simulate_tm_tape_bounds (dfa_to_tm_decider dfa_example)
           ["a"; "a"; "b"] None 2 c).
  vm_compute. reflexivity.
Defined.

(** ** The table of dfa_to_tm_decider, for any DFA *)

(** X5: The table has an entry at [(s, c)] exactly when [s] is in the DFA's
    state list and [c] is a symbol of the tape alphabet. *)
Theorem decider_table_domain (dfa : Dfa.t) (s : nat) (c : string) :
  is_Some (Tm.transitions (dfa_to_tm_decider dfa) !! (s, c)) ↔
  s ∈ Dfa.states dfa ∧ c ∈ TAPE_ALPHABET.
Proof.
  assert (Htape : c ∈ TAPE_ALPHABET ↔ c = "_" ∨ c ∈ INPUT_ALPHABET).
  { unfold TAPE_ALPHABET, INPUT_ALPHABET.
    rewrite !elem_of_cons, elem_of_nil. tauto. }
  rewrite decider_lookup, Htape. unfold decider_entry.
  destruct (decide (s ∈ Dfa.states dfa)) as [Hs|Hs].
  - destruct (decide (c = "_")) as [->|Hc]; [split; [tauto | eauto]|].
    destruct (decide (c ∈ INPUT_ALPHABET)) as [Hin|Hin].
    + split; [tauto | eauto].
    + split; [by intros [? ?] | tauto].
  - split; [by intros [? ?] | tauto].
Qed.

(** X6: Every entry of the table writes back the symbol it reads and moves
    right; its target is the reject state, or the accept state on the blank
    in an accepting DFA state, or the DFA's own target on a declared
    symbol. *)
Theorem decider_table_shape (dfa : Dfa.t) (s n : nat) (c w d : string) :
  Tm.transitions (dfa_to_tm_decider dfa) !! (s, c) = Some (n, w, d) →
  w = c ∧ d = "R" ∧
  (n = decider_reject_state dfa ∨
   (c = Tm.blank (dfa_to_tm_decider dfa) ∧ n = decider_accept_state dfa ∧
    s ∈ Dfa.accept_states dfa) ∨
   (c ∈ INPUT_ALPHABET ∧ c ∈ Dfa.alphabet dfa ∧
    Dfa.transitions dfa !! (s, c) = Some n)).
Proof.
  rewrite decider_lookup.
  unfold decider_entry, decider_next_blank, decider_next.
  destruct (decide (s ∈ Dfa.states dfa)); [|done].
  destruct (decide (c = "_")) as [->|Hc].
  - destruct (decide (s ∈ list_to_set (Dfa.accept_states dfa))) as [Ha|Ha];
      intros [= <- <- <-]; split_and!; auto.
    right; left. split_and!; [done | done | by apply elem_of_list_to_set in Ha].
  - destruct (decide (c ∈ INPUT_ALPHABET)); [|done].
    destruct (decide (c ∈ Dfa.alphabet dfa));
      [destruct (Dfa.transitions dfa !! (s, c)) eqn:E|];
      intros [= <- <- <-]; split_and!; auto.
Qed.

Lemma decider_table_shape_witness :
  "a" = "a" ∧ "R" = "R" ∧
  (1 = decider_reject_state dfa_example ∨
   ("a" = Tm.blank (dfa_to_tm_decider dfa_example) ∧
    1 = decider_accept_state dfa_example ∧
    0 ∈ Dfa.accept_states dfa_example) ∨
   ("a" ∈ INPUT_ALPHABET ∧ "a" ∈ Dfa.alphabet dfa_example ∧
    Dfa.transitions dfa_example !! (0, "a") = Some 1)).
Proof.
  apply (decider_table_shape dfa_example 0 1 "a" "a" "R").
  vm_compute. reflexivity.
Defined.

(** X7: A symbol of [INPUT_ALPHABET] that the DFA does not declare in its
    alphabet is routed to the reject state, whatever the DFA's transition
    mapping holds for it. *)
Theorem decider_undeclared_symbol (dfa : Dfa.t) (s : nat) (c : string) :
  s ∈ Dfa.states dfa →
  c ∈ INPUT_ALPHABET →
  c ∉ Dfa.alphabet dfa →
  Tm.transitions (dfa_to_tm_decider dfa) !! (s, c)
  = Some (decider_reject_state dfa, c, "R").
Proof.
  intros Hs Hc Hundeclared. rewrite decider_lookup.
  unfold decider_entry, decider_next.
  rewrite decide_True by done.
  rewrite decide_False by (intros ->; vm_compute in Hc; set_solver).
  rewrite decide_True by done. by rewrite decide_False.
Qed.

Lemma decider_undeclared_symbol_witness :
  Dfa.transitions dfa_undeclared_b !! (0, "b") = Some 0 ∧
  Tm.transitions (dfa_to_tm_decider dfa_undeclared_b) !! (0, "b")
  = Some (2, "b", "R").
Proof.
  split; [by vm_compute|].
  apply (decider_undeclared_symbol dfa_undeclared_b 0 "b").
  - simpl. apply elem_of_cons. by left.
  - unfold INPUT_ALPHABET. apply elem_of_cons. right. apply elem_of_cons. by left.
  - simpl. rewrite elem_of_cons, elem_of_nil. by intros [?|[]].
Defined.

(** ** epsilon_closure and move_nfa on their own *)

Lemma epsilon_closure_total (nfa : Nfa.t) (state_set : gset nat)
    (extra : nat) :
  ∃ X,
    epsilon_closure (size state_set + 2 * size (nfa_targets nfa) + extra)
                    nfa state_set = Return X ∧
    is_closure nfa state_set X.
Proof.
  destruct (epsilon_closure_returns nfa
              (size state_set + 2 * size (nfa_targets nfa) + extra) state_set)
    as [X HX]; [lia|].
  exists X. split; [done|]. by apply epsilon_closure_correct in HX.
Qed.

(** X8: With fuel for [len(state_set) + 2 * (number of transition targets)]
    pops, [epsilon_closure] returns exactly the states that an [eps] chain
    reaches from a state of [state_set], those states themselves included. *)
Theorem epsilon_closure_reachable (nfa : Nfa.t) (state_set : gset nat)
    (extra : nat) :
  ∃ X,
    epsilon_closure (size state_set + 2 * size (nfa_targets nfa) + extra)
                    nfa state_set = Return X ∧
    state_set ⊆ X ∧
    ∀ q, q ∈ X ↔ ∃ p, p ∈ state_set ∧ rtc (eps_step nfa) p q.
Proof.
  destruct (epsilon_closure_total nfa state_set extra) as (X & HX & Hcl).
  exists X. split; [done|]. split; [|done].
  intros p Hp. apply Hcl. by exists p.
Qed.

Lemma epsilon_closure_loop_no_eps nfa fuel : ∀ closure stack,
  (∀ p, p ∈ stack → Nfa.transitions nfa !! (p, "eps") = None) →
  length stack ≤ fuel →
  epsilon_closure_loop fuel nfa closure stack = Return closure.
Proof.
  induction fuel as [|fuel IH]; intros cl [|s st] Hnone Hlen; simpl in *;
    try done; try lia.
  rewrite Hnone by (by left). apply IH; [|lia].
  intros p Hp. apply Hnone. by right.
Qed.

(** X9: When no state of [state_set] has an [eps] entry, [epsilon_closure]
    returns [state_set] unchanged after one pop per state; for the empty
    set it returns the empty set without any pop. *)
Theorem epsilon_closure_no_eps (nfa : Nfa.t) (state_set : gset nat)
    (extra : nat) :
  (∀ p, p ∈ state_set → Nfa.transitions nfa !! (p, "eps") = None) →
  epsilon_closure (size state_set + extra) nfa state_set = Return state_set.
Proof.
  intros Hnone. apply epsilon_closure_loop_no_eps.
  - intros p Hp. apply Hnone.
    by rewrite elem_of_reverse, elem_of_elements in Hp.
  - rewrite length_reverse. change (length (elements state_set))
      with (size state_set). lia.
Qed.

Lemma epsilon_closure_no_eps_witness :
  epsilon_closure (size ({[1; 2]} : gset nat) + 0) nfa_one_eps {[1; 2]}
  = Return {[1; 2]}.
Proof.
  apply (epsilon_closure_no_eps nfa_one_eps {[1; 2]} 0).
  intros p Hp. simpl.
  assert (p = 1 ∨ p = 2) as [-> | ->] by set_solver; by vm_compute.
Defined.

(** X10: [epsilon_closure] is idempotent: run on a set it returned, it returns
    that set again. *)
Theorem epsilon_closure_idempotent (nfa : Nfa.t) (state_set X : gset nat)
    (fuel extra : nat) :
  epsilon_closure fuel nfa state_set = Return X →
  epsilon_closure (size X + 2 * size (nfa_targets nfa) + extra) nfa X
  = Return X.
Proof.
  intros HX%epsilon_closure_correct.
  destruct (epsilon_closure_total nfa X extra) as (X' & -> & HX').
  f_equal. apply set_eq. intros q. rewrite (HX' q). split.
  - intros (p & (p0 & Hp0 & Hp0p)%HX & Hpq). apply HX.
    exists p0. split; [done|]. by etrans.
  - intros Hq. by exists q.
Qed.

Lemma epsilon_closure_idempotent_witness :
  epsilon_closure (size ({[0; 1]} : gset nat)
                   + 2 * size (nfa_targets nfa_one_eps) + 0)
                  nfa_one_eps {[0; 1]}
  = Return {[0; 1]}.
Proof.
  apply (epsilon_closure_idempotent nfa_one_eps {[0]} {[0; 1]} 3 0).
  vm_compute. reflexivity.
Defined.

(** X11: [move_nfa] returns exactly the states listed under [(p, symbol)] for
    some state [p] of [state_set]; a state without such an entry
    contributes nothing. *)
Theorem move_nfa_members (nfa : Nfa.t) (state_set : gset nat)
    (symbol : string) (q : nat) :
  q ∈ move_nfa nfa state_set symbol ↔
  ∃ p next_states,
    p ∈ state_set ∧
    Nfa.transitions nfa !! (p, symbol) = Some next_states ∧
    q ∈ next_states.
Proof.
  rewrite elem_of_move_nfa. unfold sym_step. naive_solver.
Qed.

(** X12: [move_nfa] of a union is the union of the moves, and the move of the
    empty set is empty. *)
Theorem move_nfa_union (nfa : Nfa.t) (S1 S2 : gset nat) (symbol : string) :
  move_nfa nfa (S1 ∪ S2) symbol
  = move_nfa nfa S1 symbol ∪ move_nfa nfa S2 symbol ∧
  move_nfa nfa ∅ symbol = ∅.
Proof.
  split; apply set_eq; intros q;
    rewrite ?elem_of_union, !elem_of_move_nfa.
  - split.
    + intros (p & [Hp|Hp]%elem_of_union & Hstep); [left | right]; eauto.
    + intros [(p & Hp & Hstep)|(p & Hp & Hstep)]; exists p;
        (split; [apply elem_of_union; auto | done]).
  - split; [|by intros []%elem_of_empty].
    by intros (p & []%elem_of_empty & _).
Qed.

(** ** What nfa_to_dfa keeps true at every assignment *)

Lemma table_run_snoc tr w : ∀ q c,
  table_run tr q (w ++ [c]) =
    match table_run tr q w with
    | Some q' => tr !! (q', c)
    | None => None
    end.
Proof.
  induction w as [|a w IH]; intros q c; simpl.
  - by destruct (tr !! (q, c)).
  - destruct (tr !! (q, a)); [apply IH | done].
Qed.

Lemma table_run_mono (tr tr' : gmap (nat * string) nat) w : ∀ q j,
  tr ⊆ tr' → table_run tr q w = Some j → table_run tr' q w = Some j.
Proof.
  induction w as [|a w IH]; intros q j Hsub; simpl; [done|].
  destruct (tr !! (q, a)) as [q'|] eqn:E; [|done].
  rewrite (lookup_weaken _ _ _ _ E Hsub). by apply IH.
Qed.

Lemma dfa_run_table_run dfa w : ∀ q,
  dfa_run dfa q w = table_run (Dfa.transitions dfa) q w.
Proof.
  induction w as [|a w IH]; intros q; simpl; [done|].
  destruct (Dfa.transitions dfa !! (q, a)); [apply IH | done].
Qed.

Section stable.
Variable nfa : Nfa.t.
Variable fuel : nat.

Lemma symbol_step_stable X i b c b' :
  build_stable fuel nfa b →
  subsets b !! i = Some X →
  c ∈ Nfa.alphabet nfa →
  symbol_step fuel nfa X i b c = Return b' →
  build_stable fuel nfa b' ∧
  subsets b `prefix_of` subsets b' ∧
  dfa_accept_states b' = dfa_accept_states b.
Proof.
  intros (Hpos & Hidx & Hedge & Hreach) HX Hc.
  unfold symbol_step. fold (target_closure fuel nfa X c).
  destruct (target_closure fuel nfa X c) as [Y|e|] eqn:HY; cbn [bind];
    [|done..].
  destruct (Hreach i) as (wi & Hwi & Hrun); [by eapply lookup_lt_Some|].
  destruct (decide (is_Some (subset_to_index b !! Y))) as [[j Hj]|Hnew];
    unfold subscript.
  - rewrite Hj. cbn [bind]. intros [= <-].
    assert (Hsub : dfa_transitions b ⊆ <[(i, c):=j]> (dfa_transitions b)).
    { destruct (dfa_transitions b !! (i, c)) as [j0|] eqn:E.
      - destruct (Hedge _ _ _ E) as (_ & X0 & Y0 & HX0 & HY0 & Hj0).
        assert (j0 = j) as -> by congruence. by rewrite insert_id.
      - by apply insert_subseteq. }
    split_and!; [| done | done].
    split_and!; simpl; [done | done | |].
    + intros i' c' j'. destruct (decide ((i, c) = (i', c'))) as [[= <- <-]|Hne].
      * rewrite lookup_insert_eq. intros [= <-]. split; [done|].
        by exists X, Y.
      * rewrite lookup_insert_ne by done. apply Hedge.
    + intros j' Hj'. destruct (Hreach j' Hj') as (w & Hw & Hrunw).
      exists w. split; [done|]. by eapply table_run_mono.
  - rewrite lookup_insert_eq. cbn [bind]. intros [= <-].
    assert (Hfresh : dfa_transitions b !! (i, c) = None).
    { destruct (dfa_transitions b !! (i, c)) as [j0|] eqn:E; [|done].
      destruct (Hedge _ _ _ E) as (_ & X0 & Y0 & HX0 & HY0 & Hj0).
      exfalso. apply Hnew. exists j0. congruence. }
    assert (Hsub : dfa_transitions b
                   ⊆ <[(i, c):=length (subsets b)]> (dfa_transitions b))
      by (by apply insert_subseteq).
    split_and!; [| by exists [Y] | done].
    split_and!; simpl.
    + rewrite length_app. simpl. lia.
    + intros X' j'. destruct (decide (Y = X')) as [<-|Hne].
      * rewrite lookup_insert_eq. intros [= <-].
        by rewrite lookup_app_r, Nat.sub_diag by lia.
      * rewrite lookup_insert_ne by done. intros Hj'.
        by apply lookup_app_l_Some, Hidx.
    + intros i' c' j'. destruct (decide ((i, c) = (i', c'))) as [[= <- <-]|Hne].
      * rewrite lookup_insert_eq. intros [= <-]. split; [done|].
        exists X, Y. split_and!; [by apply lookup_app_l_Some | done |].
        by rewrite lookup_insert_eq.
      * rewrite lookup_insert_ne by done.
        intros (Hc' & X0 & Y0 & HX0 & HY0 & Hj0)%Hedge. split; [done|].
        exists X0, Y0. split_and!; [by apply lookup_app_l_Some | done |].
        rewrite lookup_insert_ne; [done|]. intros <-. apply Hnew. by exists j'.
    + intros j'. rewrite length_app. simpl. intros Hj'.
      destruct (decide (j' < length (subsets b))) as [Hlt|Hge].
      * destruct (Hreach j' Hlt) as (w & Hw & Hrunw).
        exists w. split; [done|]. by eapply table_run_mono.
      * assert (j' = length (subsets b)) as -> by lia.
        exists (wi ++ [c]). split.
        -- apply Forall_app. split; [done|]. by apply Forall_singleton.
        -- rewrite table_run_snoc.
           rewrite (table_run_mono _ _ _ _ _ Hsub Hrun).
           by rewrite lookup_insert_eq.
Qed.

Lemma for_symbols_stable X i syms : ∀ b b',
  build_stable fuel nfa b →
  subsets b !! i = Some X →
  (∀ c, c ∈ syms → c ∈ Nfa.alphabet nfa) →
  for_symbols fuel nfa X i syms b = Return b' →
  build_stable fuel nfa b' ∧
  subsets b `prefix_of` subsets b' ∧
  dfa_accept_states b' = dfa_accept_states b.
Proof.
  induction syms as [|c syms IH]; intros b b' Hstable HX Hsyms; simpl.
  - by intros [= <-].
  - destruct (symbol_step fuel nfa X i b c) as [b1|e|] eqn:E; cbn [bind];
      [|done..].
    apply symbol_step_stable in E as (Hstable1 & Hpre1 & Hacc1);
      [| done | done | apply Hsyms; by left].
    intros (Hstable2 & Hpre2 & Hacc2)%IH; [| done | |].
    + split_and!; [done | by etrans | congruence].
    + destruct Hpre1 as [k ->]. by apply lookup_app_l_Some.
    + intros c' Hc'. apply Hsyms. by right.
Qed.

Lemma nfa_to_dfa_loop_stable n : ∀ index b b',
  build_stable fuel nfa b →
  nfa_to_dfa_loop fuel n nfa index b = Return b' →
  build_stable fuel nfa b'.
Proof.
  induction n as [|n IH]; intros index b b' Hstable; simpl;
    destruct (decide (index < length (subsets b))) as [Hlt|Hge];
    try done; try (by intros [= <-]).
  destruct (lookup_lt_is_Some_2 (subsets b) index Hlt) as [X HX].
  unfold item. rewrite HX. cbn [bind].
  destruct (for_symbols fuel nfa X index (Nfa.alphabet nfa) b)
    as [b1|e|] eqn:E; cbn [bind]; [|done..].
  apply for_symbols_stable in E as (Hstable1 & _ & _); [| done | done | done].
  apply IH. exact Hstable1.
Qed.

Lemma nfa_to_dfa_build_stable b :
  nfa_to_dfa_build fuel nfa = Return b → build_stable fuel nfa b.
Proof.
  unfold nfa_to_dfa_build.
  destruct (epsilon_closure fuel nfa {[Nfa.start_state nfa]})
    as [X0|e|]; cbn [bind]; [|done..].
  apply nfa_to_dfa_loop_stable. split_and!; simpl.
  - lia.
  - intros X j. destruct (decide (X0 = X)) as [<-|Hne].
    + rewrite lookup_insert_eq. by intros [= <-].
    + by rewrite lookup_insert_ne, lookup_empty.
  - intros i c j. by rewrite lookup_empty.
  - intros j Hj. assert (j = 0) as -> by lia. by exists [].
Qed.
End stable.

(** ** The DFA nfa_to_dfa returns *)

Lemma nfa_to_dfa_finished (nfa : Nfa.t) (extra : nat) :
  ∃ b, nfa_to_dfa (enough_fuel nfa + extra) nfa = Return (dfa_of_build nfa b) ∧
       loop_inv nfa (length (subsets b)) b ∧
       build_stable (enough_fuel nfa + extra) nfa b.
Proof.
  destruct (nfa_to_dfa_returns nfa extra) as (b & Hb & Hdfa & Hinv).
  exists b. split_and!; [done | done |]. by apply nfa_to_dfa_build_stable.
Qed.

(** X13: The DFA has the states [0 .. N-1] with [1 ≤ N ≤ 2 ^ u], where [u]
    counts the start state and the transition targets of the NFA; its
    start state is 0, its alphabet is the NFA's, and its accept states are
    listed in increasing order, without repetition, among its states. *)
Theorem nfa_to_dfa_structure (nfa : Nfa.t) (extra : nat) :
  ∃ dfa N,
    nfa_to_dfa (enough_fuel nfa + extra) nfa = Return dfa ∧
    Dfa.states dfa = seq 0 N ∧
    1 ≤ N ≤ 2 ^ size (nfa_universe nfa) ∧
    Dfa.start_state dfa = 0 ∧
    Dfa.alphabet dfa = Nfa.alphabet nfa ∧
    Sorted (≤) (Dfa.accept_states dfa) ∧
    NoDup (Dfa.accept_states dfa) ∧
    Dfa.accept_states dfa ⊆ Dfa.states dfa.
Proof.
  destruct (nfa_to_dfa_finished nfa extra) as (b & Hdfa & Hinv & Hstable).
  exists (dfa_of_build nfa b), (length (subsets b)).
  destruct Hinv as (Htable & _ & _ & Hacc). destruct Hstable as (Hpos & _).
  split_and!; simpl; try done.
  - by apply table_ok_length.
  - apply Sorted_merge_sort. apply _.
  - rewrite merge_sort_Permutation. apply NoDup_elements.
  - intros i. rewrite merge_sort_Permutation, elem_of_elements, (Hacc i).
    intros [Hi _]. apply elem_of_seq. lia.
Qed.

(** X14: The transition mapping of the DFA has an entry at [(i, c)] exactly
    when [i] is a state and [c] a symbol of the alphabet, and every entry
    leads to a state. *)
Theorem nfa_to_dfa_entries (nfa : Nfa.t) (extra : nat) :
  ∃ dfa,
    nfa_to_dfa (enough_fuel nfa + extra) nfa = Return dfa ∧
    (∀ i c, is_Some (Dfa.transitions dfa !! (i, c)) ↔
            i ∈ Dfa.states dfa ∧ c ∈ Dfa.alphabet dfa) ∧
    (∀ i c j, Dfa.transitions dfa !! (i, c) = Some j → j ∈ Dfa.states dfa).
Proof.
  destruct (nfa_to_dfa_finished nfa extra) as (b & Hdfa & Hinv & Hstable).
  exists (dfa_of_build nfa b). split; [done|].
  destruct Hstable as (_ & Hidx & Hedge & _). split.
  - intros i c. split.
    + intros [j Hj]. simpl in *.
      destruct (Hedge _ _ _ Hj) as (Hc & X & Y & HX & _ & _).
      split; [|done]. apply elem_of_seq. apply lookup_lt_Some in HX. lia.
    + intros [Hi Hc].
      destruct (finished_total nfa b Hinv i c Hi Hc) as (t & Ht & _). eauto.
  - intros i c j Hj. simpl in *.
    destruct (Hedge _ _ _ Hj) as (_ & X & Y & _ & _ & HY%Hidx).
    apply elem_of_seq. apply lookup_lt_Some in HY. lia.
Qed.

Lemma nfa_to_dfa_entries_witness :
  is_Some (Dfa.transitions dfa_example !! (2, "b")) ∧
  0 ∈ Dfa.states dfa_example.
Proof.
  destruct (nfa_to_dfa_entries build_example_nfa 0)
    as (dfa & Hdfa & Hkeys & Htargets).
  rewrite nfa_to_dfa_example in Hdfa.
  assert (dfa = dfa_example) as -> by congruence.
  split.
  - apply Hkeys. split.
    + by apply (list_elem_of_lookup_2 _ 2).
    + by apply (list_elem_of_lookup_2 _ 1).
  - apply (Htargets 2 "b"). by vm_compute.
Defined.

(** X15: Every state of the DFA is reached from its start state by some word
    over the alphabet. *)
Theorem nfa_to_dfa_reachable (nfa : Nfa.t) (extra : nat) :
  ∃ dfa,
    nfa_to_dfa (enough_fuel nfa + extra) nfa = Return dfa ∧
    ∀ j, j ∈ Dfa.states dfa →
         ∃ w, Forall (λ c, c ∈ Dfa.alphabet dfa) w ∧
              dfa_run dfa (Dfa.start_state dfa) w = Some j.
Proof.
  destruct (nfa_to_dfa_finished nfa extra) as (b & Hdfa & _ & Hstable).
  exists (dfa_of_build nfa b). split; [done|].
  destruct Hstable as (_ & _ & _ & Hreach).
  intros j Hj. simpl in Hj. apply elem_of_seq in Hj.
  destruct (Hreach j) as (w & Hw & Hrun); [lia|].
  exists w. split; [done|]. by rewrite dfa_run_table_run.
Qed.

Lemma nfa_to_dfa_reachable_witness :
  ∃ w, Forall (λ c, c ∈ Dfa.alphabet dfa_example) w ∧
       dfa_run dfa_example (Dfa.start_state dfa_example) w = Some 2.
Proof.
  destruct (nfa_to_dfa_reachable build_example_nfa 0) as (dfa & Hdfa & Hreach).
  rewrite nfa_to_dfa_example in Hdfa. injection Hdfa as <-.
  apply Hreach. by apply (list_elem_of_lookup_2 _ 2).
Defined.

(** X16: Two words after which the NFA can be in the same states lead the DFA
    to the same state: equal subsets are one DFA state. *)
Theorem nfa_to_dfa_canonical (nfa : Nfa.t) (extra : nat) :
  ∃ dfa,
    nfa_to_dfa (enough_fuel nfa + extra) nfa = Return dfa ∧
    ∀ w1 w2,
      Forall (λ c, c ∈ Nfa.alphabet nfa) w1 →
      Forall (λ c, c ∈ Nfa.alphabet nfa) w2 →
      (∀ q, nfa_reach nfa w1 q ↔ nfa_reach nfa w2 q) →
      ∃ j, dfa_run dfa (Dfa.start_state dfa) w1 = Some j ∧
           dfa_run dfa (Dfa.start_state dfa) w2 = Some j.
Proof.
  destruct (nfa_to_dfa_finished nfa extra) as (b & Hdfa & Hinv & _).
  exists (dfa_of_build nfa b). split; [done|].
  intros w1 w2 Hw1 Hw2 Hsame.
  destruct (finished_tracks nfa b Hinv w1 Hw1) as (j1 & X1 & Hrun1 & HX1 & H1).
  destruct (finished_tracks nfa b Hinv w2 Hw2) as (j2 & X2 & Hrun2 & HX2 & H2).
  assert (X1 = X2) as ->.
  { apply set_eq. intros q. by rewrite (H1 q), (H2 q). }
  destruct Hinv as ((_ & Hbij & _) & _).
  apply Hbij in HX1, HX2. assert (j1 = j2) as -> by congruence.
  exists j2. by split.
Qed.

Lemma example_same_reach q :
  nfa_reach build_example_nfa ["a"] q ↔
  nfa_reach build_example_nfa ["a"; "a"] q.
Proof.
  destruct (nfa_to_dfa_returns build_example_nfa 0) as (b & _ & Hdfa & Hinv).
  rewrite nfa_to_dfa_example in Hdfa.
  assert (Heq : dfa_example = dfa_of_build build_example_nfa b)
    by congruence.
  destruct (finished_tracks _ b Hinv ["a"]) as (j1 & X1 & Hrun1 & HX1 & H1).
  { repeat constructor. }
  destruct (finished_tracks _ b Hinv ["a"; "a"])
    as (j2 & X2 & Hrun2 & HX2 & H2).
  { repeat constructor. }
  rewrite <- Heq in Hrun1, Hrun2.
  vm_compute in Hrun1, Hrun2.
  injection Hrun1 as <-. injection Hrun2 as <-.
  assert (X1 = X2) as -> by congruence.
  by rewrite <- (H1 q), <- (H2 q).
Qed.

Lemma nfa_to_dfa_canonical_witness :
  ∃ dfa,
    nfa_to_dfa (enough_fuel build_example_nfa + 0) build_example_nfa
    = Return dfa ∧
    ∃ j, dfa_run dfa (Dfa.start_state dfa) ["a"] = Some j ∧
         dfa_run dfa (Dfa.start_state dfa) ["a"; "a"] = Some j.
Proof.
  destruct (nfa_to_dfa_canonical build_example_nfa 0) as (dfa & Hdfa & Hsame).
  exists dfa. split; [exact Hdfa|].
  apply Hsame; [| | apply example_same_reach];
    repeat constructor; simpl; apply elem_of_cons; by left.
Defined.

(** ** The whole pipeline of main *)

Lemma dfa_of_build_well_formed nfa fuel b :
  build_stable fuel nfa b →
  Nfa.alphabet nfa ⊆ INPUT_ALPHABET →
  dfa_well_formed (dfa_of_build nfa b).
Proof.
  intros (Hpos & Hidx & Hedge & _) Halpha.
  unfold dfa_well_formed, decider_accept_state, decider_reject_state.
  split_and!; simpl.
  - rewrite length_seq. intros Hi%elem_of_seq. lia.
  - rewrite length_seq. intros Hi%elem_of_seq. lia.
  - apply elem_of_seq. lia.
  - intros i c j _ _ Hj.
    destruct (Hedge _ _ _ Hj) as (_ & X & Y & _ & _ & HY%Hidx).
    apply elem_of_seq. apply lookup_lt_Some in HY. lia.
  - done.
Qed.

(** X17: For an NFA over symbols of [INPUT_ALPHABET] and a string over its
    alphabet, converting the NFA with [nfa_to_dfa], building the decider
    with [dfa_to_tm_decider] and running [simulate_tm] without budget
    returns 1 when the NFA accepts the string and 0 when it does not. *)
Theorem pipeline_decides_nfa (nfa : Nfa.t) (w : list string) (extra : nat) :
  Nfa.alphabet nfa ⊆ INPUT_ALPHABET →
  Forall (λ c, c ∈ Nfa.alphabet nfa) w →
  ∃ dfa verdict trace,
    nfa_to_dfa (enough_fuel nfa + extra) nfa = Return dfa ∧
    simulate_tm (length w + 2 + extra) (dfa_to_tm_decider dfa) w None
    = Return (verdict, trace) ∧
    (verdict = 1 ∨ verdict = 0) ∧
    (verdict = 1 ↔ nfa_accepts nfa w).
Proof.
  intros Halpha Hw.
  destruct (nfa_to_dfa_finished nfa extra) as (b & Hdfa & Hinv & Hstable).
  pose proof (dfa_of_build_well_formed _ _ _ Hstable Halpha) as Hwf.
  pose proof Hwf as (_ & _ & Hstart & _).
  destruct (decider_tracks _ Hwf w [] (Dfa.start_state (dfa_of_build nfa b))
              0 [] extra Hstart Hw) as [trace Htrace].
  pose proof (finished_language nfa b Hinv w Hw) as Hlang.
  unfold dfa_accepts in Hlang.
  exists (dfa_of_build nfa b). eexists. exists trace.
  split_and!; [done | exact Htrace | |].
  - destruct (dfa_run _ _ w); [destruct (bool_decide _)|]; auto.
  - rewrite <- Hlang.
    destruct (dfa_run _ _ w); [destruct (bool_decide _)|]; split; done.
Qed.

Lemma pipeline_decides_nfa_witness :
  ∃ dfa verdict trace,
    nfa_to_dfa (enough_fuel build_example_nfa + 0) build_example_nfa
    = Return dfa ∧
    simulate_tm (length ["a"; "b"; "b"] + 2 + 0) (dfa_to_tm_decider dfa)
                ["a"; "b"; "b"] None
    = Return (verdict, trace) ∧
    (verdict = 1 ∨ verdict = 0) ∧
    (verdict = 1 ↔ nfa_accepts build_example_nfa ["a"; "b"; "b"]).
Proof.
  apply (pipeline_decides_nfa build_example_nfa ["a"; "b"; "b"] 0).
  - done.
  - repeat constructor; simpl; set_solver.
Defined.

(** ** compute_generating_nonterminals *)

Section cfg.
Variable cfg : Cfg.t.

Lemma all_symbols_good_spec g right_side :
  all_symbols_good cfg g right_side = true ↔
  ∀ sym, sym ∈ right_side → sym ∈ Cfg.nonterminals cfg → sym ∈ g.
Proof.
  induction right_side as [|sym rest IH]; simpl.
  - split; [|done]. by intros _ sym ?%elem_of_nil.
  - destruct (decide (sym ∈ Cfg.nonterminals cfg)) as [Hn|Hn];
      [destruct (decide (sym ∈ g)) as [Hg|Hg]|].
    + rewrite IH. split.
      * intros H x [->|Hx]%elem_of_cons; auto.
      * intros H x Hx. apply H. by right.
    + split; [done|]. intros H. exfalso. apply Hg, H; [by left | done].
    + rewrite IH. split.
      * intros H x [->|Hx]%elem_of_cons; [done | auto].
      * intros H x Hx. apply H. by right.
Qed.

Lemma is_epsilon_spec (right_side : list string) :
  bool_decide (length right_side = 1)
  && bool_decide (right_side !! 0 = Some EPSILON) = true ↔
  right_side = [EPSILON].
Proof.
  rewrite andb_true_iff, !bool_decide_eq_true. split.
  - intros [Hlen Hfirst]. destruct right_side as [|x [|y rest]]; try done.
    simpl in Hfirst. congruence.
  - by intros ->.
Qed.

Lemma some_right_side_spec g right_side_list :
  some_right_side cfg g right_side_list = true ↔
  ∃ right_side,
    right_side ∈ right_side_list ∧
    (right_side = [EPSILON] ∨
     ∀ sym, sym ∈ right_side → sym ∈ Cfg.nonterminals cfg → sym ∈ g).
Proof.
  induction right_side_list as [|rs rest IH]; simpl.
  - split; [done|]. by intros (? & ?%elem_of_nil & _).
  - destruct (bool_decide (length rs = 1) && bool_decide (rs !! 0 = Some EPSILON))
      eqn:Heps.
    { apply is_epsilon_spec in Heps as ->. split; [|done].
      intros _. exists [EPSILON]. split; [by left | by left]. }
    destruct (all_symbols_good cfg g rs) eqn:Hgood.
    { pose proof (proj1 (all_symbols_good_spec g rs) Hgood) as Hall.
      split; [|done]. intros _. exists rs. split; [by left | by right]. }
    rewrite IH. split.
    + intros (rs' & Hrs' & H). exists rs'. split; [by right | done].
    + intros (rs' & [->|Hrs']%elem_of_cons & H); [|eauto].
      exfalso. destruct H as [->|H].
      * assert (bool_decide (length [EPSILON] = 1)
                && bool_decide ([EPSILON] !! 0 = Some EPSILON) = true)
          by (by apply is_epsilon_spec).
        congruence.
      * pose proof (proj2 (all_symbols_good_spec g rs) H). congruence.
Qed.

Lemma sweep_grows nts : ∀ g changed g' changed',
  sweep cfg nts g changed = (g', changed') →
  g ⊆ g' ∧
  (∀ x, x ∈ g' → x ∈ g ∨ x ∈ nts) ∧
  (changed' = true → changed = true ∨ size g < size g').
Proof.
  induction nts as [|nt rest IH]; intros g ch g' ch'; simpl.
  - intros [= <- <-]. split_and!; [done | auto | auto].
  - assert (Hskip : sweep cfg rest g ch = (g', ch') →
      g ⊆ g' ∧ (∀ x, x ∈ g' → x ∈ g ∨ x ∈ nt :: rest) ∧
      (ch' = true → ch = true ∨ size g < size g')).
    { intros (Hsub & Hfrom & Hch)%IH. split_and!; [done | | done].
      intros x [?|?]%Hfrom; [by left | right; by right]. }
    destruct (decide (nt ∈ g)) as [Hin|Hout]; [done|].
    destruct (Cfg.productions cfg !! nt) as [rsl|]; [|done].
    destruct (some_right_side cfg g rsl); [|done].
    intros (Hsub & Hfrom & Hch)%IH. split_and!.
    + set_solver.
    + intros x [[->%elem_of_singleton|?]%elem_of_union|?]%Hfrom.
      * right; by left.
      * by left.
      * right; by right.
    + intros _. right. apply subseteq_size in Hsub.
      rewrite size_union, size_singleton in Hsub by set_solver. lia.
Qed.

Lemma sweep_unchanged nts : ∀ g changed g',
  sweep cfg nts g changed = (g', false) →
  changed = false ∧ g' = g ∧
  ∀ nt right_side_list,
    nt ∈ nts → nt ∉ g →
    Cfg.productions cfg !! nt = Some right_side_list →
    some_right_side cfg g right_side_list = false.
Proof.
  induction nts as [|nt rest IH]; intros g ch g'; simpl.
  - intros [= <- <-]. split_and!; [done | done |].
    by intros ? ? ?%elem_of_nil.
  - destruct (decide (nt ∈ g)) as [Hin|Hout].
    { intros (-> & -> & Hnone)%IH. split_and!; [done | done |].
      intros nt' rsl [->|?]%elem_of_cons; [done | by apply Hnone]. }
    destruct (Cfg.productions cfg !! nt) as [rsl|] eqn:Hnt.
    + destruct (some_right_side cfg g rsl) eqn:Hsome.
      { by intros (? & _)%IH. }
      intros (-> & -> & Hnone)%IH. split_and!; [done | done |].
      intros nt' rsl' [->|?]%elem_of_cons; [congruence | by apply Hnone].
    + intros (-> & -> & Hnone)%IH. split_and!; [done | done |].
      intros nt' rsl' [->|?]%elem_of_cons; [congruence | by apply Hnone].
Qed.

Lemma sweep_sound nts : ∀ g changed g' changed',
  (∀ x, x ∈ nts → x ∈ Cfg.nonterminals cfg) →
  (∀ x, x ∈ g → generates cfg x) →
  sweep cfg nts g changed = (g', changed') →
  ∀ x, x ∈ g' → generates cfg x.
Proof.
  induction nts as [|nt rest IH]; intros g ch g' ch' Hnts Hg; simpl.
  - by intros [= <- <-].
  - assert (Hrest : ∀ x, x ∈ rest → x ∈ Cfg.nonterminals cfg).
    { intros x Hx. apply Hnts. by right. }
    destruct (decide (nt ∈ g)) as [Hin|Hout]; [by apply IH|].
    destruct (Cfg.productions cfg !! nt) as [rsl|] eqn:Hnt; [|by apply IH].
    destruct (some_right_side cfg g rsl) eqn:Hsome; [|by apply IH].
    apply IH; [done|].
    intros x [->%elem_of_singleton|Hx]%elem_of_union; [|by apply Hg].
    apply some_right_side_spec in Hsome as (rs & Hrs & [->|Hgood]).
    + eapply generates_eps; [apply Hnts; by left | done | done].
    + eapply generates_rule; [apply Hnts; by left | done | done |].
      intros sym Hsym Hn. by apply Hg, Hgood.
Qed.

Lemma generating_loop_sound fuel : ∀ g X,
  (∀ x, x ∈ g → generates cfg x) →
  generating_loop fuel cfg g = Return X →
  ∀ x, x ∈ X → generates cfg x.
Proof.
  induction fuel as [|fuel IH]; intros g X Hg; [done|]. simpl.
  destruct (sweep cfg (Cfg.nonterminals cfg) g false) as [g' ch] eqn:E.
  pose proof (sweep_sound _ _ _ _ _ (λ x H, H) Hg E) as Hg'.
  destruct ch; [by apply IH | by intros [= <-]].
Qed.

Lemma generating_loop_complete fuel : ∀ g X,
  generating_loop fuel cfg g = Return X →
  ∀ x, generates cfg x → x ∈ X.
Proof.
  induction fuel as [|fuel IH]; intros g X; [done|]. simpl.
  destruct (sweep cfg (Cfg.nonterminals cfg) g false) as [g' ch] eqn:E.
  destruct ch; [by apply IH|]. intros [= <-].
  apply sweep_unchanged in E as (_ & -> & Hclosed).
  assert (Hadd : ∀ nt rsl,
            nt ∈ Cfg.nonterminals cfg →
            Cfg.productions cfg !! nt = Some rsl →
            some_right_side cfg g rsl = true → nt ∈ g).
  { intros nt rsl Hnt Hrsl Hsome.
    destruct (decide (nt ∈ g)) as [|Hout]; [done|].
    rewrite (Hclosed nt rsl Hnt Hout Hrsl) in Hsome. done. }
  intros x Hx. induction Hx as [nt rsl Hnt Hrsl Heps|nt rsl rs Hnt Hrsl Hrs _ IHx].
  - apply (Hadd nt rsl); [done | done |]. apply some_right_side_spec.
    exists [EPSILON]. by split; [|left].
  - apply (Hadd nt rsl); [done | done |]. apply some_right_side_spec.
    exists rs. split; [done|]. by right.
Qed.

Lemma generating_loop_returns fuel : ∀ g,
  g ⊆ list_to_set (Cfg.nonterminals cfg) →
  size (list_to_set (Cfg.nonterminals cfg) ∖ g : gset string) < fuel →
  ∃ X, generating_loop fuel cfg g = Return X.
Proof.
  induction fuel as [|fuel IH]; intros g Hg Hfuel; [lia|]. simpl.
  destruct (sweep cfg (Cfg.nonterminals cfg) g false) as [g' ch] eqn:E.
  destruct ch; [|eauto].
  apply sweep_grows in E as (Hsub & Hfrom & Hch).
  destruct (Hch eq_refl) as [|Hsize]; [done|].
  assert (Hg' : g' ⊆ list_to_set (Cfg.nonterminals cfg)).
  { intros x [Hx|Hx]%Hfrom; [by apply Hg | by apply elem_of_list_to_set]. }
  apply IH; [done|].
  assert (size (list_to_set (Cfg.nonterminals cfg) ∖ g' : gset string)
          + size g' = size (list_to_set (Cfg.nonterminals cfg) : gset string)).
  { rewrite <- size_union by set_solver. f_equal.
    apply set_eq. intros x. destruct (decide (x ∈ g')); set_solver. }
  assert (size (list_to_set (Cfg.nonterminals cfg) ∖ g : gset string)
          + size g = size (list_to_set (Cfg.nonterminals cfg) : gset string)).
  { rewrite <- size_union by set_solver. f_equal.
    apply set_eq. intros x. destruct (decide (x ∈ g)); set_solver. }
  lia.
Qed.
End cfg.

(** ** Generating nonterminals and derivations *)

Section cfg_semantics.
Variable cfg : Cfg.t.

Lemma derives_nil_inv w : derives cfg [] w → w = [].
Proof. by inversion 1. Qed.

Lemma derives_cons sym rest w1 w2 :
  derives cfg [sym] w1 → derives cfg rest w2 →
  derives cfg (sym :: rest) (w1 ++ w2).
Proof.
  inversion 1 as [|? ? w Hn Hw|nt rsl ? w Hn Hrsl Heps Hw
                 |nt rsl rs ? u v Hn Hrsl Hrs Hne Hu Hv]; subst; intros Hrest.
  - apply derives_nil_inv in Hw as ->. by apply derives_terminal.
  - apply derives_nil_inv in Hw as ->. simpl. by eapply derives_eps.
  - apply derives_nil_inv in Hv as ->. rewrite app_nil_r.
    by eapply derives_rule.
Qed.

Lemma form_derives (form : list string) :
  (∀ sym, sym ∈ form → sym ∈ Cfg.nonterminals cfg →
          ∃ w, derives cfg [sym] w) →
  ∃ w, derives cfg form w.
Proof.
  induction form as [|sym rest IH]; intros Hall.
  - exists []. constructor.
  - destruct IH as [w2 Hw2].
    { intros x Hx. apply Hall. by right. }
    destruct (decide (sym ∈ Cfg.nonterminals cfg)) as [Hn|Hn].
    + destruct (Hall sym) as [w1 Hw1]; [by left | done |].
      exists (w1 ++ w2). by apply derives_cons.
    + exists (sym :: w2). by apply derives_terminal.
Qed.

Lemma generates_derives non_term :
  generates cfg non_term → ∃ w, derives cfg [non_term] w.
Proof.
  induction 1 as [nt rsl Hnt Hrsl Heps|nt rsl rs Hnt Hrsl Hrs _ IH].
  - exists []. eapply derives_eps; [done | done | done | constructor].
  - destruct (decide (rs = [EPSILON])) as [->|Hne].
    + exists []. eapply derives_eps; [done | done | done | constructor].
    + destruct (form_derives rs IH) as [w Hw].
      exists (w ++ []). eapply derives_rule; [done | done | done | done | done |].
      constructor.
Qed.

Lemma derives_generates form w :
  derives cfg form w →
  ∀ sym, sym ∈ form → sym ∈ Cfg.nonterminals cfg → generates cfg sym.
Proof.
  induction 1 as [|sym rest w Hn Hw IH|nt rsl rest w Hn Hrsl Heps Hw IH
                 |nt rsl rs rest u v Hn Hrsl Hrs Hne Hu IHu Hv IHv];
    intros x Hx Hxn.
  - by apply elem_of_nil in Hx.
  - apply elem_of_cons in Hx as [->|Hx]; [done | by apply IH].
  - apply elem_of_cons in Hx as [->|Hx]; [|by apply IH].
    by eapply generates_eps.
  - apply elem_of_cons in Hx as [->|Hx]; [|by apply IHv].
    by eapply generates_rule.
Qed.

Lemma generates_productive non_term :
  generates cfg non_term ↔ productive cfg non_term.
Proof.
  split.
  - intros H. split; [by destruct H | by apply generates_derives].
  - intros [Hn [w Hw]]. eapply derives_generates; [done | by left | done].
Qed.
End cfg_semantics.

Lemma size_list_to_set_le (l : list string) :
  size (list_to_set l : gset string) ≤ length l.
Proof.
  induction l as [|x l IH].
  - change (size (∅ : gset string) ≤ 0). by rewrite size_empty.
  - change (size ({[x]} ∪ list_to_set l : gset string) ≤ S (length l)).
    rewrite size_union_alt, size_singleton.
    assert (size (list_to_set l ∖ {[x]} : gset string)
            ≤ size (list_to_set l : gset string))
      by (apply subseteq_size; set_solver).
    lia.
Qed.

Lemma compute_generating_ok (cfg : Cfg.t) (extra : nat) :
  ∃ X,
    compute_generating_nonterminals
      (length (Cfg.nonterminals cfg) + 1 + extra) cfg = Return X ∧
    ∀ x, x ∈ X ↔ generates cfg x.
Proof.
  unfold compute_generating_nonterminals.
  destruct (generating_loop_returns cfg
              (length (Cfg.nonterminals cfg) + 1 + extra) ∅) as [X HX].
  { set_solver. }
  { pose proof (size_list_to_set_le (Cfg.nonterminals cfg)).
    assert (size (list_to_set (Cfg.nonterminals cfg) ∖ ∅ : gset string)
            ≤ size (list_to_set (Cfg.nonterminals cfg) : gset string))
      by (apply subseteq_size; set_solver).
    lia. }
  exists X. split; [done|]. intros x. split.
  - eapply generating_loop_sound; [|done]. set_solver.
  - by eapply generating_loop_complete.
Qed.

(** X18: [compute_generating_nonterminals] returns, after at most
    [len(nonterminals) + 1] sweeps, exactly the listed nonterminals that
    derive some terminal word. *)
Theorem compute_generating_productive (cfg : Cfg.t) (extra : nat) :
  ∃ X,
    compute_generating_nonterminals
      (length (Cfg.nonterminals cfg) + 1 + extra) cfg = Return X ∧
    ∀ x, x ∈ X ↔ productive cfg x.
Proof.
  destruct (compute_generating_ok cfg extra) as (X & HX & Hgen).
  exists X. split; [done|]. intros x.
  by rewrite (Hgen x), generates_productive.
Qed.

(** X19: [cfg_language_is_empty] returns 0 when the start symbol is a listed
    nonterminal that derives some terminal word, and 1 otherwise. *)
Theorem cfg_language_is_empty_correct (cfg : Cfg.t) (extra : nat) :
  ∃ result,
    cfg_language_is_empty (length (Cfg.nonterminals cfg) + 1 + extra) cfg
    = Return result ∧
    (result = 0 ∨ result = 1) ∧
    (result = 0 ↔ productive cfg (Cfg.start_symbol cfg)).
Proof.
  destruct (compute_generating_ok cfg extra) as (X & HX & Hgen).
  unfold cfg_language_is_empty. rewrite HX. cbn [bind].
  destruct (decide (Cfg.start_symbol cfg ∈ X)) as [Hin|Hout].
  - exists 0. split_and!; [done | by left |].
    split; [|done]. intros _.
    by apply generates_productive, Hgen.
  - exists 1. split_and!; [done | by right |].
    split; [done|]. intros Hp%generates_productive%Hgen. done.
Qed.

(** X20: The closure view of the same set: a listed nonterminal is returned
    exactly when one of its right sides is [[EPSILON]] or contains, besides
    symbols that are not listed nonterminals, only returned nonterminals.
    In particular an empty right side makes its nonterminal generating,
    and a nonterminal without productions, or one that is not listed, is
    never returned. *)
Theorem compute_generating_closed (cfg : Cfg.t) (extra : nat) :
  ∃ X,
    compute_generating_nonterminals
      (length (Cfg.nonterminals cfg) + 1 + extra) cfg = Return X ∧
    ∀ x, x ∈ X ↔
         x ∈ Cfg.nonterminals cfg ∧
         ∃ right_side_list right_side,
           Cfg.productions cfg !! x = Some right_side_list ∧
           right_side ∈ right_side_list ∧
           (right_side = [EPSILON] ∨
            ∀ sym, sym ∈ right_side → sym ∈ Cfg.nonterminals cfg → sym ∈ X).
Proof.
  destruct (compute_generating_ok cfg extra) as (X & HX & Hgen).
  exists X. split; [done|]. intros x. rewrite (Hgen x). split.
  - intros [nt rsl Hnt Hrsl Heps|nt rsl rs Hnt Hrsl Hrs Hall].
    + split; [done|]. exists rsl, [EPSILON]. split_and!; [done | done | by left].
    + split; [done|]. exists rsl, rs. split_and!; [done | done |].
      right. intros sym Hsym Hn. by apply Hgen, Hall.
  - intros (Hnt & rsl & rs & Hrsl & Hrs & [->|Hall]).
    + by eapply generates_eps.
    + eapply generates_rule; [done | done | done |].
      intros sym Hsym Hn. by apply Hgen, Hall.
Qed.

Lemma cfg_language_is_empty_examples :
  cfg_language_is_empty 3 build_example_cfg_empty = Return 1 ∧
  cfg_language_is_empty 3 build_example_cfg_nonempty = Return 0.
Proof. split; vm_compute; reflexivity. Qed.

Lemma cfg_language_is_empty_correct_witness :
  ¬ productive build_example_cfg_empty "S" ∧
  productive build_example_cfg_nonempty "S".
Proof.
  destruct cfg_language_is_empty_examples as [Hempty Hnonempty]. split.
  - destruct (cfg_language_is_empty_correct build_example_cfg_empty 0)
      as (r & Hr & _ & Hiff).
    change (length (Cfg.nonterminals build_example_cfg_empty) + 1 + 0)
      with 3 in Hr.
    rewrite Hempty in Hr. injection Hr as <-.
    intros Hp. apply Hiff in Hp. discriminate.
  - destruct (cfg_language_is_empty_correct build_example_cfg_nonempty 0)
      as (r & Hr & _ & Hiff).
    change (length (Cfg.nonterminals build_example_cfg_nonempty) + 1 + 0)
      with 3 in Hr.
    rewrite Hnonempty in Hr. injection Hr as <-.
    by apply Hiff.
Defined.

(** ** validate_tm *)

Lemma elem_of_py_range n z : z ∈ py_range n ↔ (0 ≤ z < n)%Z.
Proof.
  unfold py_range. rewrite list_elem_of_fmap. split.
  - intros (i & -> & Hi%elem_of_seq). lia.
  - intros Hz. exists (Z.to_nat z). split; [lia|]. apply elem_of_seq. lia.
Qed.

Lemma keys_valid_spec states keys :
  keys_valid states keys = true ↔
  ∀ state sym, (state, sym) ∈ keys → state ∈ states ∧ sym ∈ TAPE_ALPHABET.
Proof.
  induction keys as [|[s c] keys IH]; simpl.
  - split; [|done]. by intros _ ? ? ?%elem_of_nil.
  - destruct (decide (s ∉ states)) as [Hs|Hs].
    { split; [done|]. intros H. destruct (H s c) as [? _]; [by left | done]. }
    destruct (decide (c ∉ TAPE_ALPHABET)) as [Hc|Hc].
    { split; [done|]. intros H. destruct (H s c) as [_ ?]; [by left | done]. }
    apply dec_stable in Hs, Hc. rewrite IH. split.
    + intros H s' c' [[= -> ->]|Hin]%elem_of_cons; [done | by apply H].
    + intros H s' c' Hin. apply H. by right.
Qed.

Lemma pairs_present_spec states
    (transitions : list ((Z * string) * (target * string * string))) :
  pairs_present states transitions = true ↔
  ∀ s sym, s ∈ states → sym ∈ TAPE_ALPHABET → (s, sym) ∈ transitions.*1.
Proof.
  unfold pairs_present, dict_has. rewrite forallb_forall. split.
  - intros H s sym Hs%list_elem_of_In Hsym%list_elem_of_In.
    specialize (H s Hs). rewrite forallb_forall in H.
    specialize (H sym Hsym). by apply bool_decide_eq_true in H.
  - intros H s Hs%list_elem_of_In. apply forallb_forall.
    intros sym Hsym%list_elem_of_In. apply bool_decide_eq_true. by apply H.
Qed.

Lemma validate_tm_passes tm :
  passes_checks tm → validate_tm tm = NameError "vaue".
Proof.
  intros (Hnum & Hstart & Hblank & Hkeys). unfold validate_tm.
  rewrite decide_False by lia.
  rewrite decide_False by (rewrite elem_of_py_range; intros H; by apply H).
  rewrite decide_False by (intros H; by apply H).
  assert (keys_valid (py_range (Machine.num_states tm))
            (Machine.transitions tm).*1 = true) as ->.
  { apply keys_valid_spec. intros s c Hin%Hkeys.
    by rewrite elem_of_py_range. }
  assert (Hpairs : pairs_present (py_range (Machine.num_states tm))
                     (Machine.transitions tm) = true).
  { apply pairs_present_spec. intros s c Hs%elem_of_py_range Hc.
    by apply Hkeys. }
  rewrite Hpairs. simpl.
  destruct (Machine.transitions tm) as [|[key value] rest] eqn:E; [|done].
  assert (Hin : (0%Z, "a") ∈ ([] : list ((Z * string) * (target * string * string))).*1)
    by (apply Hkeys; split; [lia | by left]).
  by apply elem_of_nil in Hin.
Qed.

Lemma validate_tm_fails tm :
  ¬ passes_checks tm → validate_tm tm = Returned 0.
Proof.
  intros Hnot. unfold validate_tm. cbv zeta.
  destruct (decide (Machine.num_states tm ≤ 0)%Z) as [|Hnum]; [done|].
  destruct (decide (Machine.start_state tm ∉ _)) as [|Hstart]; [done|].
  destruct (decide (Machine.blank tm ∉ TAPE_ALPHABET)) as [|Hblank]; [done|].
  destruct (keys_valid _ _) eqn:Hkeys; simpl in *; [|done].
  destruct (pairs_present _ _) eqn:Hpairs; simpl in *; [|done].
  exfalso. apply Hnot.
  apply dec_stable in Hstart. apply dec_stable in Hblank.
  apply elem_of_py_range in Hstart.
  split_and!; [lia | lia | lia | done |].
  intros s c. split.
  - intros Hin. rewrite <- elem_of_py_range.
    by apply (proj1 (keys_valid_spec _ _) Hkeys).
  - intros [Hs%elem_of_py_range Hc].
    by apply (proj1 (pairs_present_spec _ _) Hpairs).
Qed.

Lemma passes_checks_dec tm : passes_checks tm ∨ ¬ passes_checks tm.
Proof.
  destruct (validate_tm tm) eqn:E.
  - right. intros H%validate_tm_passes. congruence.
  - left. destruct (decide (Machine.num_states tm ≤ 0)%Z) as [Hn|Hn].
    + unfold validate_tm in E. by rewrite decide_True in E.
    + unfold validate_tm in E. cbv zeta in E.
      rewrite decide_False in E by done.
      destruct (decide (Machine.start_state tm ∉ _)) as [|Hstart]; [done|].
      destruct (decide (Machine.blank tm ∉ TAPE_ALPHABET)) as [|Hblank];
        [done|].
      destruct (keys_valid _ _) eqn:Hkeys; simpl in *; [|done].
      destruct (pairs_present _ _) eqn:Hpairs; simpl in *; [|done].
      apply dec_stable in Hstart. apply dec_stable in Hblank.
  apply elem_of_py_range in Hstart.
      split_and!; [lia | lia | lia | done |].
      intros s c. split.
      * intros Hin. rewrite <- elem_of_py_range.
        by apply (proj1 (keys_valid_spec _ _) Hkeys).
      * intros [Hs%elem_of_py_range Hc].
        by apply (proj1 (pairs_present_spec _ _) Hpairs).
Qed.

(** X21: [validate_tm] never returns 1: it returns 0, or it stops at the
    unbound name [vaue] in its last loop. *)
Theorem validate_tm_never_returns_1 (tm : Machine.t) :
  validate_tm tm ≠ Returned 1 ∧
  (validate_tm tm = Returned 0 ∨ validate_tm tm = NameError "vaue").
Proof.
  destruct (passes_checks_dec tm) as [H|H].
  - rewrite (validate_tm_passes tm H). split; [done | by right].
  - rewrite (validate_tm_fails tm H). split; [done | by left].
Qed.

(** *** On dictionaries of Python values *)

Lemma dict_has_get {K V} `{EqDecision K} (d : list (K * V)) key :
  dict_has d key = true ↔ is_Some (dict_get d key).
Proof.
  unfold dict_has. rewrite bool_decide_eq_true.
  induction d as [|[k v] d IH]; simpl.
  - rewrite elem_of_nil. split; [done | by intros [? ?]].
  - rewrite elem_of_cons. destruct (decide (k = key)) as [->|Hne].
    + split; [eauto | by left].
    + rewrite <- IH. split; [intros [?|?]; [congruence | done] | by right].
Qed.

Lemma py_keys_valid_spec states keys :
  Py.keys_valid states keys = true ↔
  ∀ key, key ∈ keys →
    ∃ state sym, key = Py.Tuple [Py.Int state; Py.Str sym] ∧
                 state ∈ states ∧ sym ∈ TAPE_ALPHABET.
Proof.
  induction keys as [|key keys IH].
  - split; [|done]. by intros _ ? ?%elem_of_nil.
  - split.
    + intros Hvalid key' [->|Hin]%elem_of_cons.
      * simpl in Hvalid.
        destruct key as [|[|state [|sym [|]]]|]; try done.
        destruct state as [state| |]; try done.
        destruct sym as [|sym|]; simpl in Hvalid;
          destruct (bool_decide (state ∈ states)) eqn:Hs; try done.
        destruct (bool_decide (sym ∈ TAPE_ALPHABET)) eqn:Hc; try done.
        apply bool_decide_eq_true in Hs, Hc. eauto.
      * apply IH; [|done]. simpl in Hvalid.
        destruct key as [|[|state [|sym [|]]]|]; try done.
        destruct (negb _); [done|]. by destruct (negb _).
    + intros H.
      destruct (H key) as (state & sym & -> & Hs & Hc); [by left|].
      simpl. rewrite !bool_decide_eq_true_2 by done. simpl.
      apply IH. intros key' Hin. apply H. by right.
Qed.

Lemma py_pairs_present_spec states transitions :
  Py.pairs_present states transitions = true ↔
  ∀ s sym, s ∈ states → sym ∈ TAPE_ALPHABET →
           Py.Tuple [Py.Int s; Py.Str sym] ∈ transitions.*1.
Proof.
  unfold Py.pairs_present, dict_has. rewrite forallb_forall. split.
  - intros H s sym Hs%list_elem_of_In Hsym%list_elem_of_In.
    specialize (H s Hs). rewrite forallb_forall in H.
    specialize (H sym Hsym). by apply bool_decide_eq_true in H.
  - intros H s Hs%list_elem_of_In. apply forallb_forall.
    intros sym Hsym%list_elem_of_In. apply bool_decide_eq_true. by apply H.
Qed.

Lemma py_validate_tm_passes tm :
  Py.passes_checks tm → Py.validate_tm tm = NameError "vaue".
Proof.
  intros (n & st & bl & tr & Hn & Hst & Hbl & Htr & Hnum & Hstart & Hblank
          & Hkeys & key & a & b & c & rest & Hfirst).
  unfold Py.validate_tm.
  rewrite !(proj2 (dict_has_get _ _)) by (by rewrite ?Hn, ?Hst, ?Hbl, ?Htr).
  rewrite Hn, Hst, Hbl, Htr. cbn [negb].
  rewrite decide_False by lia. cbv zeta.
  unfold Py.object_in_ints, Py.object_in_strs, Py.in_ints, Py.in_strs.
  rewrite bool_decide_eq_true_2 by (by apply elem_of_py_range).
  rewrite bool_decide_eq_true_2 by done. cbn [negb].
  rewrite (proj2 (py_keys_valid_spec _ _)).
  2:{ intros k (s & sym & -> & Hs & Hc)%Hkeys. exists s, sym.
      by rewrite elem_of_py_range. }
  rewrite (proj2 (py_pairs_present_spec _ _)).
  2:{ intros s sym Hs%elem_of_py_range Hc. apply Hkeys. eauto. }
  cbn [negb]. by rewrite Hfirst.
Qed.

Lemma py_validate_tm_cases tm :
  Py.validate_tm tm = Returned 0 ∨ Py.passes_checks tm.
Proof.
  unfold Py.validate_tm.
  destruct (dict_has tm "num_states") eqn:H1; [|by left].
  destruct (dict_has tm "start_state") eqn:H2; [|by left].
  destruct (dict_has tm "blank") eqn:H3; [|by left].
  destruct (dict_has tm "transitions") eqn:H4; [|by left].
  apply dict_has_get in H1 as [num_states Hn], H2 as [start_state Hst],
    H3 as [blank Hbl], H4 as [transitions Htr].
  rewrite Hn, Hst, Hbl, Htr. cbn [negb].
  destruct num_states as [[[n| |]| |]|]; try by left.
  destruct (decide (n ≤ 0)%Z) as [|Hnum]; [by left|]. cbv zeta.
  destruct start_state as [[[st| |]| |]|]; try by left.
  unfold Py.object_in_ints at 1, Py.in_ints.
  destruct (bool_decide (st ∈ py_range n)) eqn:Hstart; [|by left].
  destruct blank as [[[|bl|]| |]|]; try by left.
  unfold Py.object_in_strs at 1, Py.in_strs.
  destruct (bool_decide (bl ∈ TAPE_ALPHABET)) eqn:Hblank; [|by left].
  cbn [negb].
  destruct transitions as [|tr]; [by left|].
  destruct (Py.keys_valid _ _) eqn:Hkeys; [|by left].
  destruct (Py.pairs_present _ _) eqn:Hpairs; [|by left].
  cbn [negb].
  apply bool_decide_eq_true in Hstart, Hblank.
  apply elem_of_py_range in Hstart.
  assert (Hiff : ∀ key, key ∈ tr.*1 ↔
            ∃ state sym, key = Py.Tuple [Py.Int state; Py.Str sym] ∧
                         (0 ≤ state < n)%Z ∧ sym ∈ TAPE_ALPHABET).
  { intros key. split.
    - intros Hin.
      destruct (proj1 (py_keys_valid_spec _ _) Hkeys key Hin)
        as (s & sym & -> & Hs%elem_of_py_range & Hc). eauto.
    - intros (s & sym & -> & Hs%elem_of_py_range & Hc).
      by apply (proj1 (py_pairs_present_spec _ _) Hpairs). }
  destruct tr as [|[key value] rest].
  { assert (Hin : Py.Tuple [Py.Int 0; Py.Str "a"]
                  ∈ ([] : list (Py.flat * Py.flat)).*1).
    { apply Hiff. exists 0%Z, "a". split_and!; [done | lia | lia | by left]. }
    by apply elem_of_nil in Hin. }
  unfold Py.values_valid.
  destruct value as [|[|a [|b [|c [|]]]]|]; try by left.
  right. exists n, st, bl, ((key, Py.Tuple [a; b; c]) :: rest).
  split_and!; try done; try lia.
  by exists key, a, b, c, rest.
Qed.

(** X22: on every dictionary of Python values, [validate_tm] stops with the
    [NameError] exactly when the dictionary gets through every test that
    comes before the unbound name: the four entries are there,
    [num_states] is a positive int, [start_state] an int below it, [blank]
    a symbol of the tape alphabet, [transitions] a dictionary whose keys
    are exactly the pairs of a state and a tape symbol, and the value of
    its first key is a tuple of length 3.  On every other dictionary it
    returns 0, and it never returns 1. *)
Theorem validate_tm_raises_iff (tm : list (string * Py.object)) :
  (Py.validate_tm tm = NameError "vaue" ↔ Py.passes_checks tm) ∧
  (Py.validate_tm tm = Returned 0 ↔ ¬ Py.passes_checks tm) ∧
  Py.validate_tm tm ≠ Returned 1.
Proof.
  destruct (py_validate_tm_cases tm) as [H0|Hp].
  - rewrite H0. split_and!; [split; [done|] | split; [|done] | done].
    + intros Hp%py_validate_tm_passes. congruence.
    + intros _ Hp%py_validate_tm_passes. congruence.
  - rewrite (py_validate_tm_passes tm Hp). split_and!; [done | split; done | done].
Qed.

Lemma to_dict_keys
    (transitions : list ((Z * string) * (target * string * string))) :
  (prod_map Py.key_value Py.rule_value <$> transitions).*1
  = Py.key_value <$> transitions.*1.
Proof.
  rewrite <- !list_fmap_compose. by apply list_fmap_ext; intros ? [? ?].
Qed.

Lemma py_keys_valid_to_dict states (keys : list (Z * string)) :
  Py.keys_valid states (Py.key_value <$> keys) = keys_valid states keys.
Proof.
  induction keys as [|[s c] rest IH]; [done|].
  rewrite fmap_cons. unfold Py.key_value at 1.
  cbn [Py.keys_valid keys_valid fst snd Py.in_ints Py.in_strs].
  rewrite IH.
  destruct (decide (s ∉ states)) as [Hs|Hs].
  { by rewrite bool_decide_eq_false_2. }
  apply dec_stable in Hs. rewrite bool_decide_eq_true_2 by done. cbn [negb].
  destruct (decide (c ∉ TAPE_ALPHABET)) as [Hc|Hc].
  { by rewrite bool_decide_eq_false_2. }
  apply dec_stable in Hc. by rewrite bool_decide_eq_true_2.
Qed.

Lemma py_pairs_present_to_dict states
    (transitions : list ((Z * string) * (target * string * string))) :
  Py.pairs_present states (prod_map Py.key_value Py.rule_value <$> transitions)
  = pairs_present states transitions.
Proof.
  apply eq_true_iff_eq.
  rewrite py_pairs_present_spec, pairs_present_spec, to_dict_keys.
  split; intros H s sym Hs Hc; specialize (H s sym Hs Hc).
  - apply list_elem_of_fmap in H as ([s' c'] & [= -> ->] & Hin). done.
  - apply list_elem_of_fmap. by exists (s, sym).
Qed.

(** On the dictionary of a machine the two embeddings of [validate_tm]
    agree. *)
Lemma validate_tm_to_dict (tm : Machine.t) :
  Py.validate_tm (Py.to_dict tm) = validate_tm tm.
Proof.
  unfold Py.validate_tm, validate_tm, Py.to_dict.
  change (dict_has _ "num_states") with true.
  change (dict_has _ "start_state") with true.
  change (dict_has _ "blank") with true.
  change (dict_has _ "transitions") with true.
  cbn [negb]. cbn [dict_get].
  repeat (first [rewrite decide_True by done | rewrite decide_False by done]).
  cbv zeta.
  destruct (decide (Machine.num_states tm ≤ 0)%Z); [done|].
  unfold Py.object_in_ints, Py.object_in_strs, Py.in_ints, Py.in_strs.
  destruct (decide (Machine.start_state tm ∉ _)) as [Hs|Hs].
  { by rewrite bool_decide_eq_false_2. }
  apply dec_stable in Hs. rewrite bool_decide_eq_true_2 by done.
  destruct (decide (Machine.blank tm ∉ _)) as [Hb|Hb].
  { by rewrite bool_decide_eq_false_2. }
  apply dec_stable in Hb. rewrite bool_decide_eq_true_2 by done.
  cbn [negb].
  rewrite to_dict_keys, py_keys_valid_to_dict, py_pairs_present_to_dict.
  destruct (keys_valid _ _); [|done].
  destruct (pairs_present _ _); [|done].
  destruct (Machine.transitions tm) as [|[key [[nxt ch] dir]] rest]; done.
Qed.

(** A first rule that is a pair, or a list, makes [validate_tm] return 0
    before it gets to the unbound name; the dictionary of the first
    enumerated machine gets to it. *)
Lemma validate_tm_malformed_rule :
  Py.validate_tm Py.machine_pair_rule = Returned 0 ∧
  Py.validate_tm Py.machine_list_rule = Returned 0 ∧
  Py.validate_tm (Py.to_dict machine_example) = NameError "vaue".
Proof. split_and!; by vm_compute. Qed.

(** A machine gets through the tests of the one embedding when its
    dictionary gets through those of the other. *)
Lemma passes_checks_to_dict (tm : Machine.t) :
  Py.passes_checks (Py.to_dict tm) ↔ passes_checks tm.
Proof.
  split.
  - intros H%py_validate_tm_passes. rewrite validate_tm_to_dict in H.
    destruct (passes_checks_dec tm) as [|Hnot]; [done|].
    apply validate_tm_fails in Hnot. congruence.
  - intros H%validate_tm_passes. rewrite <- validate_tm_to_dict in H.
    destruct (py_validate_tm_cases (Py.to_dict tm)); [congruence | done].
Qed.

(** X23: [validate_tm] returns 0 on whatever [make_invalid_blank_symbol]
    builds. *)
Theorem validate_tm_invalid_blank (tm : Machine.t) :
  validate_tm (make_invalid_blank_symbol tm) = Returned 0.
Proof.
  apply validate_tm_fails. intros (_ & _ & Hblank & _). simpl in Hblank.
  unfold TAPE_ALPHABET in Hblank.
  rewrite !elem_of_cons, elem_of_nil in Hblank. naive_solver.
Qed.

(** X24: Removing the first transition of a machine that gets through the
    tests of [validate_tm] makes [validate_tm] return 0. *)
Theorem validate_tm_invalid_missing (tm : Machine.t) :
  passes_checks tm →
  validate_tm (make_invalid_missing_transition tm) = Returned 0.
Proof.
  intros (Hnum & Hstart & Hblank & Hkeys).
  apply validate_tm_fails. intros (_ & _ & _ & Hkeys'). simpl in Hkeys'.
  destruct (Machine.transitions tm) as [|[[s c] value] rest] eqn:E.
  - assert (Hin : (0%Z, "a") ∈ ([] : list ((Z * string) * (target * string * string))).*1)
      by (apply Hkeys; split; [lia | by left]).
    by apply elem_of_nil in Hin.
  - simpl in Hkeys'.
    assert (Hvalid : (0 ≤ s < Machine.num_states tm)%Z ∧ c ∈ TAPE_ALPHABET).
    { apply Hkeys. simpl. by left. }
    apply Hkeys' in Hvalid.
    apply list_elem_of_fmap in Hvalid as ([k v] & Hk & Hin).
    unfold dict_del in Hin. apply list_elem_of_filter in Hin as [Hne _].
    simpl in *. congruence.
Qed.

(** ** enumerate_tms *)

Lemma elem_of_product {A} (pool : list A) n : ∀ combo,
  combo ∈ product pool n ↔
  length combo = n ∧ ∀ x, x ∈ combo → x ∈ pool.
Proof.
  induction n as [|n IH]; intros combo; simpl.
  - rewrite elem_of_cons, elem_of_nil. split.
    + intros [->|[]]. split; [done|]. by intros ? ?%elem_of_nil.
    + intros [Hlen _]. left. by destruct combo.
  - rewrite list_elem_of_bind. split.
    + intros (x & (rest & -> & Hrest%IH)%list_elem_of_fmap & Hx).
      destruct Hrest as [Hlen Hall]. split; [simpl; lia|].
      intros y [->|Hy]%elem_of_cons; auto.
    + intros [Hlen Hall]. destruct combo as [|x rest]; [done|].
      exists x. split; [|apply Hall; by left].
      apply list_elem_of_fmap. exists rest. split; [done|].
      apply IH. split; [simpl in Hlen; lia|].
      intros y Hy. apply Hall. by right.
Qed.

Lemma length_bind_const {A B} (f : A → list B) (l : list A) k :
  (∀ x, length (f x) = k) → length (l ≫= f) = length l * k.
Proof.
  intros Hf. induction l as [|x l IH]; [done|].
  change ((x :: l) ≫= f) with (f x ++ (l ≫= f)).
  rewrite length_app, Hf, IH. simpl. lia.
Qed.

Lemma length_product {A} (pool : list A) n :
  length (product pool n) = length pool ^ n.
Proof.
  induction n as [|n IH]; [done|]. simpl.
  rewrite (length_bind_const _ _ (length pool ^ n)); [done|].
  intros x. by rewrite length_fmap.
Qed.

Lemma elem_of_build_trans_table states s sym :
  (s, sym) ∈ build_trans_table states ↔ s ∈ states ∧ sym ∈ TAPE_ALPHABET.
Proof.
  unfold build_trans_table. rewrite list_elem_of_bind. split.
  - intros (s' & (sym' & [= -> ->] & Hsym)%list_elem_of_fmap & Hs). done.
  - intros [Hs Hsym]. exists s. split; [|done].
    apply list_elem_of_fmap. by exists sym.
Qed.

Lemma elem_of_establish_rules nexts nxt ch dir :
  (nxt, ch, dir) ∈ establish_rules nexts ↔
  nxt ∈ nexts ∧ ch ∈ TAPE_ALPHABET ∧ dir ∈ MOVES.
Proof.
  unfold establish_rules. rewrite list_elem_of_bind. split.
  - intros (n & (c & (d & [= -> -> ->] & Hd)%list_elem_of_fmap & Hc)
              %list_elem_of_bind & Hn). done.
  - intros (Hn & Hc & Hd). exists nxt. split; [|done].
    apply list_elem_of_bind. exists ch. split; [|done].
    apply list_elem_of_fmap. by exists dir.
Qed.

Lemma dict_set_items {K V} `{EqDecision K} (d : list (K * V)) key value k v :
  (k, v) ∈ dict_set d key value → (k, v) ∈ d ∨ (k = key ∧ v = value).
Proof.
  induction d as [|[k0 v0] d IH]; simpl.
  - intros [[= -> ->]|[]%elem_of_nil]%elem_of_cons. by right.
  - destruct (decide (k0 = key)) as [->|Hne].
    + intros [[= -> ->]|Hin]%elem_of_cons; [by right|]. left. by right.
    + intros [[= -> ->]|Hin]%elem_of_cons; [left; by left|].
      destruct (IH Hin) as [?|?]; [left; by right | by right].
Qed.

Lemma dict_set_keys {K V} `{EqDecision K} (d : list (K * V)) key value k :
  k ∈ (dict_set d key value).*1 ↔ k = key ∨ k ∈ d.*1.
Proof.
  induction d as [|[k0 v0] d IH]; simpl.
  - rewrite elem_of_cons, elem_of_nil. tauto.
  - destruct (decide (k0 = key)) as [->|Hne]; simpl.
    + rewrite !elem_of_cons. tauto.
    + rewrite !elem_of_cons, IH. tauto.
Qed.

Lemma fill_items {K V} `{EqDecision K} (l : list (K * V)) : ∀ d k v,
  (k, v) ∈ foldl (λ d '(pos, rule), dict_set d pos rule) d l →
  (k, v) ∈ d ∨ (k, v) ∈ l.
Proof.
  induction l as [|[k0 v0] l IH]; intros d k v; simpl; [by left|].
  intros [[Hd|[-> ->]]%dict_set_items|Hl]%IH.
  - by left.
  - right. by left.
  - right. by right.
Qed.

Lemma fill_keys {K V} `{EqDecision K} (l : list (K * V)) : ∀ d k,
  k ∈ (foldl (λ d '(pos, rule), dict_set d pos rule) d l).*1 ↔
  k ∈ d.*1 ∨ k ∈ l.*1.
Proof.
  induction l as [|[k0 v0] l IH]; intros d k; simpl.
  - rewrite elem_of_nil. tauto.
  - rewrite IH, dict_set_keys, elem_of_cons. tauto.
Qed.

Lemma machines_with_ok n tm :
  (0 < n)%Z →
  tm ∈ machines_with n →
  passes_checks tm ∧
  Machine.num_states tm = n ∧
  ∀ key nxt ch dir,
    (key, (nxt, ch, dir)) ∈ Machine.transitions tm →
    (nxt = HALT ∨ ∃ q, nxt = Goto q ∧ (0 ≤ q < n)%Z) ∧
    ch ∈ TAPE_ALPHABET ∧ dir ∈ MOVES.
Proof.
  intros Hn. unfold machines_with.
  intros (combo & -> & [Hlen Hrules]%elem_of_product)%list_elem_of_fmap.
  split_and!; simpl.
  - split_and!; simpl; [done | lia | lia | by do 2 right; left |].
    intros s sym. rewrite fill_keys, fst_zip by lia.
    rewrite elem_of_build_trans_table, elem_of_py_range. split.
    + by intros [[]%elem_of_nil|?].
    + by right.
  - done.
  - intros key nxt ch dir [[]%elem_of_nil|Hin]%fill_items.
    apply elem_of_zip_r, Hrules, elem_of_establish_rules in Hin
      as (Hnxt & Hch & Hdir).
    split_and!; [|done..].
    apply elem_of_app in Hnxt as [(q & -> & Hq)%list_elem_of_fmap|Hhalt].
    + right. exists q. by rewrite <- elem_of_py_range.
    + left. apply elem_of_cons in Hhalt as [->|[]%elem_of_nil]. done.
Qed.

(** X25: Every machine [enumerate_tms] yields gets through the tests of
    [validate_tm], and each of its transitions leads to one of its states
    or to [HALT], writes a tape symbol and moves [L] or [R]; so
    [validate_tm] stops at the unbound name on every enumerated machine. *)
Theorem enumerate_tms_pass_checks (passes : nat) (tm : Machine.t) :
  tm ∈ enumerate_tms passes →
  passes_checks tm ∧
  Machine.start_state tm = 0%Z ∧
  (1 ≤ Machine.num_states tm ≤ Z.of_nat passes)%Z ∧
  (∀ key nxt ch dir,
     (key, (nxt, ch, dir)) ∈ Machine.transitions tm →
     (nxt = HALT ∨ ∃ q, nxt = Goto q ∧ (0 ≤ q < Machine.num_states tm)%Z) ∧
     ch ∈ TAPE_ALPHABET ∧ dir ∈ MOVES) ∧
  validate_tm tm = NameError "vaue".
Proof.
  unfold enumerate_tms.
  intros (i & Htm & Hi%elem_of_seq)%list_elem_of_bind.
  assert (Hstart : Machine.start_state tm = 0%Z).
  { unfold machines_with in Htm.
    by apply list_elem_of_fmap in Htm as (combo & -> & _). }
  apply machines_with_ok in Htm as (Hpass & Hnum & Hvalues); [|lia].
  rewrite Hnum. split_and!; [done | done | lia | lia | done |].
  by apply validate_tm_passes.
Qed.

Lemma enumerate_tms_pass_checks_witness :
  validate_tm machine_example = NameError "vaue".
Proof.
  apply (enumerate_tms_pass_checks 1).
  by apply (list_elem_of_lookup_2 _ 0).
Defined.

(** X26: One pass of [enumerate_tms] yields [(6 (n + 1)) ^ (3 n)] machines with
    [n] states: one for every way of giving each of the [3 n] pairs
    (state, symbol) one of the [6 (n + 1)] rules. *)
Theorem machines_with_count (n : nat) :
  length (machines_with (Z.of_nat n)) = (6 * (n + 1)) ^ (3 * n).
Proof.
  unfold machines_with. rewrite length_fmap, length_product.
  assert (Hrange : length (py_range (Z.of_nat n)) = n).
  { unfold py_range. by rewrite length_fmap, length_seq, Nat2Z.id. }
  f_equal.
  - unfold establish_rules.
    rewrite (length_bind_const _ _ 6).
    + rewrite length_app, length_fmap, Hrange. simpl. lia.
    + intros x. done.
  - unfold build_trans_table.
    rewrite (length_bind_const _ _ 3), Hrange; [lia|]. intros x. done.
Qed.

Lemma machine_example_passes : passes_checks machine_example.
Proof.
  apply (machines_with_ok 1 machine_example); [lia|].
  by apply (list_elem_of_lookup_2 _ 0).
Defined.

Lemma validate_tm_invalid_missing_witness :
  Machine.transitions (make_invalid_missing_transition machine_example)
  = [(0%Z, "b", (Goto 0, "a", "L")); (0%Z, "_", (Goto 0, "a", "L"))] ∧
  validate_tm (make_invalid_missing_transition machine_example) = Returned 0.
Proof.
  split; [by vm_compute|].
  apply (validate_tm_invalid_missing machine_example machine_example_passes).
Defined.
